(** * Cost and ROI derivation of the cloud migration planner

    A shallow embedding of the cost engine of
    [frontend/static/js/main.js]: the strategy and complexity tables
    ([getBaselineMigrationCost], [getComplexityMultiplier]), the per-server
    calculation ([calculateServerCosts] and its three helpers), the
    portfolio aggregation ([processServerCosts]), the figures derived in
    [displayCostAnalysis], and the control flow of
    [displayMigrationRoadmap]; and, around it, of the byte formatter
    ([formatBytes]), the badge class tables ([getComplexityClass],
    [getRiskClass]), the server cards and the cost chart
    ([displayServerAnalysis], [createCostChart]), and the page under
    [displayResults] and the submit handler.

    JavaScript numbers are IEEE-754 binary64 values; they are modelled by
    Rocq's primitive [float], whose operations are the same binary64
    operations (round to nearest, ties to even) and are specified by
    [SpecFloat] through [FloatAxioms].  Objects of the payload are records
    with the fields the code reads; the two lookup tables are object
    literals, read through their prototype chain; the generated HTML is
    kept as the data it is made of. *)

From Stdlib Require Import ZArith Lia Floats Uint63.
From stdpp Require Import gmap strings list fin_maps.

Set Warnings "-inexact-float".

Open Scope string_scope.

(** ** JavaScript values and completions *)

Module JS.

(** What a property read on one of the two lookup tables can produce: a
    number stored in the table itself, or a member inherited from
    [Object.prototype] (a function, or the prototype object for
    [__proto__]). *)
Inductive value : Type :=
| Num (x : float)
| Inherited (name : string).

(** The own property names of [Object.prototype]. *)
Definition object_prototype_names : list string :=
  [ "constructor"; "hasOwnProperty"; "isPrototypeOf";
    "propertyIsEnumerable"; "toLocaleString"; "toString"; "valueOf";
    "__proto__"; "__defineGetter__"; "__defineSetter__";
    "__lookupGetter__"; "__lookupSetter__" ].

(** [obj[key]] for an object literal [obj] whose own properties are the
    numbers of [own]: the own property when there is one, else the
    property of [Object.prototype] of that name, else [undefined]
    ([None]). *)
Definition get (own : gmap string float) (key : string) : option value :=
  match own !! key with
  | Some x => Some (Num x)
  | None =>
      if bool_decide (key ∈ object_prototype_names)
      then Some (Inherited key)
      else None
  end.

(** [ToBoolean]: a number is falsy when it is [0], [-0] or [NaN];
    functions and objects are truthy. *)
Definition truthy (v : value) : bool :=
  match v with
  | Num x => negb (PrimFloat.is_zero x || PrimFloat.is_nan x)
  | Inherited _ => true
  end.

(** [a || b] where [a] may be [undefined]. *)
Definition or_else (a : option value) (b : value) : value :=
  match a with
  | Some v => if truthy v then v else b
  | None => b
  end.

(** [ToNumber]: functions and plain objects convert to [NaN]. *)
Definition to_number (v : value) : float :=
  match v with
  | Num x => x
  | Inherited _ => PrimFloat.nan
  end.

(** The [*] operator. *)
Definition mul (a b : value) : float := (to_number a * to_number b)%float.

(** How a call ends: with a value, or with a thrown error.  [TypeError]
    is what reading a property of [undefined] raises; [EmptyPortfolio] and
    [DivisionByZero] are the error conditions the specification names, and
    no statement of the program raises them. *)
Inductive error : Type :=
| EmptyPortfolio
| DivisionByZero
| TypeError.

Inductive completion (A : Type) : Type :=
| Return (a : A)
| Throw (e : error).
Arguments Return {A} a.
Arguments Throw {A} e.

End JS.

(** ** Input records *)

Record Cpu := { cores : float; utilization : float }.
Record Space := { total : float; used : float }.
Record Metrics := { cpu : Cpu; memory : Space; storage : Space }.
Record NetworkUtilization := { bandwidth : float; averageUsage : float }.

Record ServerData := {
  serverId : string;
  serverName : string;
  applications : list string;
  metrics : Metrics;
  networkUtilization : NetworkUtilization
}.

Record MigrationStrategy := {
  strategy : string;
  description : string;
  aws_services : list string
}.

Record Complexity := { level : string; percentage : float }.

Record Server := {
  serverData : ServerData;
  migrationStrategy : MigrationStrategy;
  complexity : Complexity
}.

(** ** Cost model *)

Definition baseline_costs : gmap string float :=
  {[ "Rehost" := 500000%float;
     "Replatform" := 1000000%float;
     "Refactor" := 2000000%float ]}.

(** [costs[strategy] || costs.Rehost] *)
Definition getBaselineMigrationCost (strategy : string) : JS.value :=
  JS.or_else (JS.get baseline_costs strategy) (JS.Num 500000%float).

Definition multipliers : gmap string float :=
  {[ "High" := 1.5%float; "Medium" := 1.2%float; "Low" := 1.0%float ]}.

(** [multipliers[level] || 1.0] *)
Definition getComplexityMultiplier (level : string) : JS.value :=
  JS.or_else (JS.get multipliers level) (JS.Num 1.0%float).

Definition calculateComputeCost (m : Metrics) : float :=
  let costPerCore := 3000%float in
  let utilizationFactor := (utilization (cpu m) / 100)%float in
  (cores (cpu m) * costPerCore * utilizationFactor)%float.

Definition calculateStorageCost (m : Metrics) : float :=
  let costPerGB := 100%float in
  let storageGB := (total (storage m) / (1024 * 1024))%float in
  (storageGB * costPerGB)%float.

Definition calculateNetworkCost (n : NetworkUtilization) : float :=
  let costPerGBBandwidth := 50%float in
  ((bandwidth n * averageUsage n / 100) * costPerGBBandwidth)%float.

Record CostBreakdown := {
  projectedMonthlyCost : float;
  currentMonthlyCost : float;
  migrationCost : float;
  savings : float
}.

Definition calculateServerCosts (server : Server) : CostBreakdown :=
  let baselineCost :=
    getBaselineMigrationCost (strategy (migrationStrategy server)) in
  let complexityMultiplier :=
    getComplexityMultiplier (level (complexity server)) in
  let computeCost := calculateComputeCost (metrics (serverData server)) in
  let storageCost := calculateStorageCost (metrics (serverData server)) in
  let networkCost :=
    calculateNetworkCost (networkUtilization (serverData server)) in
  let projected := (computeCost + storageCost + networkCost)%float in
  let current := (projected * 1.4)%float in
  {| projectedMonthlyCost := projected;
     currentMonthlyCost := current;
     migrationCost := JS.mul baselineCost complexityMultiplier;
     savings := (current - projected)%float |}.

(** ** Portfolio aggregation *)

(** [Math.ceil]: the least integer not below [x], as a double; [NaN], the
    infinities and the zeros are returned unchanged, and a negative [x]
    above [-1] gives [-0]. *)
Definition Math_ceil (x : float) : float :=
  match Prim2SF x with
  | S754_finite s m e =>
      if (0 <=? e)%Z then x
      else
        let n := (if s then - (Z.pos m / 2 ^ (- e))
                  else - ((- Z.pos m) / 2 ^ (- e)))%Z in
        if (n =? 0)%Z then (if s then neg_zero else zero)
        else if (n <? 0)%Z then (- of_uint63 (Uint63.of_Z (- n)))%float
        else of_uint63 (Uint63.of_Z n)
  | _ => x
  end.

(** The object [processServerCosts] returns.  [serverCosts] is the
    object filled with one entry per server id; it is read at the ids that
    were written. *)
Record PortfolioCostSummary := {
  totalMigrationCost : float;
  monthlyCloudCost : float;
  currentCosts : float;
  monthlySavings : float;
  roiMonths : float;
  serverCosts : gmap string CostBreakdown
}.

(** The four variables the [forEach] loop of [processServerCosts]
    updates. *)
Record Totals := {
  acc_totalMigrationCost : float;
  acc_monthlyCloudCost : float;
  acc_currentCosts : float;
  acc_serverCosts : gmap string CostBreakdown
}.

Definition initial_totals : Totals :=
  {| acc_totalMigrationCost := 0;
     acc_monthlyCloudCost := 0;
     acc_currentCosts := 0;
     acc_serverCosts := ∅ |}.

(** One iteration of the loop body.  The object [serverCosts] is kept as
    the map of what a read [serverCosts[id]] gives at the ids the loop has
    written.  At the id ["__proto__"] the assignment sets the prototype of
    the object instead of adding a key, and a read at ["__proto__"] gives
    the prototype back, so at that id too a read gives the breakdown last
    written.  The map says nothing of the keys the object owns, nor of a
    read at an id no server carries. *)
Definition add_server (acc : Totals) (server : Server) : Totals :=
  let costs := calculateServerCosts server in
  {| acc_serverCosts :=
       <[ serverId (serverData server) := costs ]> (acc_serverCosts acc);
     acc_totalMigrationCost :=
       (acc_totalMigrationCost acc + migrationCost costs)%float;
     acc_monthlyCloudCost :=
       (acc_monthlyCloudCost acc + projectedMonthlyCost costs)%float;
     acc_currentCosts :=
       (acc_currentCosts acc + currentMonthlyCost costs)%float |}.

Definition processServerCosts (servers : list Server) : PortfolioCostSummary :=
  let acc := fold_left add_server servers initial_totals in
  let monthlySavings :=
    (acc_currentCosts acc - acc_monthlyCloudCost acc)%float in
  let roiMonths :=
    if (0 <? monthlySavings)%float
    then Math_ceil (acc_totalMigrationCost acc / monthlySavings)%float
    else 0%float in
  {| totalMigrationCost := acc_totalMigrationCost acc;
     monthlyCloudCost := acc_monthlyCloudCost acc;
     currentCosts := acc_currentCosts acc;
     monthlySavings := monthlySavings;
     roiMonths := roiMonths;
     serverCosts := acc_serverCosts acc |}.

(** The body of [processServerCosts] has no [throw]; on a list of server
    records the call completes normally with the summary. *)
Definition call_processServerCosts (servers : list Server)
  : JS.completion PortfolioCostSummary :=
  JS.Return (processServerCosts servers).

(** ** Figures derived for display *)

(** [parseFloat] applied to a number: the number itself, except that
    [-0] prints as ["0"] and so reads back as [0]. *)
Definition parseFloat (x : float) : float :=
  if PrimFloat.is_zero x then 0%float else x.

Definition float_of_nat (n : nat) : float :=
  of_uint63 (Uint63.of_Z (Z.of_nat n)).

(** The overview figures of [displayResults]. *)
Definition averageComplexity (servers : list Server) : float :=
  let serverCount := float_of_nat (length servers) in
  (fold_left (fun sum server =>
                (sum + parseFloat (percentage (complexity server)))%float)
             servers 0%float / serverCount)%float.

Record CostSummary := {
  annualSavings : float;
  threeYearSavings : float;
  costReduction : float
}.

(** The cost summary computed in [displayCostAnalysis]. *)
Definition displayCostAnalysis (costData : PortfolioCostSummary)
  : CostSummary :=
  {| annualSavings := (monthlySavings costData * 12)%float;
     threeYearSavings :=
       ((monthlySavings costData * 36) - totalMigrationCost costData)%float;
     costReduction :=
       (((currentCosts costData - monthlyCloudCost costData)
         / currentCosts costData) * 100)%float |}.

(** ** Roadmap *)

(** A phase of the timeline.  Its [complexity] and [strategy] fields are
    [phase_complexity] and [phase_strategy] here, and the fields of the
    project summary carry the prefix [summary_], since a server has
    fields of the same names. *)
Record Phase := {
  name : string;
  startDate : string;
  endDate : string;
  duration : string;
  criticalPath : bool;
  phase_complexity : string;
  phase_strategy : string;
  tasks : list string;
  deliverables : list string;
  risks : list string
}.

Record ProjectSummary := {
  summary_duration : string;
  totalEffort : float;
  summary_startDate : string;
  summary_endDate : string
}.

(** The roadmap of the payload; a field that may be missing is an
    [option]. *)
Record Roadmap := {
  projectSummary : option ProjectSummary;
  timeline : option (list Phase)
}.

(** What [createPhaseElement] renders: the phase, with or without the
    connector to the next one. *)
Record PhaseElement := { element_phase : Phase; isLast : bool }.

Definition createPhaseElement (phase : Phase) (isLast : bool) : PhaseElement :=
  {| element_phase := phase; isLast := isLast |}.

(** The content [displayMigrationRoadmap] puts in the roadmap container:
    the "Roadmap information not available" notice, or the project
    summary followed by one element per phase. *)
Inductive RoadmapView : Type :=
| Unavailable
| Rendered (summary : ProjectSummary) (phases : list PhaseElement).

Definition displayMigrationRoadmap (roadmap : option Roadmap)
  : JS.completion RoadmapView :=
  match roadmap with
  | None => JS.Return Unavailable
  | Some r =>
      match timeline r with
      | None => JS.Return Unavailable
      | Some phases =>
          match projectSummary r with
          | None => JS.Throw JS.TypeError
          | Some summary =>
              JS.Return
                (Rendered summary
                   (imap (fun index phase =>
                            createPhaseElement phase
                              (Nat.eqb index (length phases - 1)))
                         phases))
          end
      end
  end.

(** ** Servers used as concrete inputs *)

(** The server of the worked example: 4 cores at 50%, 1 GiB of storage,
    bandwidth 100 at 50% average usage, Replatform, Medium. *)
Definition web_server : Server :=
  {| serverData :=
       {| serverId := "srv-001";
          serverName := "web-01";
          applications := ["nginx"];
          metrics :=
            {| cpu := {| cores := 4; utilization := 50 |};
               memory := {| total := 8388608; used := 4194304 |};
               storage := {| total := 1048576; used := 524288 |} |};
          networkUtilization := {| bandwidth := 100; averageUsage := 50 |} |};
     migrationStrategy :=
       {| strategy := "Replatform";
          description := "Move to managed services";
          aws_services := ["EC2"; "RDS"] |};
     complexity := {| level := "Medium"; percentage := 55 |} |}.

(** A diskless server that is switched on but idle: no CPU utilization,
    no storage, no traffic, so every term of its projected cost is [0]. *)
Definition idle_server : Server :=
  {| serverData :=
       {| serverId := "srv-002";
          serverName := "spare-01";
          applications := [];
          metrics :=
            {| cpu := {| cores := 2; utilization := 0 |};
               memory := {| total := 4194304; used := 0 |};
               storage := {| total := 0; used := 0 |} |};
          networkUtilization := {| bandwidth := 1000; averageUsage := 0 |} |};
     migrationStrategy :=
       {| strategy := "Rehost";
          description := "Lift and shift";
          aws_services := ["EC2"] |};
     complexity := {| level := "Low"; percentage := 10 |} |}.

Definition kickoff_summary : ProjectSummary :=
  {| summary_duration := "0 weeks";
     totalEffort := 0;
     summary_startDate := "2025-01-06";
     summary_endDate := "2025-01-06" |}.

(** The sum of one figure of the breakdowns, in input order, as the loop
    accumulates it. *)
Definition sum_of (figure : CostBreakdown -> float) (servers : list Server)
  : float :=
  fold_left
    (fun sum server => (sum + figure (calculateServerCosts server))%float)
    servers 0%float.

Definition web_server_resized : Server :=
  {| serverData :=
       {| serverId := "srv-001";
          serverName := "web-01";
          applications := ["nginx"];
          metrics :=
            {| cpu := {| cores := 8; utilization := 50 |};
               memory := {| total := 8388608; used := 4194304 |};
               storage := {| total := 1048576; used := 524288 |} |};
          networkUtilization := {| bandwidth := 100; averageUsage := 50 |} |};
     migrationStrategy :=
       {| strategy := "Refactor";
          description := "Rebuild as containers";
          aws_services := ["EKS"] |};
     complexity := {| level := "High"; percentage := 80 |} |}.

Definition with_cores (c : float) (server : Server) : Server :=
  let data := serverData server in
  let m := metrics data in
  {| serverData :=
       {| serverId := serverId data;
          serverName := serverName data;
          applications := applications data;
          metrics :=
            {| cpu := {| cores := c; utilization := utilization (cpu m) |};
               memory := memory m;
               storage := storage m |};
          networkUtilization := networkUtilization data |};
     migrationStrategy := migrationStrategy server;
     complexity := complexity server |}.

Definition with_utilization (u : float) (server : Server) : Server :=
  let data := serverData server in
  let m := metrics data in
  {| serverData :=
       {| serverId := serverId data;
          serverName := serverName data;
          applications := applications data;
          metrics :=
            {| cpu := {| cores := cores (cpu m); utilization := u |};
               memory := memory m;
               storage := storage m |};
          networkUtilization := networkUtilization data |};
     migrationStrategy := migrationStrategy server;
     complexity := complexity server |}.

(** [new] has not decreased from [old]: [new < old] is false.  When both
    are numbers this is [old <= new]. *)
Definition not_decreased (old new : float) : Prop :=
  (new <? old)%float = false.

(** The worked-example server with two cores instead of four. *)
Definition small_server : Server := with_cores 2 web_server.

(** A server whose report has a core count of [1e305] and a utilization
    of [0]: its base compute cost [1e305 * 3000] overflows to [Infinity],
    and [Infinity * 0] is [NaN], so its projected cost, its savings and the
    portfolio's [monthlySavings] are [NaN]. *)
Definition overflowing_server : Server :=
  with_cores 1e305 (with_utilization 0 web_server).

(** * Display helpers, cards, chart and page

    The parts of the script around the cost engine: the byte formatter,
    the badge class tables, the server cards, the cost chart, and the
    state of the page under the submit handler.  The formatters built on
    [Intl] ([formatINR], [formatNumber], [formatDate]) are not modelled: a
    number they format is kept as the number that is formatted. *)

(** ** Byte counts *)

Definition units : list string := ["B"; "KB"; "MB"; "GB"; "TB"].

(** The two variables of the loop of [formatBytes]. *)
Record Scaled := { size : float; unitIndex : nat }.

(** The [while] loop of [formatBytes], run for at most [fuel] divisions;
    [None] when the guard still holds after them. *)
Fixpoint formatBytes_loop (fuel : nat) (size : float) (unitIndex : nat)
  : option Scaled :=
  if ((1024 <=? size)%float && (unitIndex <? length units - 1)%nat)%bool
  then match fuel with
       | O => None
       | S fuel => formatBytes_loop fuel (size / 1024)%float (S unitIndex)
       end
  else Some {| size := size; unitIndex := unitIndex |}.

(** What [x.toFixed(1)] prints.  For a finite [x] of magnitude below
    [10^21] it is a sign, which is ["-"] when [x < 0], and the integer [n]
    for which [n / 10] is nearest to the magnitude of [x], the larger one
    when two are as near; the text is the decimal digits of [n] with a
    point before the last one.  For [NaN], the infinities and the
    magnitudes from [10^21] on it is the text of [String(x)]. *)
Inductive Fixed1 : Type :=
| Tenths (negative : bool) (n : Z)
| AsString (x : float).

(** [x.toFixed(1)], computed exactly: a finite double is [m * 2^e] with
    integers [m] and [e], up to its sign.  With [e < 0] its magnitude is
    below [2^53], so below [10^21], and the nearest [n] is the integer
    part of [10 * m / 2^-e + 1/2]. *)
Definition toFixed1 (x : float) : Fixed1 :=
  match Prim2SF x with
  | S754_zero _ => Tenths false 0
  | S754_finite s m e =>
      if (0 <=? e)%Z
      then if (10 ^ 21 <=? Z.pos m * 2 ^ e)%Z
           then AsString x
           else Tenths s (10 * (Z.pos m * 2 ^ e))
      else Tenths s ((20 * Z.pos m + 2 ^ (- e)) / (2 * 2 ^ (- e)))
  | _ => AsString x
  end.

(** What the text [formatBytes] returns is made of: [size.toFixed(1)] and
    [units[unitIndex]], which is [None] ([undefined]) when the index is
    outside the array. *)
Record ByteText := { shown_size : Fixed1; shown_unit : option string }.

Definition formatBytes (fuel : nat) (bytes : float) : option ByteText :=
  match formatBytes_loop fuel bytes 0 with
  | Some scaled =>
      Some {| shown_size := toFixed1 (size scaled);
              shown_unit := units !! unitIndex scaled |}
  | None => None
  end.

(** ** Badge classes *)

(** The two class tables are object literals with string values, read
    through their prototype chain like the cost tables. *)
Module JSText.

(** What a property read on a table of strings can produce: a string
    stored in the table itself, or a member inherited from
    [Object.prototype]. *)
Inductive value : Type :=
| Text (s : string)
| Inherited (name : string).

Definition get (own : gmap string string) (key : string) : option value :=
  match own !! key with
  | Some s => Some (Text s)
  | None =>
      if bool_decide (key ∈ JS.object_prototype_names)
      then Some (Inherited key)
      else None
  end.

(** [ToBoolean]: a string is falsy when it is empty. *)
Definition truthy (v : value) : bool :=
  match v with
  | Text EmptyString => false
  | Text _ => true
  | Inherited _ => true
  end.

(** [a || b] where [a] may be [undefined] and [b] is a string. *)
Definition or_else (a : option value) (b : string) : value :=
  match a with
  | Some v => if truthy v then v else Text b
  | None => Text b
  end.

End JSText.

(** The table of [getComplexityClass]. *)
Definition complexity_classes : gmap string string :=
  {[ "High" := "bg-red-100 text-red-800";
     "Medium" := "bg-yellow-100 text-yellow-800";
     "Low" := "bg-green-100 text-green-800" ]}.

(** [classes[level] || 'bg-gray-100 text-gray-800'] *)
Definition getComplexityClass (level : string) : JSText.value :=
  JSText.or_else (JSText.get complexity_classes level)
                 "bg-gray-100 text-gray-800".

(** The table of [getRiskClass]. *)
Definition risk_classes : gmap string string :=
  {[ "High" := "text-red-600 font-medium";
     "Medium" := "text-yellow-600 font-medium";
     "Low" := "text-green-600 font-medium" ]}.

(** [classes[level] || 'text-gray-600'] *)
Definition getRiskClass (level : string) : JSText.value :=
  JSText.or_else (JSText.get risk_classes level) "text-gray-600".

(** ** Servers with one input changed *)

Definition with_storage_total (t : float) (server : Server) : Server :=
  let data := serverData server in
  let m := metrics data in
  {| serverData :=
       {| serverId := serverId data;
          serverName := serverName data;
          applications := applications data;
          metrics :=
            {| cpu := cpu m;
               memory := memory m;
               storage := {| total := t; used := used (storage m) |} |};
          networkUtilization := networkUtilization data |};
     migrationStrategy := migrationStrategy server;
     complexity := complexity server |}.

Definition with_network (n : NetworkUtilization) (server : Server) : Server :=
  let data := serverData server in
  {| serverData :=
       {| serverId := serverId data;
          serverName := serverName data;
          applications := applications data;
          metrics := metrics data;
          networkUtilization := n |};
     migrationStrategy := migrationStrategy server;
     complexity := complexity server |}.

(** The amounts a migration cost can take, by strategy and level. *)
Definition migration_cost_values : list float :=
  [ 500000; 600000; 750000; 1000000; 1200000; 1500000;
    2000000; 2400000; 3000000 ]%float.

(** The last server of the list that carries the id. *)
Definition last_with_id (id : string) (servers : list Server) : option Server :=
  last (filter (fun server => serverId (serverData server) = id) servers).

(** ** Server cards and the cost chart *)

(** The card of a server: the server, whose name, id, level, resources,
    applications, strategy and services it prints, the breakdown read
    for it, and the monthly savings computed for the card. *)
Record ServerCard := {
  card_server : Server;
  card_costs : CostBreakdown;
  card_monthlySavings : float
}.

(** The cards [displayServerAnalysis] renders, one per server.
    [costData.serverCosts[id]] is followed at the ids the aggregation
    wrote.  The result is [None] when an id is read that was not written:
    what the page shows then depends on the members the object inherits,
    and is not followed. *)
Definition displayServerAnalysis
  (servers : list Server) (costData : PortfolioCostSummary)
  : option (list ServerCard) :=
  mapM (fun server =>
          match serverCosts costData !! serverId (serverData server) with
          | Some costs =>
              Some {| card_server := server;
                      card_costs := costs;
                      card_monthlySavings :=
                        (currentMonthlyCost costs
                         - projectedMonthlyCost costs)%float |}
          | None => None
          end) servers.

(** An entry of [chartData] and a trace of the chart. *)
Record ChartRow := {
  row_name : string;
  row_current : float;
  row_projected : float;
  row_migration : float
}.

Record Trace := {
  trace_x : list string;
  trace_y : list float;
  trace_name : string;
  trace_type : string;
  marker_color : string
}.

(** The traces [createCostChart] hands to [Plotly.newPlot], with the
    same convention for the reads of [costData.serverCosts].  The layout
    handed with them is a constant of the script. *)
Definition createCostChart
  (servers : list Server) (costData : PortfolioCostSummary)
  : option (list Trace) :=
  match
    mapM (fun server =>
            match serverCosts costData !! serverId (serverData server) with
            | Some costs =>
                Some {| row_name := serverName (serverData server);
                        row_current := currentMonthlyCost costs;
                        row_projected := projectedMonthlyCost costs;
                        row_migration := migrationCost costs |}
            | None => None
            end) servers
  with
  | Some chartData =>
      Some [ {| trace_x := map row_name chartData;
                trace_y := map row_current chartData;
                trace_name := "Current Monthly";
                trace_type := "bar";
                marker_color := "#60A5FA" |};
             {| trace_x := map row_name chartData;
                trace_y := map row_projected chartData;
                trace_name := "Projected Monthly";
                trace_type := "bar";
                marker_color := "#34D399" |};
             {| trace_x := map row_name chartData;
                trace_y := map row_migration chartData;
                trace_name := "Migration Cost";
                trace_type := "bar";
                marker_color := "#F87171" |} ]
  | None => None
  end.

(** The server whose breakdown the mapping of the summary of [servers]
    holds at the id of [server]: the last one carrying this id. *)
Definition shown_for (servers : list Server) (server : Server) : Server :=
  default server (last_with_id (serverId (serverData server)) servers).

(** The card and the chart row of a server of a processed portfolio. *)
Definition card_for (servers : list Server) (server : Server) : ServerCard :=
  let costs := calculateServerCosts (shown_for servers server) in
  {| card_server := server;
     card_costs := costs;
     card_monthlySavings :=
       (currentMonthlyCost costs - projectedMonthlyCost costs)%float |}.

Definition row_for (servers : list Server) (server : Server) : ChartRow :=
  let costs := calculateServerCosts (shown_for servers server) in
  {| row_name := serverName (serverData server);
     row_current := currentMonthlyCost costs;
     row_projected := projectedMonthlyCost costs;
     row_migration := migrationCost costs |}.

(** The traces of the chart of a processed portfolio. *)
Definition chart_for (servers : list Server) : list Trace :=
  let chartData := map (row_for servers) servers in
  [ {| trace_x := map row_name chartData;
       trace_y := map row_current chartData;
       trace_name := "Current Monthly";
       trace_type := "bar";
       marker_color := "#60A5FA" |};
    {| trace_x := map row_name chartData;
       trace_y := map row_projected chartData;
       trace_name := "Projected Monthly";
       trace_type := "bar";
       marker_color := "#34D399" |};
    {| trace_x := map row_name chartData;
       trace_y := map row_migration chartData;
       trace_name := "Migration Cost";
       trace_type := "bar";
       marker_color := "#F87171" |} ].

(** ** The page *)

Module Dom.

(** The text of the error panel: a literal of the script, or the
    [message] of an error that was thrown. *)
Inductive MessageText : Type :=
| Literal (text : string)
| MessageOf (e : JS.error).

(** What the script writes into an element, kept as the data the text
    or the markup is made of. *)
Inductive Content : Type :=
| Count (n : nat)
| Formatted (x : float)
| Rupees (x : float)
| Months (x : float)
| Message (text : MessageText)
| Cards (cards : list ServerCard)
| Chart (traces : list Trace)
| Summary (figures : CostSummary) (breakEven : float)
| RoadmapHtml (view : RoadmapView).

(** The state of the page the script acts on: the ids of the elements
    that carry the class [hidden], and what was last written into each
    element.  The elements the script names are taken to exist, and
    [Plotly.newPlot], which the chart is handed to, to return. *)
Record Page := { hidden : gset string; content : gmap string Content }.

Definition add_hidden (id : string) (page : Page) : Page :=
  {| hidden := hidden page ∪ {[ id ]}; content := content page |}.

Definition remove_hidden (id : string) (page : Page) : Page :=
  {| hidden := hidden page ∖ {[ id ]}; content := content page |}.

Definition write (id : string) (c : Content) (page : Page) : Page :=
  {| hidden := hidden page; content := <[ id := c ]> (content page) |}.

Definition showLoading : Page -> Page := remove_hidden "loading".
Definition hideLoading : Page -> Page := add_hidden "loading".

Definition showError (message : MessageText) (page : Page) : Page :=
  write "errorMessage" (Message message) (remove_hidden "error" page).

Definition hideError (page : Page) : Page :=
  write "errorMessage" (Message (Literal EmptyString))
        (add_hidden "error" page).

Definition showResults : Page -> Page := remove_hidden "results".
Definition hideResults : Page -> Page := add_hidden "results".

(** The payload of [/analyze], with the fields the script reads. *)
Record Payload := { servers : list Server; roadmap : option Roadmap }.

(** The display functions as they act on the page.  Each writes what the
    function of the same name above computes; [None] is a read of
    [costData.serverCosts] that is not followed. *)
Definition displayServerAnalysis
  (servers : list Server) (costData : PortfolioCostSummary) (page : Page)
  : option Page :=
  match displayServerAnalysis servers costData with
  | Some cards => Some (write "serverAnalysis" (Cards cards) page)
  | None => None
  end.

Definition displayCostAnalysis
  (servers : list Server) (costData : PortfolioCostSummary) (page : Page)
  : option Page :=
  let page := write "monthlyCloudCost" (Rupees (monthlyCloudCost costData))
                    page in
  let page := write "totalMigrationCost"
                    (Rupees (totalMigrationCost costData)) page in
  let page := write "roiTimeline" (Months (roiMonths costData)) page in
  match createCostChart servers costData with
  | Some traces =>
      let page := write "costChart" (Chart traces) page in
      Some (write "costSummary"
                  (Summary (displayCostAnalysis costData) (roiMonths costData))
                  page)
  | None => None
  end.

Definition displayMigrationRoadmap (roadmap : option Roadmap) (page : Page)
  : Page * JS.completion unit :=
  match displayMigrationRoadmap roadmap with
  | JS.Return view => (write "roadmap" (RoadmapHtml view) page, JS.Return tt)
  | JS.Throw e => (page, JS.Throw e)
  end.

Definition displayResults (data : Payload) (page : Page)
  : option (Page * JS.completion unit) :=
  let page := showResults page in
  let serverCount := length (servers data) in
  let averageComplexity := averageComplexity (servers data) in
  let page := write "totalServers" (Count serverCount) page in
  let page := write "avgComplexity"
                    (Formatted (averageComplexity / 100 * 15)%float) page in
  let costData := processServerCosts (servers data) in
  match displayServerAnalysis (servers data) costData page with
  | Some page =>
      match displayCostAnalysis (servers data) costData page with
      | Some page =>
          match displayMigrationRoadmap (roadmap data) page with
          | (page, JS.Return _) =>
              Some (write "totalCost" (Rupees (totalMigrationCost costData))
                          page,
                    JS.Return tt)
          | (page, JS.Throw e) => Some (page, JS.Throw e)
          end
      | None => None
      end
  | None => None
  end.

(** What a submission meets: whether a file is selected, and what the
    request to [/analyze] gives when it settles: a rejection of [fetch]
    or of [response.json()] with an error of some message, a response
    that is not [ok], or a payload.  A request that does not settle is
    not among them: see [Request] below. *)
Inductive Fetched : Type :=
| Rejected (message : string)
| NotOk
| Json (data : Payload).

Record Submission := { file_selected : bool; fetched : Fetched }.

(** The page as the [try] block leaves it when it reaches
    [await fetch(...)]. *)
Definition before_request (page : Page) : Page :=
  hideResults (hideError (showLoading page)).

(** The [try] block of the handler once the request has settled: the
    page it leaves, and the message of the error it threw, if any. *)
Definition try_block (fetched : Fetched) (page : Page)
  : option (Page * option MessageText) :=
  let page := before_request page in
  match fetched with
  | Rejected message => Some (page, Some (Literal message))
  | NotOk => Some (page, Some (Literal "Analysis failed"))
  | Json data =>
      match displayResults data page with
      | Some (page, JS.Return _) => Some (page, None)
      | Some (page, JS.Throw e) => Some (page, Some (MessageOf e))
      | None => None
      end
  end.

(** The submit handler, one submission run to its end: the request, if
    one is made, has settled. *)
Definition submit (s : Submission) (page : Page) : option Page :=
  if negb (file_selected s)
  then Some (showError (Literal "Please select a file to upload") page)
  else
    match try_block (fetched s) page with
    | Some (page, Some message) => Some (hideLoading (showError message page))
    | Some (page, None) => Some (hideLoading page)
    | None => None
    end.

(** The handler awaits [fetch(...)] and [response.json()] with no timeout:
    it goes on only when they settle.  A request either never settles or
    settles with one of the outcomes of [Fetched]. *)
Inductive Request : Type :=
| NeverSettles
| Settles (fetched : Fetched).

(** How far a run of the handler gets: it stays suspended at an [await],
    the page as it was left there, or it ends, [finally] included. *)
Inductive Run : Type :=
| Suspended (page : Page)
| Ended (page : Page).

(** The submit handler, whether the request settles or not.  Without a
    file the handler returns before any request is made. *)
Definition on_submit (file_selected : bool) (request : Request) (page : Page)
  : option Run :=
  if negb file_selected
  then Some (Ended (showError (Literal "Please select a file to upload")
                              page))
  else
    match request with
    | NeverSettles => Some (Suspended (before_request page))
    | Settles fetched =>
        match try_block fetched page with
        | Some (page, Some message) =>
            Some (Ended (hideLoading (showError message page)))
        | Some (page, None) => Some (Ended (hideLoading page))
        | None => None
        end
    end.

End Dom.

(** The page [displayResults] has written when it reaches the
    roadmap. *)
Definition before_roadmap (data : Dom.Payload) (page : Dom.Page)
  : Dom.Page :=
  let costData := processServerCosts (Dom.servers data) in
  Dom.write "costSummary"
    (Dom.Summary (displayCostAnalysis costData) (roiMonths costData))
    (Dom.write "costChart" (Dom.Chart (chart_for (Dom.servers data)))
       (Dom.write "roiTimeline" (Dom.Months (roiMonths costData))
          (Dom.write "totalMigrationCost"
             (Dom.Rupees (totalMigrationCost costData))
             (Dom.write "monthlyCloudCost"
                (Dom.Rupees (monthlyCloudCost costData))
                (Dom.write "serverAnalysis"
                   (Dom.Cards (map (card_for (Dom.servers data))
                                   (Dom.servers data)))
                   (Dom.write "avgComplexity"
                      (Dom.Formatted
                         (averageComplexity (Dom.servers data)
                          / 100 * 15)%float)
                      (Dom.write "totalServers"
                         (Dom.Count (length (Dom.servers data)))
                         (Dom.showResults page)))))))).

(** * Binary64 rounding is monotone

    The operations of [SpecFloat] at precision 53 and maximal exponent
    1024, to which [FloatAxioms] relates the primitive operations, round
    the exact result to nearest, ties to even.  This module shows that
    they are monotone, which the claims about costs never decreasing and
    savings never being negative rest on. *)

Module Binary64.
Local Open Scope Z_scope.

(** ** Powers of two and bit lengths *)

Lemma pow2_pos k : 0 <= k -> 0 < 2 ^ k.
Proof. intros. apply Z.pow_pos_nonneg; lia. Qed.

Lemma pow2_le a b : 0 <= a <= b -> 2 ^ a <= 2 ^ b.
Proof. intros. apply Z.pow_le_mono_r; lia. Qed.

Lemma pow2_split a b : 0 <= a <= b -> 2 ^ b = 2 ^ a * 2 ^ (b - a).
Proof. intros. rewrite <- Z.pow_add_r by lia. f_equal. lia. Qed.

(** An inequality between two scaled integers may be rescaled. *)
Lemma scale_le a b p q p' q' :
  0 <= p -> 0 <= q -> 0 <= p' -> 0 <= q' -> p - q = p' - q' ->
  a * 2 ^ p <= b * 2 ^ q -> a * 2 ^ p' <= b * 2 ^ q'.
Proof.
  intros Hp Hq Hp' Hq' Hd H.
  destruct (Z_le_gt_dec p p') as [L|G].
  - rewrite (pow2_split p p'), (pow2_split q q') by lia.
    replace (q' - q) with (p' - p) by lia.
    pose proof (pow2_pos (p' - p) ltac:(lia)).
    generalize dependent (2 ^ (p' - p)). generalize dependent (2 ^ p).
    generalize dependent (2 ^ q). intros. nia.
  - rewrite (pow2_split p' p), (pow2_split q' q) in H by lia.
    replace (q - q') with (p - p') in H by lia.
    pose proof (pow2_pos (p - p') ltac:(lia)).
    generalize dependent (2 ^ (p - p')). generalize dependent (2 ^ p').
    generalize dependent (2 ^ q'). intros. nia.
Qed.

Lemma compare_mul_r a b k : 0 < k -> (a * k ?= b * k) = (a ?= b).
Proof.
  intros Hk. destruct (Z.compare_spec a b).
  - apply Z.compare_eq_iff. nia.
  - apply Z.compare_lt_iff. nia.
  - apply Z.compare_gt_iff. nia.
Qed.

(** [digits2_pos p] is the bit length of [p]. *)
Lemma digits_bounds p :
  2 ^ (Z.pos (digits2_pos p) - 1) <= Z.pos p < 2 ^ Z.pos (digits2_pos p).
Proof.
  induction p as [p IH|p IH|]; cbn [digits2_pos]; [| |cbn; lia];
    rewrite Pos2Z.inj_succ;
    replace (Z.succ (Z.pos (digits2_pos p)) - 1)
      with (Z.succ (Z.pos (digits2_pos p) - 1)) by lia;
    rewrite !Z.pow_succ_r by lia; lia.
Qed.

Lemma Zdigits2_bounds m :
  0 < m -> 2 ^ (Zdigits2 m - 1) <= m < 2 ^ Zdigits2 m.
Proof. destruct m; [lia| |lia]. intros _. apply digits_bounds. Qed.

Lemma Zdigits2_pos m : 0 < m -> 0 < Zdigits2 m.
Proof. destruct m; cbn; lia. Qed.

Lemma Zdigits2_unique m d :
  0 < d -> 2 ^ (d - 1) <= m < 2 ^ d -> Zdigits2 m = d.
Proof.
  intros Hd [Hl Hu].
  assert (Hm : 0 < m) by (pose proof (pow2_pos (d - 1)); lia).
  pose proof (Zdigits2_bounds m Hm) as [Hl' Hu'].
  pose proof (Zdigits2_pos m Hm).
  destruct (Z.lt_trichotomy (Zdigits2 m) d) as [H1|[H1|H1]]; [|assumption|].
  - pose proof (pow2_le (Zdigits2 m) (d - 1)). lia.
  - pose proof (pow2_le d (Zdigits2 m - 1)). lia.
Qed.

Lemma Zdigits2_upper m : 0 <= m -> m + 1 <= 2 ^ Zdigits2 m.
Proof.
  intros Hm. destruct (Z.eq_dec m 0) as [->|]; [cbn; lia|].
  pose proof (Zdigits2_bounds m ltac:(lia)). lia.
Qed.

Lemma Zdigits2_ge m k : 0 <= k -> 2 ^ k <= m -> k + 1 <= Zdigits2 m.
Proof.
  intros Hk Hm. pose proof (pow2_pos k Hk).
  pose proof (Zdigits2_bounds m ltac:(lia)) as [_ Hu].
  pose proof (Zdigits2_pos m ltac:(lia)).
  destruct (Z_le_gt_dec (k + 1) (Zdigits2 m)); [assumption|].
  pose proof (pow2_le (Zdigits2 m) k ltac:(lia)). lia.
Qed.

Lemma iter_xO m d : Z.pos (Pos.iter xO m d) = Z.pos m * 2 ^ Z.pos d.
Proof.
  induction d as [|d IH] using Pos.peano_ind.
  - cbn [Pos.iter]. rewrite Z.pow_1_r. lia.
  - rewrite Pos.iter_succ, Pos2Z.inj_xO, IH, Pos2Z.inj_succ, Z.pow_succ_r
      by lia.
    ring.
Qed.

(** ** Valid floats and their value *)

(** The exponent of the format for a number of magnitude [2^e]. *)
Abbreviation fexp := (SpecFloat.fexp prec emax).

Lemma fexp_eq e : fexp e = Z.max (e - 53) (-1074).
Proof. reflexivity. Qed.

(** The floats of the format: canonical mantissa, exponent in range. *)
Definition valid (f : spec_float) : Prop := valid_binary f = true.

(** A finite valid float has a mantissa below [2^53], and of exactly 53
    bits unless its exponent is the smallest one. *)
Lemma valid_finite s m e :
  valid (S754_finite s m e) ->
  -1074 <= e <= 971 /\ Z.pos m < 2 ^ 53 /\ (e = -1074 \/ 2 ^ 52 <= Z.pos m).
Proof.
  unfold valid, valid_binary, bounded, canonical_mantissa.
  rewrite andb_true_iff, Z.eqb_eq, Z.leb_le, fexp_eq.
  change (emax - prec) with 971. intros [Hc He].
  pose proof (digits_bounds m) as [Hl Hu].
  assert (Hd : Z.pos (digits2_pos m) <= 53) by lia.
  split; [lia|]. split.
  - pose proof (pow2_le (Z.pos (digits2_pos m)) 53). lia.
  - destruct (Z.eq_dec e (-1074)); [left; assumption|right].
    assert (Z.pos (digits2_pos m) = 53) as Hd' by lia.
    rewrite Hd' in Hl. exact Hl.
Qed.

(** The value of a float as an integer multiple of [2^-1074], the
    smallest positive double.  An infinity stands at [2^2098], above every
    finite value, which is below [2^53 * 2^(971 + 1074)]. *)
Definition top : Z := 2 ^ 2098.

Definition ival (f : spec_float) : Z :=
  match f with
  | S754_zero _ => 0
  | S754_infinity s => if s then - top else top
  | S754_nan => 0
  | S754_finite s m e =>
      if s then - (Z.pos m * 2 ^ (e + 1074)) else Z.pos m * 2 ^ (e + 1074)
  end.

Lemma top_pos : 0 < top.
Proof. apply pow2_pos. lia. Qed.

Lemma finite_below_top m e :
  e <= 971 -> m < 2 ^ 53 -> 0 <= e + 1074 -> m * 2 ^ (e + 1074) < top.
Proof.
  intros He Hm H0. unfold top.
  replace 2098 with (53 + 2045) by reflexivity.
  rewrite (Z.pow_add_r 2 53 2045) by lia.
  pose proof (pow2_le (e + 1074) 2045 ltac:(lia)).
  pose proof (pow2_pos (e + 1074) H0).
  pose proof (pow2_pos 53 ltac:(lia)). nia.
Qed.

Lemma ival_finite_pos s m e : valid (S754_finite s m e) ->
  0 < Z.pos m * 2 ^ (e + 1074) < top.
Proof.
  intros H. apply valid_finite in H as (He & Hm & _). split.
  - pose proof (pow2_pos (e + 1074) ltac:(lia)). nia.
  - apply finite_below_top; lia.
Qed.

Ltac finite_facts :=
  repeat match goal with
  | H : valid (S754_finite ?s ?m ?e) |- _ =>
      lazymatch goal with
      | _ : 0 < Z.pos m * 2 ^ (e + 1074) < top |- _ => fail
      | _ => pose proof (ival_finite_pos s m e H)
      end
  end.

(** Among valid floats the exponent decides first. *)
Lemma canonical_lt s1 m1 e1 s2 m2 e2 :
  valid (S754_finite s1 m1 e1) -> valid (S754_finite s2 m2 e2) ->
  e1 < e2 ->
  Z.pos m1 * 2 ^ (e1 + 1074) < Z.pos m2 * 2 ^ (e2 + 1074).
Proof.
  intros H1 H2 He.
  apply valid_finite in H1 as (He1 & Hm1 & _).
  apply valid_finite in H2 as (He2 & _ & [Hm2|Hm2]); [lia|].
  rewrite (pow2_split (e1 + 1074) (e2 + 1074)) by lia.
  replace (e2 + 1074 - (e1 + 1074)) with (Z.succ (e2 - e1 - 1)) by lia.
  rewrite Z.pow_succ_r by lia.
  pose proof (pow2_pos (e1 + 1074) ltac:(lia)) as HA.
  pose proof (pow2_pos (e2 - e1 - 1) ltac:(lia)) as HB.
  change (2 ^ 53) with (2 * 2 ^ 52) in Hm1.
  generalize dependent (2 ^ (e1 + 1074)).
  generalize dependent (2 ^ (e2 - e1 - 1)).
  generalize dependent (2 ^ 52). intros K Hm1 Hm2 B HB A HA.
  clear -Hm1 Hm2 HB HA.
  assert (Z.pos m1 * A < 2 * K * A) by nia.
  assert (K * A <= Z.pos m2 * A) by nia.
  assert (0 < Z.pos m2 * A) by nia.
  assert (Z.pos m2 * A * 1 <= Z.pos m2 * A * B)
    by (apply Z.mul_le_mono_nonneg_l; lia).
  nia.
Qed.

(** [SFcompare] compares the values. *)
Lemma compare_ival f g :
  valid f -> valid g -> f <> S754_nan -> g <> S754_nan ->
  SFcompare f g = Some (ival f ?= ival g).
Proof.
  intros Hf Hg Nf Ng. pose proof top_pos as Ht.
  destruct f as [sf|sf| |sf mf ef], g as [sg|sg| |sg mg eg];
    try congruence; cbn [SFcompare ival];
    try pose proof (ival_finite_pos _ _ _ Hf) as Pf;
    try pose proof (ival_finite_pos _ _ _ Hg) as Pg;
    try (f_equal; symmetry;
         repeat match goal with
                | |- context [if ?b then _ else _] => destruct b
                end;
         first [ apply Z.compare_eq_iff; lia
               | apply Z.compare_lt_iff; lia
               | apply Z.compare_gt_iff; lia ]).
  f_equal. destruct sf, sg;
    try (symmetry; first [ apply Z.compare_lt_iff; lia
                         | apply Z.compare_gt_iff; lia ]).
  - rewrite Z.compare_opp.
    destruct (Z.compare_spec ef eg) as [E|E|E].
    + subst eg. change (Pos.compare_cont Eq mf mg) with (mf ?= mg)%positive.
      rewrite compare_mul_r by lia.
      rewrite <- Pos2Z.inj_compare, Pos.compare_antisym.
      destruct (mg ?= mf)%positive; reflexivity.
    + symmetry. apply Z.compare_gt_iff.
      apply (canonical_lt _ _ _ _ _ _ Hf Hg E).
    + symmetry. apply Z.compare_lt_iff.
      apply (canonical_lt _ _ _ _ _ _ Hg Hf). lia.
  - destruct (Z.compare_spec ef eg) as [E|E|E].
    + subst eg. change (Pos.compare_cont Eq mf mg) with (mf ?= mg)%positive.
      rewrite compare_mul_r by lia.
      rewrite <- Pos2Z.inj_compare. reflexivity.
    + symmetry. apply Z.compare_lt_iff.
      apply (canonical_lt _ _ _ _ _ _ Hf Hg E).
    + symmetry. apply Z.compare_gt_iff.
      apply (canonical_lt _ _ _ _ _ _ Hg Hf). lia.
Qed.

(** [ord f g]: [f] is not above [g]; it holds as soon as one of them is
    [NaN]. *)
Definition ord (f g : spec_float) : Prop :=
  f = S754_nan \/ g = S754_nan \/ ival f <= ival g.

Lemma SFltb_false_ord f g :
  valid f -> valid g -> (SFltb g f = false <-> ord f g).
Proof.
  intros Hf Hg. unfold ord, SFltb.
  assert (Df : f = S754_nan \/ f <> S754_nan)
    by (destruct f; auto; right; discriminate).
  assert (Dg : g = S754_nan \/ g <> S754_nan)
    by (destruct g; auto; right; discriminate).
  destruct Df as [->|Nf]; [destruct g; cbn; tauto|].
  destruct Dg as [->|Ng]; [cbn; tauto|].
  rewrite (compare_ival g f Hg Hf Ng Nf).
  destruct (Z.compare_spec (ival g) (ival f)) as [C|C|C]; split; intros HH;
    try reflexivity; try discriminate; try (right; right; lia).
  destruct HH as [HH|[HH|HH]]; [contradiction|contradiction|lia].
Qed.

Lemma ord_refl f : ord f f.
Proof. right; right. lia. Qed.

(** Zero or a finite number. *)
Definition is_fin (f : spec_float) : bool :=
  match f with
  | S754_zero _ | S754_finite _ _ _ => true
  | _ => false
  end.

(** The four shapes of a float. *)
Lemma shape f :
  valid f ->
  f = S754_nan \/ (is_fin f = true /\ - top < ival f < top) \/
  f = S754_infinity false \/ f = S754_infinity true.
Proof.
  intros Hf. pose proof top_pos.
  destruct f as [s|[]| |s m e]; auto; right; left; (split; [reflexivity|]).
  all: cbn [ival]; try lia.
  pose proof (ival_finite_pos s m e Hf). destruct s; lia.
Qed.

(** ** Locating a quotient

    [SpecFloat] rounds a value it knows by a truncated mantissa and a
    location: whether the value is the mantissa exactly, or lies below,
    at or above the middle of the next unit.  The value is taken here as
    a quotient [N / D] of integers. *)

(** The location of the remainder [r] within a unit of [D]. *)
Definition loc_of (r D : Z) : location :=
  if r =? 0 then loc_Exact else loc_Inexact (2 * r ?= D).

(** The record holds the integer part and the location of [N / D]. *)
Definition located (N D : Z) (mrs : shr_record) : Prop :=
  shr_m mrs = N / D /\ loc_of_shr_record mrs = loc_of (N mod D) D.

Lemma loc_of_record_of_loc m l :
  loc_of_shr_record (shr_record_of_loc m l) = l /\
  shr_m (shr_record_of_loc m l) = m.
Proof. destruct l as [|[]]; split; reflexivity. Qed.

Lemma exact_located N : located N 1 (shr_record_of_loc N loc_Exact).
Proof.
  split; cbn [shr_record_of_loc shr_m loc_of_shr_record].
  - rewrite Z.div_1_r. reflexivity.
  - rewrite Z.mod_1_r. reflexivity.
Qed.

(** The location computed by the division is [loc_of]. *)
Lemma new_location_loc_of D r :
  0 < D -> 0 <= r < D -> new_location D r = loc_of r D.
Proof.
  intros HD Hr.
  unfold new_location, new_location_even, new_location_odd, loc_of.
  destruct (Z.even D) eqn:Ev; [reflexivity|].
  destruct (Z.eqb_spec r 0); [reflexivity|]. f_equal.
  assert (Hodd : Z.odd D = true) by (rewrite <- Z.negb_even, Ev; reflexivity).
  apply Z.odd_spec in Hodd as [k Hk].
  destruct (Z.compare_spec (2 * r + 1) D); destruct (Z.compare_spec (2 * r) D);
    try reflexivity; lia.
Qed.

(** One shift to the right. *)
Lemma shr_1_nonneg m r s :
  0 <= m ->
  shr_1 {| shr_m := m; shr_r := r; shr_s := s |} =
  {| shr_m := m / 2; shr_r := Z.odd m; shr_s := r || s |}.
Proof.
  intros Hm. destruct m as [|p|p]; [reflexivity| |lia].
  destruct p as [p|p|]; cbn [shr_1 Z.odd]; [| |reflexivity].
  - replace (Z.pos p~1 / 2) with (Z.pos p); [reflexivity|].
    rewrite Pos2Z.inj_xI. apply Z.div_unique with 1; lia.
  - replace (Z.pos p~0 / 2) with (Z.pos p); [reflexivity|].
    rewrite Pos2Z.inj_xO. apply Z.div_unique with 0; lia.
Qed.

(** Shifting right by one bit halves the quotient and keeps the
    location right. *)
Lemma shr_1_located N D mrs :
  0 <= N -> 0 < D -> located N D mrs -> located N (2 * D) (shr_1 mrs).
Proof.
  intros HN HD [Hm Hl]. destruct mrs as [m r s]. cbn [shr_m] in Hm.
  assert (Hm0 : 0 <= m) by (subst m; apply Z.div_pos; lia).
  rewrite shr_1_nonneg by assumption.
  pose proof (Z.div_mod N D ltac:(lia)) as HND.
  pose proof (Z.mod_pos_bound N D HD) as Hrho.
  rewrite <- Hm in HND.
  set (rho := N mod D) in *.
  pose proof (Z.div_mod m 2 ltac:(lia)) as Hm2.
  pose proof (Z.mod_pos_bound m 2 ltac:(lia)) as Hb.
  assert (Hq : N / (2 * D) = m / 2).
  { symmetry. apply Z.div_unique with (D * (m mod 2) + rho); nia. }
  assert (Hr : N mod (2 * D) = D * (m mod 2) + rho).
  { symmetry. apply Z.mod_unique with (m / 2); nia. }
  split; cbn [shr_m]; [congruence|].
  rewrite Hr. rewrite Zmod_odd in *. unfold loc_of in *.
  destruct (Z.odd m); cbn [loc_of_shr_record] in *.
  - destruct (Z.eqb_spec (D * 1 + rho) 0); [lia|].
    destruct (Z.eqb_spec rho 0) as [E|E].
    + destruct r, s; try discriminate. cbn.
      f_equal. symmetry. apply Z.compare_eq_iff. lia.
    + assert (r || s = true) as ->
        by (destruct r, s; try discriminate; reflexivity).
      f_equal. symmetry. apply Z.compare_gt_iff. lia.
  - replace (D * 0 + rho) with rho by lia.
    destruct (Z.eqb_spec rho 0) as [E|E].
    + destruct r, s; try discriminate. reflexivity.
    + assert (r || s = true) as ->
        by (destruct r, s; try discriminate; reflexivity).
      f_equal. symmetry. apply Z.compare_lt_iff. lia.
Qed.

Lemma iter_pos_located N p : forall D mrs,
  0 <= N -> 0 < D -> located N D mrs ->
  located N (D * 2 ^ Z.pos p) (SpecFloat.iter_pos shr_1 p mrs).
Proof.
  induction p as [p IH|p IH|]; intros D mrs HN HD H; cbn [SpecFloat.iter_pos].
  - apply shr_1_located in H; [|assumption..].
    apply IH in H; [|lia..]. apply IH in H; [|lia..].
    replace (D * 2 ^ Z.pos p~1) with (2 * D * 2 ^ Z.pos p * 2 ^ Z.pos p);
      [assumption|].
    replace (Z.pos p~1) with (Z.pos p + Z.pos p + 1) by lia.
    rewrite !Z.pow_add_r, Z.pow_1_r by lia. ring.
  - apply IH in H; [|lia..]. apply IH in H; [|lia..].
    replace (D * 2 ^ Z.pos p~0) with (D * 2 ^ Z.pos p * 2 ^ Z.pos p);
      [assumption|].
    replace (Z.pos p~0) with (Z.pos p + Z.pos p) by lia.
    rewrite !Z.pow_add_r by lia. ring.
  - apply shr_1_located in H; [|assumption..].
    replace (D * 2 ^ 1) with (2 * D) by (rewrite Z.pow_1_r; ring). assumption.
Qed.

Lemma shr_fexp_located N D m e l :
  0 <= N -> 0 < D -> located N D (shr_record_of_loc m l) ->
  e <= fexp (Zdigits2 m + e) ->
  located N (D * 2 ^ (fexp (Zdigits2 m + e) - e))
    (fst (shr_fexp prec emax m e l)) /\
  snd (shr_fexp prec emax m e l) = fexp (Zdigits2 m + e).
Proof.
  intros HN HD Hloc He. unfold shr_fexp, shr.
  destruct (fexp (Zdigits2 m + e) - e) as [|p|p] eqn:En; cbn [fst snd].
  - rewrite Z.pow_0_r, Z.mul_1_r. split; [assumption|lia].
  - split; [|lia]. apply iter_pos_located; assumption.
  - lia.
Qed.

(** ** The rounded value *)

(** The last step of [binary_round_aux]: renormalise the rounded
    mantissa and detect overflow. *)
Definition finish (s : bool) (r E : Z) : spec_float :=
  let '(mrs, e) := shr_fexp prec emax r E loc_Exact in
  match shr_m mrs with
  | Z0 => S754_zero s
  | Z.pos m => if e <=? emax - prec then S754_finite s m e else S754_infinity s
  | Z.neg _ => S754_nan
  end.

Lemma binary_round_aux_finish s m e l :
  binary_round_aux prec emax s m e l =
  finish s (round_nearest_even (shr_m (fst (shr_fexp prec emax m e l)))
              (loc_of_shr_record (fst (shr_fexp prec emax m e l))))
         (snd (shr_fexp prec emax m e l)).
Proof.
  unfold binary_round_aux, finish.
  destruct (shr_fexp prec emax m e l) as [mrs e']. reflexivity.
Qed.

Lemma round_nearest_even_bounds m l :
  m <= round_nearest_even m l <= m + 1.
Proof.
  unfold round_nearest_even. destruct l as [|[]]; try lia.
  destruct (Z.even m); lia.
Qed.

Lemma finish_small s r E :
  0 < r < 2 ^ 53 -> -1074 <= E ->
  finish s r E =
  if E <=? 971 then S754_finite s (Z.to_pos r) E else S754_infinity s.
Proof.
  intros Hr HE. unfold finish, shr_fexp, shr.
  pose proof (Zdigits2_bounds r ltac:(lia)) as [Hl Hu].
  pose proof (Zdigits2_pos r ltac:(lia)) as Hd.
  assert (Zdigits2 r <= 53).
  { destruct (Z_le_gt_dec (Zdigits2 r) 53); [assumption|].
    pose proof (pow2_le 53 (Zdigits2 r - 1)). lia. }
  rewrite fexp_eq.
  destruct (Z.max (Zdigits2 r + E - 53) (-1074) - E) as [|p|p] eqn:En; try lia;
    destruct r; try lia; reflexivity.
Qed.

Lemma finish_carry s E :
  -1074 <= E ->
  finish s (2 ^ 53) E =
  if E + 1 <=? 971 then S754_finite s (Z.to_pos (2 ^ 52)) (E + 1)
  else S754_infinity s.
Proof.
  intros HE. unfold finish, shr_fexp, shr.
  change (Zdigits2 (2 ^ 53)) with 54. rewrite fexp_eq.
  replace (Z.max (54 + E - 53) (-1074) - E) with 1 by lia.
  reflexivity.
Qed.

Lemma finish_zero s E : -1074 <= E -> finish s 0 E = S754_zero s.
Proof.
  intros HE. unfold finish, shr_fexp, shr. cbn [Zdigits2]. rewrite fexp_eq.
  destruct (Z.max (0 + E - 53) (-1074) - E) as [|p|p] eqn:En; try reflexivity.
  cbn [shr_record_of_loc].
  assert (forall q,
             SpecFloat.iter_pos shr_1 q
               {| shr_m := 0; shr_r := false; shr_s := false |}
             = {| shr_m := 0; shr_r := false; shr_s := false |}) as ->;
    [|reflexivity].
  induction q as [q IHq|q IHq|]; cbn [SpecFloat.iter_pos shr_1 orb];
    rewrite ?IHq; reflexivity.
Qed.

(** The value of the finished float, clipped at [top] on overflow. *)
Lemma ival_finish s r E :
  0 <= r <= 2 ^ 53 -> -1074 <= E -> (E = -1074 \/ 2 ^ 52 <= r) ->
  finish s r E <> S754_nan /\
  ival (finish s r E) =
  if s then - Z.min (r * 2 ^ (E + 1074)) top
  else Z.min (r * 2 ^ (E + 1074)) top.
Proof.
  intros Hr HE Hc. pose proof top_pos as Ht.
  pose proof (pow2_pos (E + 1074) ltac:(lia)) as HP.
  destruct (Z.eq_dec r 0) as [->|Hr0].
  { rewrite finish_zero by assumption. split; [discriminate|].
    cbn [ival]. rewrite Z.mul_0_l, Z.min_l by lia. destruct s; reflexivity. }
  destruct (Z.eq_dec r (2 ^ 53)) as [->|Hr1].
  { rewrite finish_carry by assumption.
    assert (Hv : 2 ^ 53 * 2 ^ (E + 1074) = 2 ^ 52 * 2 ^ (E + 1 + 1074)).
    { replace (E + 1 + 1074) with (Z.succ (E + 1074)) by lia.
      rewrite Z.pow_succ_r by lia. change (2 ^ 53) with (2 * 2 ^ 52). ring. }
    rewrite Hv.
    destruct (Z.leb_spec (E + 1) 971) as [Hle|Hgt].
    - split; [discriminate|]. cbn [ival].
      rewrite Z2Pos.id by (apply pow2_pos; lia).
      rewrite Z.min_l; [reflexivity|].
      apply Z.lt_le_incl, finite_below_top; lia.
    - split; [discriminate|]. cbn [ival].
      rewrite Z.min_r; [reflexivity|]. unfold top.
      rewrite <- Z.pow_add_r by lia. apply pow2_le. lia. }
  rewrite finish_small by lia.
  destruct (Z.leb_spec E 971) as [Hle|Hgt].
  - split; [discriminate|]. cbn [ival]. rewrite Z2Pos.id by lia.
    rewrite Z.min_l; [reflexivity|].
    apply Z.lt_le_incl, finite_below_top; lia.
  - split; [discriminate|]. cbn [ival].
    rewrite Z.min_r; [reflexivity|].
    destruct Hc as [Hc|Hc]; [lia|].
    assert (top = 2 ^ 52 * 2 ^ 2046) as -> by reflexivity.
    pose proof (pow2_le 2046 (E + 1074) ltac:(lia)).
    pose proof (pow2_pos 2046 ltac:(lia)).
    generalize dependent (2 ^ 52). generalize dependent (2 ^ 2046).
    generalize dependent (2 ^ (E + 1074)). intros. nia.
Qed.

(** Round to nearest, ties to even, of the quotient [N / A]. *)
Definition rne (N A : Z) : Z :=
  round_nearest_even (N / A) (loc_of (N mod A) A).

Lemma rne_bounds N A : N / A <= rne N A <= N / A + 1.
Proof. apply round_nearest_even_bounds. Qed.

Lemma rne_mono N A N' A' :
  0 <= N -> 0 < A -> 0 <= N' -> 0 < A' ->
  N * A' <= N' * A -> rne N A <= rne N' A'.
Proof.
  intros HN HA HN' HA' Hle.
  pose proof (Z.div_mod N A ltac:(lia)) as E.
  pose proof (Z.mod_pos_bound N A HA) as B.
  pose proof (Z.div_mod N' A' ltac:(lia)) as E'.
  pose proof (Z.mod_pos_bound N' A' HA') as B'.
  pose proof (rne_bounds N A) as R. pose proof (rne_bounds N' A') as R'.
  assert (Hq0 : 0 <= N / A) by (apply Z.div_pos; lia).
  assert (Hq : N / A <= N' / A').
  { destruct (Z_le_gt_dec (N / A) (N' / A')); [assumption|exfalso].
    assert (N' / A' + 1 <= N / A) by lia.
    assert (N' < A' * (N' / A' + 1)) by lia.
    assert (A' * (N' / A' + 1) * A <= A' * (N / A) * A) by nia.
    assert (A * (N / A) <= N) by lia.
    nia. }
  destruct (Z.eq_dec (N / A) (N' / A')) as [Heq|Hne]; [|lia].
  unfold rne in *. rewrite <- Heq in *.
  set (q := N / A) in *. set (r := N mod A) in *. set (r' := N' mod A') in *.
  assert (Hr : r * A' <= r' * A) by nia.
  clearbody q r r'. clear E E' Hle Hq Heq R R'.
  unfold round_nearest_even, loc_of.
  destruct (Z.eqb_spec r 0); destruct (Z.eqb_spec r' 0);
    try destruct (Z.compare_spec (2 * r) A);
    try destruct (Z.compare_spec (2 * r') A');
    try destruct (Z.even q); try lia; exfalso; nia.
Qed.

(** Rounding [N / D * 2^e]: the exponent of the result, the denominator
    at that exponent, the rounded mantissa, and the value of the result
    as a multiple of [2^-1074]. *)
Definition rexp (N D e : Z) : Z := fexp (Zdigits2 (N / D) + e).

Definition rden (N D e : Z) : Z := D * 2 ^ (rexp N D e - e).

Definition rmant (N D e : Z) : Z := rne N (rden N D e).

Definition rval (N D e : Z) : Z :=
  Z.min (rmant N D e * 2 ^ (rexp N D e + 1074)) top.

Lemma rexp_ge N D e : -1074 <= rexp N D e.
Proof. unfold rexp. rewrite fexp_eq. lia. Qed.

Lemma rden_pos N D e : 0 < D -> e <= rexp N D e -> 0 < rden N D e.
Proof.
  intros HD He. unfold rden.
  pose proof (pow2_pos (rexp N D e - e) ltac:(lia)). nia.
Qed.

Lemma rquot N D e :
  0 <= N -> 0 < D -> e <= rexp N D e ->
  N / rden N D e = N / D / 2 ^ (rexp N D e - e).
Proof.
  intros HN HD He. unfold rden.
  rewrite Z.div_div by (try apply pow2_pos; lia). reflexivity.
Qed.

(** The truncated mantissa fits in 53 bits, and has exactly 53 bits
    above the smallest exponent. *)
Lemma rquot_bounds N D e :
  0 <= N -> 0 < D -> e <= rexp N D e ->
  0 <= N / rden N D e < 2 ^ 53 /\
  (rexp N D e = -1074 \/ 2 ^ 52 <= N / rden N D e).
Proof.
  intros HN HD He. rewrite rquot by assumption.
  pose proof (rexp_ge N D e) as HE.
  unfold rexp in *. rewrite fexp_eq in *.
  assert (Hm : 0 <= N / D) by (apply Z.div_pos; lia).
  generalize dependent (N / D). intros m He HE Hm.
  remember (Z.max (Zdigits2 m + e - 53) (-1074)) as E eqn:HeqE.
  pose proof (pow2_pos (E - e) ltac:(lia)) as HP.
  destruct (Z.eq_dec m 0) as [Hm0|Hm0].
  { subst m. cbn [Zdigits2] in *. rewrite Z.div_0_l by lia.
    split; [split; [lia|apply pow2_pos; lia]|]. left. lia. }
  pose proof (Zdigits2_bounds m ltac:(lia)) as [Hl Hu].
  pose proof (Zdigits2_pos m ltac:(lia)) as Hd.
  split; [split|].
  - apply Z.div_pos; lia.
  - apply Z.div_lt_upper_bound; [lia|].
    rewrite Z.mul_comm, <- Z.pow_add_r by lia.
    pose proof (pow2_le (Zdigits2 m) (53 + (E - e)) ltac:(lia)). lia.
  - destruct (Z.eq_dec E (-1074)); [left; assumption|right].
    apply Z.div_le_lower_bound; [lia|].
    rewrite Z.mul_comm, <- Z.pow_add_r by lia.
    replace (52 + (E - e)) with (Zdigits2 m - 1) by lia. assumption.
Qed.

Lemma rmant_bounds N D e :
  0 <= N -> 0 < D -> e <= rexp N D e ->
  0 <= rmant N D e <= 2 ^ 53 /\
  (rexp N D e = -1074 \/ 2 ^ 52 <= rmant N D e).
Proof.
  intros HN HD He.
  pose proof (rquot_bounds N D e HN HD He) as [Hq Hc].
  pose proof (rne_bounds N (rden N D e)) as Hr. unfold rmant.
  split; [lia|]. destruct Hc; [left; assumption|right; lia].
Qed.

(** What [binary_round_aux] computes, when it is given the quotient at
    an exponent [e] not above the exponent of the result. *)
Lemma binary_round_aux_ival s N D m e l :
  0 <= N -> 0 < D -> located N D (shr_record_of_loc m l) ->
  e <= rexp N D e ->
  binary_round_aux prec emax s m e l <> S754_nan /\
  ival (binary_round_aux prec emax s m e l) =
  if s then - rval N D e else rval N D e.
Proof.
  intros HN HD Hloc He.
  assert (Hm : m = N / D).
  { destruct Hloc as [Hm _]. rewrite (proj2 (loc_of_record_of_loc m l)) in Hm.
    exact Hm. }
  rewrite binary_round_aux_finish.
  unfold rexp in He. rewrite <- Hm in He.
  destruct (shr_fexp_located N D m e l HN HD Hloc He) as [[Hq Hl] HE].
  rewrite Hq, Hl, HE. rewrite Hm. fold (rexp N D e). fold (rden N D e).
  fold (rne N (rden N D e)). fold (rmant N D e).
  rewrite Hm in He. fold (rexp N D e) in He.
  destruct (rmant_bounds N D e HN HD He) as [Hr Hc].
  apply ival_finish; [assumption|apply rexp_ge|assumption].
Qed.

(** ** Rounding is monotone *)

(** [N / D * 2^e <= N' / D' * 2^e'], without fractions. *)
Definition vle (N D e N' D' e' : Z) : Prop :=
  N * D' * 2 ^ (e - Z.min e e') <= N' * D * 2 ^ (e' - Z.min e e').

(** A larger value is rounded at an exponent at least as large. *)
Lemma rexp_mono N D e N' D' e' :
  0 <= N -> 0 < D -> e <= rexp N D e ->
  0 <= N' -> 0 < D' ->
  vle N D e N' D' e' -> rexp N D e <= rexp N' D' e'.
Proof.
  intros HN HD He HN' HD' Hle.
  destruct (Z_le_gt_dec (rexp N D e) (rexp N' D' e')) as [|Hgt];
    [assumption|exfalso].
  pose proof (rexp_ge N' D' e') as HE'.
  unfold rexp, vle in *. rewrite !fexp_eq in *.
  pose proof (Z.div_mod N D ltac:(lia)) as E1.
  pose proof (Z.mod_pos_bound N D HD) as B1.
  pose proof (Z.div_mod N' D' ltac:(lia)) as E2.
  pose proof (Z.mod_pos_bound N' D' HD') as B2.
  assert (Hm : 0 <= N / D) by (apply Z.div_pos; lia).
  assert (Hm' : 0 <= N' / D') by (apply Z.div_pos; lia).
  pose proof (Zdigits2_upper (N' / D') Hm') as Hu'.
  destruct (Z.eq_dec (N / D) 0) as [Hm0|Hm0].
  { rewrite Hm0 in *. cbn [Zdigits2] in *. lia. }
  pose proof (Zdigits2_bounds (N / D) ltac:(lia)) as [Hl _].
  pose proof (Zdigits2_pos (N / D) ltac:(lia)) as Hd.
  assert (Hd' : 0 <= Zdigits2 (N' / D')) by (destruct (N' / D'); cbn; lia).
  set (t := Z.min e e') in *.
  assert (Hpow : 2 ^ Zdigits2 (N' / D') * 2 ^ (e' - t)
                 <= 2 ^ (Zdigits2 (N / D) - 1) * 2 ^ (e - t)).
  { rewrite <- !Z.pow_add_r by lia. apply pow2_le. lia. }
  pose proof (pow2_pos (e - t) ltac:(lia)) as HP.
  pose proof (pow2_pos (e' - t) ltac:(lia)) as HP'.
  generalize dependent (2 ^ (e - t)). generalize dependent (2 ^ (e' - t)).
  generalize dependent (2 ^ Zdigits2 (N' / D')).
  generalize dependent (2 ^ (Zdigits2 (N / D) - 1)).
  generalize dependent (N mod D). generalize dependent (N' mod D').
  generalize dependent (N / D). generalize dependent (N' / D').
  intros m' _ _ _ m _ _ _ _ _ r' E2 B2 r E1 B1 X Hl X' Hu' P' HP' P Hle Hpow HP.
  clear -HN HD HN' HD' E1 B1 E2 B2 Hl Hu' HP HP' Hle Hpow.
  assert (D * X <= N) by nia.
  assert (N' + 1 <= D' * X') by nia.
  assert (D * X * (D' * P) <= N * (D' * P))
    by (apply Z.mul_le_mono_nonneg_r; nia).
  assert ((N' + 1) * (D * P') <= D' * X' * (D * P'))
    by (apply Z.mul_le_mono_nonneg_r; nia).
  assert (D' * D * (X' * P') <= D' * D * (X * P))
    by (apply Z.mul_le_mono_nonneg_l; nia).
  assert (0 < D * P') by nia.
  nia.
Qed.

(** A larger value rounds to a value at least as large. *)
Lemma rval_mono N D e N' D' e' :
  0 <= N -> 0 < D -> e <= rexp N D e ->
  0 <= N' -> 0 < D' -> e' <= rexp N' D' e' ->
  vle N D e N' D' e' -> rval N D e <= rval N' D' e'.
Proof.
  intros HN HD He HN' HD' He' Hle.
  pose proof (rexp_mono N D e N' D' e' HN HD He HN' HD' Hle) as HE.
  pose proof (rexp_ge N D e) as HEmin.
  destruct (rmant_bounds N D e HN HD He) as [Hr Hc].
  destruct (rmant_bounds N' D' e' HN' HD' He') as [Hr' Hc'].
  unfold rval. apply Z.min_le_compat_r.
  destruct (Z.eq_dec (rexp N D e) (rexp N' D' e')) as [Heq|Hne].
  - rewrite <- Heq. apply Z.mul_le_mono_nonneg_r.
    { apply Z.lt_le_incl, pow2_pos. lia. }
    unfold rmant.
    apply rne_mono; try assumption; try (apply rden_pos; assumption).
    unfold rden. rewrite <- Heq. unfold vle in Hle.
    set (E := rexp N D e) in *. set (t := Z.min e e') in *.
    rewrite (pow2_split (e - t) (E - e')) by lia.
    rewrite (pow2_split (e' - t) (E - e)) by lia.
    replace (E - e' - (e - t)) with (E - e - (e' - t)) by lia.
    pose proof (pow2_pos (E - e - (e' - t)) ltac:(lia)) as HP.
    generalize dependent (2 ^ (E - e - (e' - t))).
    generalize dependent (2 ^ (e - t)). generalize dependent (2 ^ (e' - t)).
    intros. nia.
  - destruct Hc' as [Hc'|Hc']; [lia|].
    rewrite (pow2_split (rexp N D e + 1074) (rexp N' D' e' + 1074)) by lia.
    replace (rexp N' D' e' + 1074 - (rexp N D e + 1074))
      with (Z.succ (rexp N' D' e' - rexp N D e - 1)) by lia.
    rewrite Z.pow_succ_r by lia.
    pose proof (pow2_pos (rexp N D e + 1074) ltac:(lia)) as HA.
    pose proof (pow2_pos (rexp N' D' e' - rexp N D e - 1) ltac:(lia)) as HB.
    change (2 ^ 53) with (2 * 2 ^ 52) in *.
    remember (2 ^ (rexp N D e + 1074)) as A eqn:HeqA.
    remember (2 ^ (rexp N' D' e' - rexp N D e - 1)) as B eqn:HeqB.
    remember (2 ^ 52) as K eqn:HeqK.
    remember (rmant N D e) as r eqn:Heqr.
    remember (rmant N' D' e') as r' eqn:Heqr'.
    clear -Hr Hr' Hc' HA HB.
    assert (r * A <= 2 * K * A) by nia.
    assert (K * A <= r' * A) by nia.
    assert (0 <= r' * A) by nia.
    assert (r' * A * 1 <= r' * A * B) by (apply Z.mul_le_mono_nonneg_l; lia).
    nia.
Qed.

Lemma rval_bounds N D e :
  0 <= N -> 0 < D -> e <= rexp N D e -> 0 <= rval N D e <= top.
Proof.
  intros HN HD He. destruct (rmant_bounds N D e HN HD He) as [Hr _].
  pose proof (rexp_ge N D e). pose proof top_pos.
  pose proof (pow2_pos (rexp N D e + 1074) ltac:(lia)).
  unfold rval. split; [apply Z.min_glb; nia|apply Z.le_min_r].
Qed.

(** Two presentations of one value round alike. *)
Lemma rval_eq N D e N' D' e' :
  0 <= N -> 0 < D -> e <= rexp N D e ->
  0 <= N' -> 0 < D' -> e' <= rexp N' D' e' ->
  vle N D e N' D' e' -> vle N' D' e' N D e -> rval N D e = rval N' D' e'.
Proof.
  intros. apply Z.le_antisymm; apply rval_mono; assumption.
Qed.

(** A representable value rounds to itself. *)
Lemma rval_exact s m e :
  valid (S754_finite s m e) ->
  e <= rexp (Z.pos m) 1 e /\ rval (Z.pos m) 1 e = Z.pos m * 2 ^ (e + 1074).
Proof.
  intros Hv. pose proof (ival_finite_pos _ _ _ Hv) as Hlt.
  unfold valid, valid_binary, bounded, canonical_mantissa in Hv.
  rewrite andb_true_iff, Z.eqb_eq in Hv. destruct Hv as [Hc _].
  assert (HE : rexp (Z.pos m) 1 e = e).
  { unfold rexp. rewrite Z.div_1_r. exact Hc. }
  split; [lia|]. unfold rval, rmant, rden. rewrite HE, Z.sub_diag.
  change (1 * 2 ^ 0) with 1. unfold rne.
  rewrite Z.div_1_r, Z.mod_1_r. cbn [loc_of Z.eqb round_nearest_even].
  apply Z.min_l. lia.
Qed.

(** ** Multiplication *)
Abbreviation pzero := (S754_zero false).

(** The product of two valid mantissas is long enough for its exponent. *)
Lemma mul_regime sx mx ex sy my ey :
  valid (S754_finite sx mx ex) -> valid (S754_finite sy my ey) ->
  ex + ey <= rexp (Z.pos mx * Z.pos my) 1 (ex + ey).
Proof.
  intros Hx Hy.
  apply valid_finite in Hx as (Hex & _ & Hcx).
  apply valid_finite in Hy as (Hey & _ & Hcy).
  unfold rexp. rewrite Z.div_1_r, fexp_eq.
  destruct Hcx as [Hcx|Hcx]; [destruct Hcy as [Hcy|Hcy]; [lia|]|].
  - assert (2 ^ 52 <= Z.pos mx * Z.pos my) by nia.
    pose proof (Zdigits2_ge _ 52 ltac:(lia) H). lia.
  - assert (2 ^ 52 <= Z.pos mx * Z.pos my) by nia.
    pose proof (Zdigits2_ge _ 52 ltac:(lia) H). lia.
Qed.

(** The product of two finite floats is the rounded exact product. *)
Lemma SFmul_finite sx mx ex sy my ey :
  valid (S754_finite sx mx ex) -> valid (S754_finite sy my ey) ->
  let z := SFmul prec emax (S754_finite sx mx ex) (S754_finite sy my ey) in
  z <> S754_nan /\
  ival z = if xorb sx sy then - rval (Z.pos mx * Z.pos my) 1 (ex + ey)
           else rval (Z.pos mx * Z.pos my) 1 (ex + ey).
Proof.
  intros Hx Hy. cbn [SFmul]. rewrite Pos2Z.inj_mul.
  apply binary_round_aux_ival; [lia|lia|apply exact_located|].
  apply (mul_regime sx mx ex sy my ey Hx Hy).
Qed.

Ltac mul_finite_facts :=
  repeat match goal with
  | |- context [SFmul prec emax (S754_finite ?s1 ?m1 ?e1)
                                (S754_finite ?s2 ?m2 ?e2)] =>
      let H := fresh in
      destruct (SFmul_finite s1 m1 e1 s2 m2 e2
                  ltac:(assumption) ltac:(assumption))
        as [_ H]; cbv zeta in H; rewrite H; clear H;
      pose proof (mul_regime s1 m1 e1 s2 m2 e2
                    ltac:(assumption) ltac:(assumption));
      pose proof (rval_bounds (Z.pos m1 * Z.pos m2) 1 (e1 + e2)
                    ltac:(lia) ltac:(lia) ltac:(assumption))
  end.

Lemma vle_mul mx ex mx' ex' my ey :
  -1074 <= ex -> -1074 <= ex' ->
  Z.pos mx * 2 ^ (ex + 1074) <= Z.pos mx' * 2 ^ (ex' + 1074) ->
  vle (Z.pos mx * Z.pos my) 1 (ex + ey) (Z.pos mx' * Z.pos my) 1 (ex' + ey).
Proof.
  intros He He' H. unfold vle.
  apply (scale_le _ _ _ _ (ex + ey - Z.min (ex + ey) (ex' + ey))
                          (ex' + ey - Z.min (ex + ey) (ex' + ey))) in H;
    try lia.
  generalize dependent (2 ^ (ex + ey - Z.min (ex + ey) (ex' + ey))).
  generalize dependent (2 ^ (ex' + ey - Z.min (ex + ey) (ex' + ey))).
  intros. nia.
Qed.

Lemma SFmul_nan_l y : SFmul prec emax S754_nan y = S754_nan.
Proof. destruct y; reflexivity. Qed.

Lemma SFmul_nan_r x : SFmul prec emax x S754_nan = S754_nan.
Proof. destruct x; reflexivity. Qed.

(** Multiplication by a non-negative factor is monotone on non-negative
    floats. *)
Lemma SFmul_mono x x' y :
  valid x -> valid x' -> valid y ->
  ord pzero x -> ord x x' -> ord pzero y ->
  ord (SFmul prec emax x y) (SFmul prec emax x' y).
Proof.
  intros Hx Hx' Hy [?|[->|H0x]]; [discriminate|left; apply SFmul_nan_l|].
  intros [->|[->|Hxx']];
    [left; apply SFmul_nan_l|right; left; apply SFmul_nan_l|].
  intros [?|[->|H0y]]; [discriminate|left; apply SFmul_nan_r|].
  pose proof top_pos as Ht.
  destruct x as [sx|sx| |sx mx ex], x' as [sx'|sx'| |sx' mx' ex'],
           y as [sy|sy| |sy my ey];
    finite_facts; cbn [ival] in *;
    repeat match goal with
           | s : bool |- _ => destruct s
           end; cbn [ival] in *; try lia;
    try (left; reflexivity); try (right; left; reflexivity);
    try (right; right; cbn [SFmul ival xorb]; lia).
  all: right; right; mul_finite_facts.
  all: cbn [SFmul ival xorb]; try lia.
  apply rval_mono; try lia.
  apply valid_finite in Hx as (? & _). apply valid_finite in Hx' as (? & _).
  apply vle_mul; lia.
Qed.

Lemma SFmul_comm x y : SFmul prec emax x y = SFmul prec emax y x.
Proof.
  destruct x as [sx|sx| |sx mx ex], y as [sy|sy| |sy my ey]; cbn [SFmul];
    rewrite ?(xorb_comm sx sy), ?(Pos.mul_comm mx my), ?(Z.add_comm ex ey);
    reflexivity.
Qed.

Lemma SFmul_nonneg x y :
  valid x -> valid y -> ord pzero x -> ord pzero y ->
  ord pzero (SFmul prec emax x y).
Proof.
  intros Hx Hy [?|[->|H0x]]; [discriminate|right; left; apply SFmul_nan_l|].
  intros [?|[->|H0y]]; [discriminate|right; left; apply SFmul_nan_r|].
  pose proof top_pos as Ht.
  destruct x as [sx|sx| |sx mx ex], y as [sy|sy| |sy my ey];
    finite_facts; cbn [ival] in *;
    repeat match goal with
           | s : bool |- _ => destruct s
           end; cbn [ival] in *; try lia;
    try (right; left; reflexivity);
    try (right; right; cbn [SFmul ival xorb]; lia).
  right; right. mul_finite_facts. cbn [ival xorb]. lia.
Qed.

(** The double [1]. *)
Definition SFone : spec_float := S754_finite false (Z.to_pos (2 ^ 52)) (-52).

(** Multiplying a non-negative float by a factor of at least one does
    not make it smaller. *)
Lemma SFmul_ge_self x c :
  valid x -> valid c -> ord pzero x -> ord SFone c ->
  ord x (SFmul prec emax x c).
Proof.
  intros Hx Hc [?|[->|H0x]]; [discriminate|left; reflexivity|].
  intros [?|[->|H1c]]; [discriminate|right; left; apply SFmul_nan_r|].
  pose proof top_pos as Ht.
  assert (H1 : ival SFone = 2 ^ 1074) by reflexivity. rewrite H1 in H1c.
  pose proof (pow2_pos 1074 ltac:(lia)) as H1pos.
  destruct x as [sx|sx| |sx mx ex], c as [sc|sc| |sc mc ec];
    finite_facts; cbn [ival] in *;
    repeat match goal with
           | s : bool |- _ => destruct s
           end; cbn [ival] in *; try lia;
    try (right; left; reflexivity);
    try (right; right; cbn [SFmul ival xorb]; lia).
  right; right. mul_finite_facts. cbn [ival xorb].
  destruct (rval_exact false mx ex Hx) as [Hreg <-].
  apply rval_mono; try lia.
  apply valid_finite in Hx as (Hex & _). apply valid_finite in Hc as (Hec & _).
  unfold vle. rewrite !Z.mul_1_r.
  assert (Hs : 1 * 2 ^ (ex - Z.min ex (ex + ec))
               <= Z.pos mc * 2 ^ (ex + ec - Z.min ex (ex + ec)))
    by (apply (scale_le 1 (Z.pos mc) 1074 (ec + 1074)); lia).
  generalize dependent (2 ^ (ex - Z.min ex (ex + ec))).
  generalize dependent (2 ^ (ex + ec - Z.min ex (ex + ec))).
  intros. nia.
Qed.

(** ** Division *)

(** The exponent and the numerator [SFdiv_core_binary] divides at. *)
Definition dexp (mx ex my ey : Z) : Z :=
  Z.min (fexp (Zdigits2 mx + ex - (Zdigits2 my + ey))) (ex - ey).

Definition dnum (mx ex my ey : Z) : Z :=
  mx * 2 ^ (ex - ey - dexp mx ex my ey).

Lemma dexp_le mx ex my ey : dexp mx ex my ey <= ex - ey.
Proof. unfold dexp. lia. Qed.

Lemma SFdiv_core_binary_eq mx ex my ey :
  0 < mx -> 0 < my ->
  SFdiv_core_binary prec emax mx ex my ey =
  (dnum mx ex my ey / my, dexp mx ex my ey,
   loc_of (dnum mx ex my ey mod my) my).
Proof.
  intros Hx Hy. unfold SFdiv_core_binary.
  fold (dexp mx ex my ey).
  pose proof (dexp_le mx ex my ey) as Hs.
  assert (Hm : match ex - ey - dexp mx ex my ey with
               | 0 => mx
               | Z.pos _ => Z.shiftl mx (ex - ey - dexp mx ex my ey)
               | Z.neg _ => 0
               end = dnum mx ex my ey).
  { unfold dnum. destruct (ex - ey - dexp mx ex my ey) as [|p|p] eqn:E.
    - rewrite Z.pow_0_r. lia.
    - rewrite Z.shiftl_mul_pow2 by lia. reflexivity.
    - lia. }
  rewrite Hm.
  assert (HN : 0 <= dnum mx ex my ey).
  { unfold dnum. pose proof (pow2_pos (ex - ey - dexp mx ex my ey) ltac:(lia)).
    nia. }
  pose proof (Z.mod_pos_bound (dnum mx ex my ey) my Hy) as Hr.
  unfold Z.div, Z.modulo in *.
  destruct (Z.div_eucl (dnum mx ex my ey) my) as [q r].
  rewrite new_location_loc_of by assumption. reflexivity.
Qed.

Lemma div_regime mx ex my ey :
  0 < mx -> 0 < my ->
  dexp mx ex my ey <= rexp (dnum mx ex my ey) my (dexp mx ex my ey).
Proof.
  intros Hx Hy.
  pose proof (rexp_ge (dnum mx ex my ey) my (dexp mx ex my ey)) as HE.
  destruct (Z_le_gt_dec (dexp mx ex my ey) (-1074)) as [|Hgt]; [lia|].
  unfold rexp. rewrite fexp_eq.
  assert (Hd : dexp mx ex my ey <= Zdigits2 mx + ex - (Zdigits2 my + ey) - 53).
  { unfold dexp in *. rewrite fexp_eq in *. lia. }
  pose proof (dexp_le mx ex my ey) as Hs.
  pose proof (Zdigits2_bounds mx Hx) as [Hlx _].
  pose proof (Zdigits2_upper my ltac:(lia)) as Huy.
  pose proof (Zdigits2_pos mx Hx). pose proof (Zdigits2_pos my Hy).
  assert (Hq : 2 ^ 52 <= dnum mx ex my ey / my).
  { apply Z.div_le_lower_bound; [assumption|].
    unfold dnum.
    assert (Hp2 : 2 ^ (52 + Zdigits2 my) <=
            2 ^ (Zdigits2 mx - 1) * 2 ^ (ex - ey - dexp mx ex my ey)).
    { rewrite <- Z.pow_add_r by lia. apply pow2_le. lia. }
    rewrite Z.pow_add_r in Hp2 by lia.
    pose proof (pow2_pos (ex - ey - dexp mx ex my ey) ltac:(lia)).
    pose proof (pow2_pos 52 ltac:(lia)).
    generalize dependent (2 ^ (ex - ey - dexp mx ex my ey)).
    generalize dependent (2 ^ (Zdigits2 mx - 1)).
    generalize dependent (2 ^ Zdigits2 my). generalize dependent (2 ^ 52).
    intros. nia. }
  pose proof (Zdigits2_ge _ 52 ltac:(lia) Hq). lia.
Qed.

(** The quotient of two finite floats is the rounded exact quotient. *)
Lemma SFdiv_finite sx mx ex sy my ey :
  let z := SFdiv prec emax (S754_finite sx mx ex) (S754_finite sy my ey) in
  z <> S754_nan /\
  ival z =
  if xorb sx sy
  then - rval (dnum (Z.pos mx) ex (Z.pos my) ey) (Z.pos my)
           (dexp (Z.pos mx) ex (Z.pos my) ey)
  else rval (dnum (Z.pos mx) ex (Z.pos my) ey) (Z.pos my)
         (dexp (Z.pos mx) ex (Z.pos my) ey).
Proof.
  cbn [SFdiv]. rewrite SFdiv_core_binary_eq by lia.
  assert (HN : 0 <= dnum (Z.pos mx) ex (Z.pos my) ey).
  { unfold dnum. pose proof (dexp_le (Z.pos mx) ex (Z.pos my) ey).
    pose proof (pow2_pos (ex - ey - dexp (Z.pos mx) ex (Z.pos my) ey)
                  ltac:(lia)).
    nia. }
  apply binary_round_aux_ival; [assumption|lia| |apply div_regime; lia].
  split.
  - apply (proj2 (loc_of_record_of_loc _ _)).
  - apply (proj1 (loc_of_record_of_loc _ _)).
Qed.

Ltac div_finite_facts :=
  repeat match goal with
  | |- context [SFdiv prec emax (S754_finite ?s1 ?m1 ?e1)
                                (S754_finite ?s2 ?m2 ?e2)] =>
      let H := fresh in
      destruct (SFdiv_finite s1 m1 e1 s2 m2 e2) as [_ H]; cbv zeta in H;
      rewrite H; clear H;
      pose proof (div_regime (Z.pos m1) e1 (Z.pos m2) e2 ltac:(lia) ltac:(lia));
      pose proof (dexp_le (Z.pos m1) e1 (Z.pos m2) e2);
      assert (0 <= dnum (Z.pos m1) e1 (Z.pos m2) e2)
        by (unfold dnum;
            pose proof (pow2_pos (e1 - e2 - dexp (Z.pos m1) e1 (Z.pos m2) e2)
                          ltac:(lia));
            nia);
      pose proof (rval_bounds (dnum (Z.pos m1) e1 (Z.pos m2) e2) (Z.pos m2)
                    (dexp (Z.pos m1) e1 (Z.pos m2) e2)
                    ltac:(assumption) ltac:(lia) ltac:(assumption))
  end.

Lemma vle_div mx ex mx' ex' my ey :
  -1074 <= ex -> -1074 <= ex' ->
  Z.pos mx * 2 ^ (ex + 1074) <= Z.pos mx' * 2 ^ (ex' + 1074) ->
  vle (dnum (Z.pos mx) ex (Z.pos my) ey) (Z.pos my)
      (dexp (Z.pos mx) ex (Z.pos my) ey)
      (dnum (Z.pos mx') ex' (Z.pos my) ey) (Z.pos my)
      (dexp (Z.pos mx') ex' (Z.pos my) ey).
Proof.
  intros He He' H. unfold vle, dnum.
  pose proof (dexp_le (Z.pos mx) ex (Z.pos my) ey) as Hd.
  pose proof (dexp_le (Z.pos mx') ex' (Z.pos my) ey) as Hd'.
  set (e1 := dexp (Z.pos mx) ex (Z.pos my) ey) in *.
  set (e2 := dexp (Z.pos mx') ex' (Z.pos my) ey) in *.
  set (t := Z.min e1 e2).
  assert (Hs : Z.pos mx * 2 ^ (ex - ey - t) <= Z.pos mx' * 2 ^ (ex' - ey - t))
    by (apply (scale_le _ _ (ex + 1074) (ex' + 1074)); lia).
  rewrite (pow2_split (e1 - t) (ex - ey - t)) in Hs by lia.
  rewrite (pow2_split (e2 - t) (ex' - ey - t)) in Hs by lia.
  replace (ex - ey - t - (e1 - t)) with (ex - ey - e1) in Hs by lia.
  replace (ex' - ey - t - (e2 - t)) with (ex' - ey - e2) in Hs by lia.
  generalize dependent (2 ^ (ex - ey - e1)).
  generalize dependent (2 ^ (ex' - ey - e2)).
  generalize dependent (2 ^ (e1 - t)). generalize dependent (2 ^ (e2 - t)).
  intros. nia.
Qed.

Lemma SFdiv_nan_l y : SFdiv prec emax S754_nan y = S754_nan.
Proof. destruct y; reflexivity. Qed.

(** [y] is a positive number or [+Infinity]. *)
Definition positive_float (y : spec_float) : Prop :=
  y <> S754_nan /\ 0 < ival y.

(** Division by a positive divisor is monotone on non-negative floats. *)
Lemma SFdiv_mono x x' y :
  valid x -> valid x' -> valid y ->
  ord pzero x -> ord x x' -> positive_float y ->
  ord (SFdiv prec emax x y) (SFdiv prec emax x' y).
Proof.
  intros Hx Hx' Hy [?|[->|H0x]]; [discriminate|left; apply SFdiv_nan_l|].
  intros [->|[->|Hxx']];
    [left; apply SFdiv_nan_l|right; left; apply SFdiv_nan_l|].
  intros [Ny H0y].
  pose proof top_pos as Ht.
  destruct x as [sx|sx| |sx mx ex], x' as [sx'|sx'| |sx' mx' ex'],
           y as [sy|sy| |sy my ey];
    finite_facts; cbn [ival] in *;
    repeat match goal with
           | s : bool |- _ => destruct s
           end; cbn [ival] in *; try lia;
    try (left; reflexivity); try (right; left; reflexivity);
    try (right; right; cbn [SFdiv ival xorb]; lia).
  all: right; right.
  all: div_finite_facts.
  all: cbn [SFdiv ival xorb]; try lia.
  apply rval_mono; try lia.
  apply valid_finite in Hx as (? & _). apply valid_finite in Hx' as (? & _).
  apply vle_div; lia.
Qed.

Lemma SFdiv_nonneg x y :
  valid x -> valid y -> ord pzero x -> positive_float y ->
  ord pzero (SFdiv prec emax x y).
Proof.
  intros Hx Hy [?|[->|H0x]]; [discriminate|right; left; apply SFdiv_nan_l|].
  intros [Ny H0y].
  pose proof top_pos as Ht.
  destruct x as [sx|sx| |sx mx ex], y as [sy|sy| |sy my ey];
    finite_facts; cbn [ival] in *;
    repeat match goal with
           | s : bool |- _ => destruct s
           end; cbn [ival] in *; try lia;
    try (right; left; reflexivity);
    try (right; right; cbn [SFdiv ival xorb]; lia).
  right; right. div_finite_facts. cbn [ival xorb]. lia.
Qed.

(** ** Addition and subtraction *)

(** Rounding of a non-negative integer multiple of [2^-1074], and of a
    signed one. *)
Definition rint (V : Z) : Z := rval V 1 (-1074).

Definition rsigned (W : Z) : Z := if W <? 0 then - rint (- W) else rint W.

Lemma rint_bounds V : 0 <= V -> 0 <= rint V <= top.
Proof. intros HV. apply rval_bounds; [assumption|lia|apply rexp_ge]. Qed.

Lemma rint_mono V V' : 0 <= V <= V' -> rint V <= rint V'.
Proof.
  intros HV. apply rval_mono; try lia; try apply rexp_ge.
  unfold vle. rewrite Z.min_id, Z.sub_diag. lia.
Qed.

Lemma rsigned_bounds W : - top <= rsigned W <= top.
Proof.
  unfold rsigned. destruct (Z.ltb_spec W 0).
  - pose proof (rint_bounds (- W) ltac:(lia)). lia.
  - pose proof (rint_bounds W ltac:(lia)). lia.
Qed.

Lemma rsigned_mono W W' : W <= W' -> rsigned W <= rsigned W'.
Proof.
  intros H. unfold rsigned.
  destruct (Z.ltb_spec W 0), (Z.ltb_spec W' 0); try lia.
  - pose proof (rint_mono (- W') (- W) ltac:(lia)). lia.
  - pose proof (rint_bounds (- W) ltac:(lia)).
    pose proof (rint_bounds W' ltac:(lia)). lia.
  - apply rint_mono. lia.
Qed.

(** A representable value rounds to itself. *)
Lemma rint_exact s m e :
  valid (S754_finite s m e) ->
  rint (Z.pos m * 2 ^ (e + 1074)) = Z.pos m * 2 ^ (e + 1074).
Proof.
  intros Hv. destruct (rval_exact s m e Hv) as [Hreg Hex].
  pose proof (ival_finite_pos s m e Hv) as Hp.
  apply valid_finite in Hv as (He & _).
  etransitivity; [|exact Hex].
  unfold rint. apply rval_eq; try lia; try apply rexp_ge; try assumption.
  - unfold vle. rewrite Z.min_l by lia.
    replace (e - -1074) with (e + 1074) by lia. rewrite Z.sub_diag. lia.
  - unfold vle. rewrite Z.min_r by lia.
    replace (e - -1074) with (e + 1074) by lia. rewrite Z.sub_diag. lia.
Qed.

Lemma rsigned_exact s m e :
  valid (S754_finite s m e) ->
  rsigned (ival (S754_finite s m e)) = ival (S754_finite s m e).
Proof.
  intros Hv. pose proof (ival_finite_pos s m e Hv) as Hp.
  pose proof (rint_exact s m e Hv) as Hr.
  unfold rsigned. cbn [ival]. destruct s.
  - destruct (Z.ltb_spec (- (Z.pos m * 2 ^ (e + 1074))) 0); [|lia].
    rewrite Z.opp_involutive, Hr. reflexivity.
  - destruct (Z.ltb_spec (Z.pos m * 2 ^ (e + 1074)) 0); [lia|]. exact Hr.
Qed.

(** Aligning to a smaller exponent keeps the value. *)
Lemma shl_align_spec m e e' :
  Z.pos (fst (shl_align m e e')) = Z.pos m * 2 ^ (e - Z.min e e') /\
  snd (shl_align m e e') = Z.min e e'.
Proof.
  unfold shl_align. destruct (e' - e) as [|p|p] eqn:E; cbn [fst snd].
  - rewrite Z.min_l by lia. rewrite Z.sub_diag. split; lia.
  - rewrite Z.min_l by lia. rewrite Z.sub_diag. split; lia.
  - rewrite Z.min_r by lia. rewrite iter_xO.
    replace (e - e') with (Z.pos p) by lia. split; reflexivity.
Qed.

(** [binary_round] rounds the value it is given. *)
Lemma binary_round_ival s m e :
  -1074 <= e ->
  binary_round prec emax s m e <> S754_nan /\
  ival (binary_round prec emax s m e) =
  if s then - rint (Z.pos m * 2 ^ (e + 1074))
  else rint (Z.pos m * 2 ^ (e + 1074)).
Proof.
  intros He. unfold binary_round.
  pose proof (shl_align_spec m e (fexp (Z.pos (digits2_pos m) + e))) as [Hm Hz].
  destruct (shl_align m e (fexp (Z.pos (digits2_pos m) + e))) as [mz ez].
  cbn [fst snd] in Hm, Hz.
  set (f := fexp (Z.pos (digits2_pos m) + e)) in *.
  assert (Hf : -1074 <= f) by (unfold f; rewrite fexp_eq; lia).
  assert (Hreg : ez <= rexp (Z.pos mz) 1 ez).
  { unfold rexp. rewrite Z.div_1_r.
    destruct (Z_le_gt_dec e f) as [L|G].
    - rewrite Z.min_l in Hz, Hm by lia. subst ez.
      rewrite Z.sub_diag, Z.mul_1_r in Hm. injection Hm as ->. exact L.
    - rewrite Z.min_r in Hz, Hm by lia. subst ez.
      pose proof (digits_bounds m) as [Hl Hu].
      assert (Hd : Zdigits2 (Z.pos mz) = Z.pos (digits2_pos m) + (e - f)).
      { apply Zdigits2_unique; [lia|]. rewrite Hm.
        replace (Z.pos (digits2_pos m) + (e - f) - 1)
          with (Z.pos (digits2_pos m) - 1 + (e - f)) by lia.
        rewrite !Z.pow_add_r by lia.
        pose proof (pow2_pos (e - f) ltac:(lia)). nia. }
      rewrite Hd. replace (Z.pos (digits2_pos m) + (e - f) + f)
        with (Z.pos (digits2_pos m) + e) by lia.
      fold f. lia. }
  assert (Hez : -1074 <= ez) by lia.
  assert (Hval : Z.pos mz * 2 ^ (ez + 1074) = Z.pos m * 2 ^ (e + 1074)).
  { rewrite Hm, Hz, <- Z.mul_assoc, <- Z.pow_add_r by lia. do 2 f_equal. lia. }
  assert (Heq : rval (Z.pos mz) 1 ez = rint (Z.pos m * 2 ^ (e + 1074))).
  { pose proof (pow2_pos (e + 1074) ltac:(lia)).
    unfold rint. apply rval_eq; try lia; try apply rexp_ge; try assumption.
    - unfold vle. rewrite Z.min_r by lia.
      replace (ez - -1074) with (ez + 1074) by lia. rewrite Z.sub_diag. lia.
    - unfold vle. rewrite Z.min_l by lia.
      replace (ez - -1074) with (ez + 1074) by lia. rewrite Z.sub_diag. lia. }
  rewrite <- Heq.
  apply binary_round_aux_ival; [lia|lia|apply exact_located|assumption].
Qed.

Lemma binary_normalize_ival W e :
  -1074 <= e ->
  binary_normalize prec emax W e false <> S754_nan /\
  ival (binary_normalize prec emax W e false) = rsigned (W * 2 ^ (e + 1074)).
Proof.
  intros He. pose proof (pow2_pos (e + 1074) ltac:(lia)) as HP.
  unfold binary_normalize, rsigned. destruct W as [|m|m].
  - split; [discriminate|]. reflexivity.
  - destruct (Z.ltb_spec (Z.pos m * 2 ^ (e + 1074)) 0); [nia|].
    apply (binary_round_ival false m e He).
  - destruct (Z.ltb_spec (Z.neg m * 2 ^ (e + 1074)) 0); [|nia].
    replace (- (Z.neg m * 2 ^ (e + 1074))) with (Z.pos m * 2 ^ (e + 1074))
      by lia.
    apply (binary_round_ival true m e He).
Qed.

Lemma aligned_ival s m e ez :
  -1074 <= ez -> ez <= e ->
  cond_Zopp s (Z.pos (fst (shl_align m e ez))) * 2 ^ (ez + 1074) =
  ival (S754_finite s m e).
Proof.
  intros Hz He. destruct (shl_align_spec m e ez) as [-> _].
  rewrite Z.min_r by lia. cbn [ival].
  assert (Z.pos m * 2 ^ (e - ez) * 2 ^ (ez + 1074) = Z.pos m * 2 ^ (e + 1074)).
  { rewrite <- Z.mul_assoc, <- Z.pow_add_r by lia. do 2 f_equal. lia. }
  destruct s; cbn [cond_Zopp]; lia.
Qed.

(** The sum of two finite floats or zeros is the rounded exact sum. *)
Lemma SFadd_fin x y :
  valid x -> valid y -> is_fin x = true -> is_fin y = true ->
  SFadd prec emax x y <> S754_nan /\
  ival (SFadd prec emax x y) = rsigned (ival x + ival y).
Proof.
  intros Hx Hy Fx Fy.
  destruct x as [sx|sx| |sx mx ex], y as [sy|sy| |sy my ey]; try discriminate.
  - split; [destruct sx, sy; discriminate|]. destruct sx, sy; reflexivity.
  - cbn [SFadd]. split; [discriminate|].
    change (ival (S754_zero sx)) with 0. rewrite Z.add_0_l.
    rewrite rsigned_exact by assumption. reflexivity.
  - cbn [SFadd]. split; [discriminate|].
    change (ival (S754_zero sy)) with 0. rewrite Z.add_0_r.
    rewrite rsigned_exact by assumption. reflexivity.
  - cbn [SFadd]. pose proof Hx as Hx0. pose proof Hy as Hy0.
    apply valid_finite in Hx0 as (Hex & _).
    apply valid_finite in Hy0 as (Hey & _).
    replace (ival (S754_finite sx mx ex) + ival (S754_finite sy my ey))
      with ((cond_Zopp sx (Z.pos (fst (shl_align mx ex (Z.min ex ey)))) +
             cond_Zopp sy (Z.pos (fst (shl_align my ey (Z.min ex ey)))))
            * 2 ^ (Z.min ex ey + 1074)).
    + apply binary_normalize_ival. lia.
    + rewrite Z.mul_add_distr_r, !aligned_ival by lia. reflexivity.
Qed.

Ltac add_fin_facts :=
  repeat match goal with
  | |- context [ival (SFadd prec emax ?a ?b)] =>
      let H := fresh in
      destruct (SFadd_fin a b ltac:(assumption) ltac:(assumption)
                  ltac:(assumption) ltac:(assumption)) as [_ H];
      rewrite H; clear H;
      pose proof (rsigned_bounds (ival a + ival b))
  end.

Lemma SFadd_nan_l y : SFadd prec emax S754_nan y = S754_nan.
Proof. destruct y; reflexivity. Qed.

Lemma SFadd_nan_r x : SFadd prec emax x S754_nan = S754_nan.
Proof. destruct x; reflexivity. Qed.

Lemma SFadd_inf_l s y :
  is_fin y = true -> SFadd prec emax (S754_infinity s) y = S754_infinity s.
Proof. destruct y; try discriminate; reflexivity. Qed.

Lemma SFadd_inf_r s x :
  is_fin x = true -> SFadd prec emax x (S754_infinity s) = S754_infinity s.
Proof. destruct x; try discriminate; reflexivity. Qed.

(** Addition is monotone in both arguments. *)
Lemma SFadd_mono x x' y y' :
  valid x -> valid x' -> valid y -> valid y' ->
  ord x x' -> ord y y' ->
  ord (SFadd prec emax x y) (SFadd prec emax x' y').
Proof.
  intros Hx Hx' Hy Hy'.
  intros [->|[->|Hxx']];
    [left; apply SFadd_nan_l|right; left; apply SFadd_nan_l|].
  intros [->|[->|Hyy']];
    [left; apply SFadd_nan_r|right; left; apply SFadd_nan_r|].
  pose proof top_pos as Ht.
  destruct (shape x Hx) as [->|Sx]; [left; apply SFadd_nan_l|].
  destruct (shape x' Hx') as [->|Sx']; [right; left; apply SFadd_nan_l|].
  destruct (shape y Hy) as [->|Sy]; [left; apply SFadd_nan_r|].
  destruct (shape y' Hy') as [->|Sy']; [right; left; apply SFadd_nan_r|].
  destruct Sx as [[Fx Bx]|[->| ->]], Sx' as [[Fx' Bx']|[->| ->]],
           Sy as [[Fy By]|[->| ->]], Sy' as [[Fy' By']|[->| ->]];
    cbn [ival] in Hxx', Hyy'; try lia;
    repeat match goal with
           | H : is_fin ?b = true
             |- context [SFadd prec emax (S754_infinity ?s) ?b] =>
               rewrite (SFadd_inf_l s b H)
           | H : is_fin ?a = true
             |- context [SFadd prec emax ?a (S754_infinity ?s)] =>
               rewrite (SFadd_inf_r s a H)
           end;
    try (left; reflexivity); try (right; left; reflexivity);
    right; right; add_fin_facts; cbn [SFadd ival];
    first [ lia | apply rsigned_mono; lia ].
Qed.

(** Subtraction is addition of the opposite. *)
Lemma SFsub_add_opp x y : SFsub prec emax x y = SFadd prec emax x (SFopp y).
Proof.
  destruct x as [sx|sx| |sx mx ex], y as [sy|sy| |sy my ey];
    try reflexivity;
    try (destruct sx, sy; reflexivity).
Qed.

Lemma valid_SFopp y : valid y -> valid (SFopp y).
Proof. destruct y; exact (fun H => H). Qed.

Lemma ival_SFopp y : ival (SFopp y) = - ival y.
Proof.
  destruct y as [s|s| |s m e]; try destruct s; cbn [ival SFopp negb]; lia.
Qed.

(** Subtracting a float from one that is not smaller does not give a
    negative result. *)
Lemma SFsub_nonneg x y :
  valid x -> valid y -> ord y x -> ord pzero (SFsub prec emax x y).
Proof.
  intros Hx Hy Hyx. rewrite SFsub_add_opp.
  pose proof (valid_SFopp y Hy) as Hoy.
  destruct Hyx as [->|[->|Hle]];
    [right; left; apply SFadd_nan_r|right; left; apply SFadd_nan_l|].
  pose proof top_pos as Ht.
  destruct (is_fin y) eqn:Fy.
  - assert (Foy : is_fin (SFopp y) = true)
      by (destruct y; try discriminate; reflexivity).
    destruct (SFadd_fin y (SFopp y) Hy Hoy Fy Foy) as [Hn Hv].
    rewrite ival_SFopp, Z.add_opp_diag_r in Hv.
    destruct (SFadd_mono y x (SFopp y) (SFopp y) Hy Hx Hoy Hoy
                ltac:(right; right; exact Hle) (ord_refl _)) as [H|[H|H]].
    + contradiction.
    + right; left; exact H.
    + right; right. rewrite Hv in H. exact H.
  - destruct y as [sy|sy| |sy my ey]; try discriminate.
    + destruct sy; cbn [SFopp negb].
      * destruct x as [sx|sx| |sx mx ex]; try destruct sx;
          try (right; left; reflexivity); right; right; cbn [SFadd ival]; lia.
      * finite_facts.
        destruct x as [sx|sx| |sx mx ex]; try destruct sx; cbn [ival] in Hle;
          finite_facts; try lia; right; left; reflexivity.
    + right; left. apply SFadd_nan_r.
Qed.

(** ** Comparisons that hold *)
Lemma SFcompare_not_nan f g c :
  SFcompare f g = Some c -> f <> S754_nan /\ g <> S754_nan.
Proof. destruct f, g; cbn; intros H; try discriminate; split; discriminate. Qed.

Lemma SFleb_true f g :
  valid f -> valid g -> SFleb f g = true ->
  f <> S754_nan /\ g <> S754_nan /\ ival f <= ival g.
Proof.
  intros Hf Hg. unfold SFleb.
  destruct (SFcompare f g) as [c|] eqn:E; [|discriminate].
  destruct (SFcompare_not_nan f g c E) as [Nf Ng].
  rewrite (compare_ival f g Hf Hg Nf Ng) in E. injection E as <-.
  destruct (Z.compare_spec (ival f) (ival g)); intros; try discriminate;
    repeat split; try assumption; lia.
Qed.

Lemma SFltb_true f g :
  valid f -> valid g -> SFltb f g = true ->
  f <> S754_nan /\ g <> S754_nan /\ ival f < ival g.
Proof.
  intros Hf Hg. unfold SFltb.
  destruct (SFcompare f g) as [c|] eqn:E; [|discriminate].
  destruct (SFcompare_not_nan f g c E) as [Nf Ng].
  rewrite (compare_ival f g Hf Hg Nf Ng) in E. injection E as <-.
  destruct (Z.compare_spec (ival f) (ival g)); intros; try discriminate;
    repeat split; try assumption; lia.
Qed.

(** ** Exact quotients and further order facts *)
Lemma ord_trans f g h : g <> S754_nan -> ord f g -> ord g h -> ord f h.
Proof.
  intros Ng [Hf|[Hg|H1]] [Hg'|[Hh|H2]]; try contradiction;
    try (left; assumption); try (right; left; assumption).
  right; right. lia.
Qed.

(** Two products of a power of two are equal when they are equal after
    scaling. *)
Lemma pow2_cancel a b k : 0 <= k -> a * 2 ^ k = b * 2 ^ k -> a = b.
Proof. intros Hk H. pose proof (pow2_pos k Hk). nia. Qed.

(** A quotient that is a float is computed exactly. *)
Lemma SFdiv_exact mx ex my ey mz ez :
  valid (S754_finite false mx ex) -> valid (S754_finite false my ey) ->
  valid (S754_finite false mz ez) ->
  Z.pos mx * 2 ^ (ex + 1074) * 2 ^ 1074 =
    (Z.pos my * 2 ^ (ey + 1074)) * (Z.pos mz * 2 ^ (ez + 1074)) ->
  ival (SFdiv prec emax (S754_finite false mx ex) (S754_finite false my ey))
  = Z.pos mz * 2 ^ (ez + 1074).
Proof.
  intros Hx Hy Hz H.
  destruct (SFdiv_finite false mx ex false my ey) as [_ Hv].
  cbv zeta in Hv. cbn [xorb] in Hv. rewrite Hv. clear Hv.
  destruct (rval_exact false mz ez Hz) as [Hreg <-].
  pose proof (div_regime (Z.pos mx) ex (Z.pos my) ey ltac:(lia) ltac:(lia))
    as Hd.
  pose proof (dexp_le (Z.pos mx) ex (Z.pos my) ey) as Hle.
  apply valid_finite in Hx as (Hex & _).
  apply valid_finite in Hy as (Hey & _).
  apply valid_finite in Hz as (Hez & _).
  set (d := dexp (Z.pos mx) ex (Z.pos my) ey) in *.
  assert (HN : 0 <= dnum (Z.pos mx) ex (Z.pos my) ey).
  { unfold dnum. fold d. pose proof (pow2_pos (ex - ey - d) ltac:(lia)). nia. }
  assert (E : dnum (Z.pos mx) ex (Z.pos my) ey * 1 * 2 ^ (d - Z.min d ez)
              = Z.pos mz * Z.pos my * 2 ^ (ez - Z.min d ez)).
  { unfold dnum. fold d.
    assert (Hmin : -5000 <= Z.min d ez).
    { pose proof (rexp_ge (dnum (Z.pos mx) ex (Z.pos my) ey) (Z.pos my) d).
      unfold d, dexp in *. rewrite fexp_eq in *. lia. }
    apply (pow2_cancel _ _ (ey + Z.min d ez + 8000)); [lia|].
    rewrite Z.mul_1_r, <- !Z.mul_assoc, <- !Z.pow_add_r by lia.
    replace (ex - ey - d + (d - Z.min d ez + (ey + Z.min d ez + 8000)))
      with ((ex + 1074) + 1074 + 5852) by lia.
    replace (ez - Z.min d ez + (ey + Z.min d ez + 8000))
      with ((ey + 1074) + (ez + 1074) + 5852) by lia.
    rewrite (Z.pow_add_r 2 (ex + 1074 + 1074) 5852),
      (Z.pow_add_r 2 (ex + 1074) 1074),
      (Z.pow_add_r 2 (ey + 1074 + (ez + 1074)) 5852),
      (Z.pow_add_r 2 (ey + 1074) (ez + 1074)) by lia.
    generalize dependent (2 ^ (ex + 1074)). generalize dependent (2 ^ 1074).
    generalize dependent (2 ^ (ey + 1074)).
    generalize dependent (2 ^ (ez + 1074)). generalize (2 ^ 5852).
    intros K D C B A H.
    transitivity (Z.pos mx * A * B * K); [ring|]. rewrite H. ring. }
  apply rval_eq; try lia; try assumption; unfold vle.
  - rewrite E. lia.
  - rewrite (Z.min_comm ez d), <- E. lia.
Qed.


Definition SF1024 : spec_float := S754_finite false 4503599627370496 (-42).

(** A float of at least 1024 is normal, so a tenth of its exponent can be
    taken off. *)
Lemma valid_div_1024 mx ex :
  valid (S754_finite false mx ex) ->
  2 ^ 1084 <= Z.pos mx * 2 ^ (ex + 1074) ->
  valid (S754_finite false mx (ex - 10)).
Proof.
  intros Hx Hge. pose proof (valid_finite _ _ _ Hx) as (He & Hm & _).
  assert (Hex : -42 <= ex).
  { destruct (Z_le_gt_dec (-42) ex) as [|Hlt]; [assumption|exfalso].
    pose proof (pow2_le (ex + 1074) 1031 ltac:(lia)) as Hp.
    pose proof (pow2_pos (ex + 1074) ltac:(lia)) as Hp0.
    change (2 ^ 1084) with (2 ^ 53 * 2 ^ 1031) in Hge.
    generalize dependent (2 ^ (ex + 1074)). generalize dependent (2 ^ 1031).
    generalize dependent (2 ^ 53). intros. nia. }
  unfold valid, valid_binary, bounded, canonical_mantissa in *.
  rewrite andb_true_iff, Z.eqb_eq, Z.leb_le, fexp_eq in *.
  change (emax - prec) with 971 in *. lia.
Qed.

(** Dividing a finite float of at least 1024 by 1024 is exact. *)
Lemma SFdiv_1024 x :
  valid x -> is_fin x = true -> ival SF1024 <= ival x ->
  ival (SFdiv prec emax x SF1024) * 1024 = ival x.
Proof.
  intros Hx Fx Hge. change (ival SF1024) with (2 ^ 1084) in Hge.
  pose proof (pow2_pos 1084 ltac:(lia)) as Hp.
  destruct x as [s|s| |s mx ex]; try discriminate; cbn [ival] in Hge; [lia|].
  pose proof (ival_finite_pos _ _ _ Hx) as Hpos.
  destruct s; [lia|].
  pose proof (valid_div_1024 mx ex Hx Hge) as Hz.
  pose proof (valid_finite _ _ _ Hz) as (Hez & _).
  unfold SF1024.
  assert (H1024 : valid (S754_finite false 4503599627370496 (-42)))
    by reflexivity.
  rewrite (SFdiv_exact mx ex _ (-42) mx (ex - 10) Hx H1024 Hz).
  - cbn [ival]. replace (ex + 1074) with ((ex - 10 + 1074) + 10) by lia.
    rewrite (Z.pow_add_r 2 (ex - 10 + 1074) 10) by lia.
    change (2 ^ 10) with 1024. ring.
  - replace (ex + 1074) with ((ex - 10 + 1074) + 10) by lia.
    rewrite (Z.pow_add_r 2 (ex - 10 + 1074) 10) by lia.
    change (2 ^ 1074) with (2 ^ 52 * 2 ^ 1022).
    change (-42 + 1074) with 1032. change (2 ^ 1032) with (2 ^ 1022 * 2 ^ 10).
    change (Z.pos 4503599627370496) with (2 ^ 52).
    generalize (2 ^ (ex - 10 + 1074)) (2 ^ 52) (2 ^ 1022) (2 ^ 10).
    intros. ring.
Qed.

(** A finite positive float divided by itself is one. *)
Lemma SFdiv_self mx ex :
  valid (S754_finite false mx ex) ->
  ival (SFdiv prec emax (S754_finite false mx ex) (S754_finite false mx ex))
  = ival SFone.
Proof.
  intros Hx. unfold SFone.
  assert (H1 : valid (S754_finite false (Z.to_pos (2 ^ 52)) (-52)))
    by reflexivity.
  rewrite (SFdiv_exact mx ex mx ex (Z.to_pos (2 ^ 52)) (-52) Hx Hx H1);
    [reflexivity|].
  change (-52 + 1074) with 1022.
  change (Z.pos (Z.to_pos (2 ^ 52))) with (2 ^ 52).
  change (2 ^ 1074) with (2 ^ 52 * 2 ^ 1022).
  generalize (2 ^ (ex + 1074)) (2 ^ 52) (2 ^ 1022). intros. ring.
Qed.

(** Subtracting a non-negative float does not make a float larger. *)
Lemma SFsub_le_self x y :
  valid x -> valid y -> ord pzero y -> ord (SFsub prec emax x y) x.
Proof.
  intros Hx Hy Hy0. rewrite SFsub_add_opp.
  assert (Hz : SFadd prec emax x (S754_zero true) = x)
    by (destruct x as [[]|[]| |]; reflexivity).
  rewrite <- Hz at 2.
  apply SFadd_mono; try assumption; try reflexivity.
  - apply valid_SFopp, Hy.
  - apply ord_refl.
  - destruct Hy0 as [?|[->|H0]]; [discriminate|left; reflexivity|].
    right; right. rewrite ival_SFopp. cbn [ival] in *. lia.
Qed.

(** The conversion of a non-negative integer is the rounded integer. *)
Lemma ival_of_integer n :
  0 <= n ->
  ival (binary_normalize prec emax n 0 false) = rint (n * 2 ^ 1074).
Proof.
  intros Hn.
  destruct (binary_normalize_ival n 0 ltac:(lia)) as [_ ->].
  change (0 + 1074) with 1074. unfold rsigned.
  pose proof (pow2_pos 1074 ltac:(lia)).
  destruct (Z.ltb_spec (n * 2 ^ 1074) 0); [nia|reflexivity].
Qed.


(** A non-negative float divided by one that is not smaller lies between
    zero and one. *)
Lemma SFdiv_unit_interval a c :
  valid a -> valid c -> ord pzero a -> ord a c ->
  ord pzero (SFdiv prec emax a c) /\ ord (SFdiv prec emax a c) SFone.
Proof.
  intros Ha Hc [?|[->|H0a]];
    [discriminate|split; [right|]; left; apply SFdiv_nan_l|].
  intros [->|[->|Hac]];
    [split; [right|]; left; apply SFdiv_nan_l
    |split; [right|]; left; destruct a; reflexivity|].
  pose proof top_pos as Ht. cbn [ival] in H0a.
  assert (H1 : 0 < ival SFone) by reflexivity.
  destruct a as [sa|sa| |sa ma ea], c as [sc|sc| |sc mc ec];
    finite_facts; cbn [ival] in *;
    repeat match goal with
           | s : bool |- _ => destruct s
           end; cbn [ival] in *; try lia;
    try (split; [right|]; left; reflexivity);
    try (split; right; right; cbn [SFdiv ival xorb]; lia).
  split.
  - apply SFdiv_nonneg; try assumption; [right; right; cbn [ival]; lia|].
    split; [discriminate|cbn [ival]; lia].
  - pose proof (SFdiv_self mc ec Hc) as Hs.
    destruct (SFdiv_mono (S754_finite false ma ea) (S754_finite false mc ec)
                (S754_finite false mc ec) Ha Hc Hc) as [Hq|[Hq|Hq]].
    + right; right; cbn [ival]; lia.
    + right; right; cbn [ival]; lia.
    + split; [discriminate|cbn [ival]; lia].
    + left; exact Hq.
    + destruct (SFdiv_finite false mc ec false mc ec) as [N _].
      cbv zeta in N. contradiction.
    + right; right. rewrite <- Hs. exact Hq.
Qed.


(** Adding a non-negative float does not make a float smaller. *)
Lemma SFadd_ge_self x p :
  valid x -> valid p -> ord pzero p -> ord x (SFadd prec emax x p).
Proof.
  intros Hx Hp H0.
  destruct (SFadd_mono x x pzero p Hx Hx ltac:(reflexivity) Hp
              (ord_refl x) H0) as [H|[H|H]].
  - left. destruct x as [[]|[]| |]; try discriminate; reflexivity.
  - right; left; exact H.
  - right; right. etransitivity; [|exact H].
    destruct x as [[]|[]| |]; cbn [SFadd ival]; lia.
Qed.

(** A positive integer below [2^53] is a float. *)
Lemma integer_is_float n :
  0 < n < 2 ^ 53 ->
  exists m e,
    valid (S754_finite false m e) /\
    Z.pos m * 2 ^ (e + 1074) = n * 2 ^ 1074.
Proof.
  intros [H0 Hn]. pose proof (Zdigits2_bounds n H0) as [Hl Hu].
  pose proof (Zdigits2_pos n H0) as Hd.
  set (d := Zdigits2 n) in *.
  assert (Hd53 : d <= 53).
  { destruct (Z_le_gt_dec d 53); [assumption|].
    pose proof (pow2_le 53 (d - 1) ltac:(lia)). lia. }
  pose proof (pow2_pos (53 - d) ltac:(lia)) as HK.
  assert (Hm : 2 ^ 52 <= n * 2 ^ (53 - d) < 2 ^ 53).
  { assert (E52 : 2 ^ 52 = 2 ^ (d - 1) * 2 ^ (53 - d))
      by (rewrite <- Z.pow_add_r by lia; f_equal; lia).
    assert (E53 : 2 ^ 53 = 2 ^ d * 2 ^ (53 - d))
      by (rewrite <- Z.pow_add_r by lia; f_equal; lia).
    rewrite E52, E53. clear E52 E53 Hn.
    generalize dependent (2 ^ (53 - d)). generalize dependent (2 ^ (d - 1)).
    generalize dependent (2 ^ d). intros. nia. }
  assert (Hpos : 0 < n * 2 ^ (53 - d)) by nia.
  exists (Z.to_pos (n * 2 ^ (53 - d))), (d - 53). split.
  - unfold valid, valid_binary, bounded, canonical_mantissa.
    apply andb_true_iff.
    split; [|apply Z.leb_le; change (emax - prec) with 971; lia].
    apply Z.eqb_eq. rewrite fexp_eq.
    change (Z.pos (digits2_pos (Z.to_pos (n * 2 ^ (53 - d)))))
      with (Zdigits2 (Z.pos (Z.to_pos (n * 2 ^ (53 - d))))).
    rewrite Z2Pos.id by assumption.
    rewrite (Zdigits2_unique _ 53 ltac:(lia) Hm). lia.
  - rewrite Z2Pos.id by assumption.
    rewrite <- Z.mul_assoc, <- Z.pow_add_r by lia. do 2 f_equal. lia.
Qed.

(** An integer below [2^53] is not rounded. *)
Lemma rint_integer n : 0 <= n < 2 ^ 53 -> rint (n * 2 ^ 1074) = n * 2 ^ 1074.
Proof.
  intros [H0 Hn]. destruct (Z.eq_dec n 0) as [->|Hne]; [reflexivity|].
  destruct (integer_is_float n ltac:(lia)) as (m & e & Hv & <-).
  apply (rint_exact false m e Hv).
Qed.

End Binary64.

(** ** The same facts on primitive floats *)

Module Float.
Import Binary64.

(** [x] is not above [y]: [y < x] is false.  It holds when either is
    [NaN]. *)
Definition fle (x y : float) : Prop := (y <? x)%float = false.

Lemma fle_ord x y : fle x y <-> ord (Prim2SF x) (Prim2SF y).
Proof.
  unfold fle. rewrite FloatAxioms.ltb_spec.
  apply SFltb_false_ord; apply Prim2SF_valid.
Qed.

Lemma leb_fle x y : (x <=? y)%float = true -> fle x y.
Proof.
  rewrite FloatAxioms.leb_spec, fle_ord. intros H.
  apply SFleb_true in H as (_ & _ & H); try apply Prim2SF_valid.
  right; right; exact H.
Qed.

Lemma ltb_fle x y : (x <? y)%float = true -> fle x y.
Proof.
  rewrite FloatAxioms.ltb_spec, fle_ord. intros H.
  apply SFltb_true in H as (_ & _ & H); try apply Prim2SF_valid.
  right; right. apply Z.lt_le_incl, H.
Qed.

Lemma ltb_positive y : (0 <? y)%float = true -> positive_float (Prim2SF y).
Proof.
  rewrite FloatAxioms.ltb_spec. intros H.
  apply SFltb_true in H as (_ & N & H); try apply Prim2SF_valid.
  split; assumption.
Qed.

Lemma fle_refl x : fle x x.
Proof. apply fle_ord, ord_refl. Qed.

Lemma is_nan_false x :
  PrimFloat.is_nan x = false -> Prim2SF x <> S754_nan.
Proof.
  unfold PrimFloat.is_nan. rewrite FloatAxioms.eqb_spec.
  intros H E. rewrite E in H. discriminate.
Qed.

(** When neither is [NaN], [fle] is [<=]. *)
Lemma fle_leb x y :
  fle x y -> PrimFloat.is_nan x = false -> PrimFloat.is_nan y = false ->
  (x <=? y)%float = true.
Proof.
  rewrite fle_ord, FloatAxioms.leb_spec. intros Hle Nx Ny.
  apply is_nan_false in Nx, Ny.
  destruct Hle as [Hle|[Hle|Hle]]; [contradiction|contradiction|].
  unfold SFleb.
  rewrite (compare_ival _ _ (Prim2SF_valid x) (Prim2SF_valid y) Nx Ny).
  destruct (Z.compare_spec (ival (Prim2SF x)) (ival (Prim2SF y)));
    [reflexivity|reflexivity|lia].
Qed.

Lemma add_mono a a' b b' : fle a a' -> fle b b' -> fle (a + b) (a' + b').
Proof.
  rewrite !fle_ord, !FloatAxioms.add_spec.
  apply SFadd_mono; apply Prim2SF_valid.
Qed.

Lemma mul_mono_l x x' y :
  fle 0 x -> fle x x' -> fle 0 y -> fle (x * y) (x' * y).
Proof.
  rewrite !fle_ord, !FloatAxioms.mul_spec.
  apply SFmul_mono; apply Prim2SF_valid.
Qed.

Lemma mul_mono_r x y y' :
  fle 0 x -> fle 0 y -> fle y y' -> fle (x * y) (x * y').
Proof.
  rewrite !fle_ord, !FloatAxioms.mul_spec. intros Hx Hy Hyy.
  unfold SF64mul.
  rewrite (SFmul_comm (Prim2SF x)), (SFmul_comm (Prim2SF x) (Prim2SF y')).
  apply SFmul_mono; try apply Prim2SF_valid; assumption.
Qed.

Lemma mul_nonneg x y : fle 0 x -> fle 0 y -> fle 0 (x * y).
Proof.
  rewrite !fle_ord, !FloatAxioms.mul_spec.
  apply SFmul_nonneg; apply Prim2SF_valid.
Qed.

Lemma mul_ge_self x c : fle 0 x -> (1 <=? c)%float = true -> fle x (x * c).
Proof.
  rewrite !fle_ord, FloatAxioms.mul_spec, FloatAxioms.leb_spec. intros Hx Hc.
  apply SFleb_true in Hc as (_ & _ & Hc); try apply Prim2SF_valid.
  apply SFmul_ge_self; try apply Prim2SF_valid; [assumption|].
  right; right. exact Hc.
Qed.

Lemma div_mono x x' y :
  fle 0 x -> fle x x' -> (0 <? y)%float = true -> fle (x / y) (x' / y).
Proof.
  rewrite !fle_ord, !FloatAxioms.div_spec. intros Hx Hxx Hy.
  apply SFdiv_mono; try apply Prim2SF_valid; try assumption.
  apply ltb_positive, Hy.
Qed.

Lemma div_nonneg x y :
  fle 0 x -> (0 <? y)%float = true -> fle 0 (x / y).
Proof.
  rewrite !fle_ord, !FloatAxioms.div_spec. intros Hx Hy.
  apply SFdiv_nonneg; try apply Prim2SF_valid; try assumption.
  apply ltb_positive, Hy.
Qed.

Lemma sub_nonneg x y : fle y x -> fle 0 (x - y).
Proof.
  rewrite !fle_ord, FloatAxioms.sub_spec.
  apply SFsub_nonneg; apply Prim2SF_valid.
Qed.

(** ** Exact divisions, [Math.ceil] and further order facts *)
Lemma is_nan_true x : PrimFloat.is_nan x = true -> Prim2SF x = S754_nan.
Proof.
  unfold PrimFloat.is_nan. rewrite FloatAxioms.eqb_spec.
  destruct (Prim2SF x) as [[]|[]| |[] m e] eqn:E; cbn; try discriminate;
    try reflexivity.
  - unfold SFeqb. cbn. rewrite Z.compare_refl, Pos.compare_cont_refl.
    discriminate.
  - unfold SFeqb. cbn. rewrite Z.compare_refl, Pos.compare_cont_refl.
    discriminate.
Qed.

(** [fle] is transitive through a number. *)
Lemma fle_trans x y z :
  PrimFloat.is_nan y = false -> fle x y -> fle y z -> fle x z.
Proof.
  rewrite !fle_ord. intros N. apply ord_trans, is_nan_false, N.
Qed.

Lemma sub_le_self x y : fle 0 y -> fle (x - y) x.
Proof.
  rewrite !fle_ord, FloatAxioms.sub_spec.
  apply SFsub_le_self; apply Prim2SF_valid.
Qed.

Lemma add_ge_self x p : fle 0 p -> fle x (x + p).
Proof.
  rewrite !fle_ord, FloatAxioms.add_spec.
  apply SFadd_ge_self; apply Prim2SF_valid.
Qed.

Lemma div_unit_interval a c :
  fle 0 a -> fle a c -> fle 0 (a / c) /\ fle (a / c) 1.
Proof.
  rewrite !fle_ord, FloatAxioms.div_spec.
  apply SFdiv_unit_interval; apply Prim2SF_valid.
Qed.

(** Dividing a number of at least 1024 by 1024 is exact. *)
Lemma div_1024_exact x :
  (1024 <=? x)%float = true -> PrimFloat.is_infinity x = false ->
  (ival (Prim2SF (x / 1024)) * 1024 = ival (Prim2SF x))%Z.
Proof.
  rewrite FloatAxioms.leb_spec. intros Hle Hinf.
  apply SFleb_true in Hle as (_ & Nx & Hle); try apply Prim2SF_valid.
  rewrite FloatAxioms.div_spec.
  apply SFdiv_1024; [apply Prim2SF_valid| |exact Hle].
  unfold PrimFloat.is_infinity in Hinf.
  rewrite FloatAxioms.eqb_spec, FloatAxioms.abs_spec in Hinf.
  destruct (Prim2SF x) as [s|s| |s m e]; try reflexivity; try contradiction.
  destruct s; discriminate.
Qed.


(** The conversion of an integer below [2^63], as [Math.ceil] uses it. *)
Lemma ival_of_uint63 n :
  (0 <= n < 2 ^ 63)%Z ->
  ival (Prim2SF (of_uint63 (Uint63.of_Z n))) = rint (n * 2 ^ 1074).
Proof.
  intros Hn. rewrite FloatAxioms.of_uint63_spec, Uint63.of_Z_spec.
  change wB with (2 ^ 63)%Z. rewrite Z.mod_small by lia.
  apply ival_of_integer. lia.
Qed.

(** [Math.ceil] never rounds down. *)
Lemma Math_ceil_ge x : fle x (Math_ceil x).
Proof.
  rewrite fle_ord. unfold Math_ceil.
  pose proof (Prim2SF_valid x) as Hv.
  destruct (Prim2SF x) as [s|s| |s m e] eqn:E;
    try (rewrite E; apply ord_refl).
  destruct (Z.leb_spec 0 e) as [|He]; [rewrite E; apply ord_refl|].
  pose proof (valid_finite _ _ _ Hv) as (Hex & Hm & _).
  pose proof (rint_exact s m e Hv) as Hr.
  pose proof (pow2_pos (- e) ltac:(lia)) as HP.
  pose proof (pow2_pos (e + 1074) ltac:(lia)) as HQ.
  assert (HPQ : (2 ^ 1074 = 2 ^ (e + 1074) * 2 ^ (- e))%Z).
  { rewrite <- Z.pow_add_r by lia. f_equal. lia. }
  assert (H63 : (2 ^ 53 < 2 ^ 63)%Z) by reflexivity.
  right; right. destruct s.
  - pose proof (Z.div_mod (Z.pos m) (2 ^ (- e)) ltac:(lia)) as Hdm.
    pose proof (Z.mod_pos_bound (Z.pos m) (2 ^ (- e)) HP) as Hmod.
    assert (Hq : (0 <= Z.pos m / 2 ^ (- e) <= Z.pos m)%Z).
    { split; [apply Z.div_pos; lia|]. apply Z.div_le_upper_bound; nia. }
    destruct (Z.eqb_spec (- (Z.pos m / 2 ^ (- e))) 0) as [|Hn0].
    + cbn [ival]. change (ival (Prim2SF neg_zero)) with 0%Z. lia.
    + destruct (Z.ltb_spec (- (Z.pos m / 2 ^ (- e))) 0) as [Hneg|]; [|lia].
      rewrite FloatAxioms.opp_spec, ival_SFopp, Z.opp_involutive.
      rewrite ival_of_uint63 by lia. cbn [ival]. rewrite <- Hr.
      apply Z.opp_le_mono. rewrite !Z.opp_involutive.
      apply rint_mono. rewrite HPQ.
      generalize dependent (2 ^ (- e))%Z.
      generalize dependent (2 ^ (e + 1074))%Z. intros. nia.
  - pose proof (Z.div_mod (- Z.pos m) (2 ^ (- e)) ltac:(lia)) as Hdm.
    pose proof (Z.mod_pos_bound (- Z.pos m) (2 ^ (- e)) HP) as Hmod.
    set (q := (- Z.pos m / 2 ^ (- e))%Z) in *.
    assert (Hq : (1 <= - q <= Z.pos m)%Z) by nia.
    destruct (Z.eqb_spec (- q) 0) as [|Hn0]; [lia|].
    destruct (Z.ltb_spec (- q) 0) as [|Hpos]; [lia|].
    rewrite ival_of_uint63 by lia. cbn [ival]. rewrite <- Hr.
    apply rint_mono. rewrite HPQ.
    generalize dependent (2 ^ (- e))%Z.
    generalize dependent (2 ^ (e + 1074))%Z. intros. nia.
Qed.

(** [Math.ceil] of a number that is not negative is not negative. *)
Lemma Math_ceil_nonneg x : fle 0 x -> fle 0 (Math_ceil x).
Proof.
  intros H0. destruct (PrimFloat.is_nan x) eqn:N.
  - apply is_nan_true in N. rewrite fle_ord. right; left.
    unfold Math_ceil. rewrite N. exact N.
  - apply (fle_trans 0 x); [assumption|assumption|apply Math_ceil_ge].
Qed.

Lemma not_nan_is_nan x : Prim2SF x <> S754_nan -> PrimFloat.is_nan x = false.
Proof.
  intros N. destruct (PrimFloat.is_nan x) eqn:E; [|reflexivity].
  apply is_nan_true in E. contradiction.
Qed.

Lemma is_infinity_false x :
  PrimFloat.is_infinity x = false <->
  (forall s, Prim2SF x <> S754_infinity s).
Proof.
  unfold PrimFloat.is_infinity.
  rewrite FloatAxioms.eqb_spec, FloatAxioms.abs_spec.
  destruct (Prim2SF x) as [s|s| |s m e]; cbn; split; try discriminate;
    try reflexivity; intros H; try (exfalso; apply (H s); reflexivity).
  all: destruct s; try discriminate.
Qed.

(** A number of at least 1024 is at least 1 after the division by 1024,
    and the quotient is a number. *)
Lemma div_1024_ge_one x :
  (1024 <=? x)%float = true -> (1 <=? x / 1024)%float = true.
Proof.
  intros Hle. apply fle_leb; [| reflexivity |].
  - change 1%float with (1024 / 1024)%float.
    apply div_mono; [reflexivity|apply leb_fle, Hle|reflexivity].
  - apply not_nan_is_nan. rewrite FloatAxioms.leb_spec in Hle.
    apply SFleb_true in Hle as (_ & Nx & Hle); try apply Prim2SF_valid.
    rewrite FloatAxioms.div_spec. change (Prim2SF 1024) with SF1024.
    change (ival SF1024) with (2 ^ 1084)%Z in Hle.
    pose proof (pow2_pos 1084 ltac:(lia)).
    destruct (Prim2SF x) as [s|s| |s m e]; cbn [ival] in Hle;
      try contradiction; try discriminate; try lia.
    apply (SFdiv_finite s m e false 4503599627370496 (-42)).
Qed.

(** The exact division keeps a finite number finite. *)
Lemma div_1024_finite x :
  (1024 <=? x)%float = true -> PrimFloat.is_infinity x = false ->
  PrimFloat.is_infinity (x / 1024) = false.
Proof.
  intros Hle Hinf. pose proof (div_1024_exact x Hle Hinf) as Hex.
  pose proof (div_1024_ge_one x Hle) as H1.
  apply is_infinity_false. intros s E. rewrite E in Hex.
  pose proof top_pos. pose proof (proj1 (is_infinity_false x) Hinf) as Hi.
  assert (Hx : (- top < ival (Prim2SF x) < top)%Z).
  { destruct (shape (Prim2SF x) (Prim2SF_valid x)) as [N|[[_ Hb]|[I|I]]].
    - rewrite N. cbn [ival]. lia.
    - exact Hb.
    - destruct (Hi false I).
    - destruct (Hi true I). }
  destruct s; cbn [ival] in Hex; lia.
Qed.

Lemma fle_nan_r x y : PrimFloat.is_nan y = true -> fle x y.
Proof.
  intros N. apply fle_ord. right; left. apply is_nan_true, N.
Qed.

Lemma add_nonneg a b : fle 0 a -> fle 0 b -> fle 0 (a + b).
Proof. intros Ha Hb. apply (Float.add_mono 0 a 0 b Ha Hb). Qed.

(** The conversion of an integer below [2^53] is exact. *)
Lemma ival_of_uint63_exact n :
  (0 <= n < 2 ^ 53)%Z ->
  ival (Prim2SF (of_uint63 (Uint63.of_Z n))) = (n * 2 ^ 1074)%Z.
Proof.
  intros Hn. assert (H63 : (2 ^ 53 < 2 ^ 63)%Z) by reflexivity.
  rewrite ival_of_uint63 by lia. apply rint_integer, Hn.
Qed.

Lemma is_finite_is_fin x :
  PrimFloat.is_finite x = true -> is_fin (Prim2SF x) = true.
Proof.
  unfold PrimFloat.is_finite. rewrite negb_true_iff, orb_false_iff.
  intros [N I]. apply is_nan_false in N.
  pose proof (proj1 (is_infinity_false x) I) as Hi.
  destruct (Prim2SF x) as [s|s| |s m e]; try reflexivity.
  - destruct (Hi s eq_refl).
  - contradiction.
Qed.

(** [Math.ceil] of a finite number is the least whole number that is not
    below it.  Values are in units of [2^-1074], so the whole number [n]
    has the value [n * 2^1074]. *)
Lemma Math_ceil_spec x :
  is_fin (Prim2SF x) = true ->
  exists n : Z,
    ival (Prim2SF (Math_ceil x)) = (n * 2 ^ 1074)%Z /\
    ((n - 1) * 2 ^ 1074 < ival (Prim2SF x) <= n * 2 ^ 1074)%Z.
Proof.
  intros Hfin. unfold Math_ceil.
  pose proof (Prim2SF_valid x) as Hv.
  pose proof (pow2_pos 1074 ltac:(lia)) as H1.
  destruct (Prim2SF x) as [s|s| |s m e] eqn:E; try discriminate.
  - exists 0%Z. rewrite E. cbn [ival]. lia.
  - pose proof (valid_finite _ _ _ Hv) as (Hex & Hm & _).
    assert (H63 : (2 ^ 53 < 2 ^ 63)%Z) by reflexivity.
    destruct (Z.leb_spec 0 e) as [He|He].
    + rewrite E. cbn [ival].
      assert (HP : (2 ^ (e + 1074) = 2 ^ e * 2 ^ 1074)%Z)
        by (apply Z.pow_add_r; lia).
      pose proof (pow2_pos e He).
      destruct s; [exists (- (Z.pos m * 2 ^ e))%Z|exists (Z.pos m * 2 ^ e)%Z];
        rewrite HP; generalize dependent (2 ^ 1074)%Z;
        generalize dependent (2 ^ e)%Z; intros; nia.
    + pose proof (pow2_pos (- e) ltac:(lia)) as HP.
      pose proof (pow2_pos (e + 1074) ltac:(lia)) as HQ.
      assert (HPQ : (2 ^ 1074 = 2 ^ (e + 1074) * 2 ^ (- e))%Z).
      { rewrite <- Z.pow_add_r by lia. f_equal. lia. }
      destruct s.
      * pose proof (Z.div_mod (Z.pos m) (2 ^ (- e)) ltac:(lia)) as Hdm.
        pose proof (Z.mod_pos_bound (Z.pos m) (2 ^ (- e)) HP) as Hmod.
        assert (Hq : (0 <= Z.pos m / 2 ^ (- e) <= Z.pos m)%Z).
        { split; [apply Z.div_pos; lia|].
          apply Z.div_le_upper_bound; nia. }
        exists (- (Z.pos m / 2 ^ (- e)))%Z. split.
        -- destruct (Z.eqb_spec (- (Z.pos m / 2 ^ (- e))) 0) as [E0|Hn0].
           ++ rewrite E0. reflexivity.
           ++ destruct (Z.ltb_spec (- (Z.pos m / 2 ^ (- e))) 0) as [Hneg|];
                [|lia].
              rewrite FloatAxioms.opp_spec, ival_SFopp, Z.opp_involutive.
              rewrite ival_of_uint63_exact by lia. lia.
        -- cbn [ival]. rewrite HPQ.
           generalize dependent (2 ^ (- e))%Z.
           generalize dependent (2 ^ (e + 1074))%Z. intros. nia.
      * pose proof (Z.div_mod (- Z.pos m) (2 ^ (- e)) ltac:(lia)) as Hdm.
        pose proof (Z.mod_pos_bound (- Z.pos m) (2 ^ (- e)) HP) as Hmod.
        set (q := (- Z.pos m / 2 ^ (- e))%Z) in *.
        assert (Hq : (1 <= - q <= Z.pos m)%Z) by nia.
        exists (- q)%Z. split.
        -- destruct (Z.eqb_spec (- q) 0) as [|Hn0]; [lia|].
           destruct (Z.ltb_spec (- q) 0) as [|Hpos]; [lia|].
           apply ival_of_uint63_exact. lia.
        -- cbn [ival]. rewrite HPQ.
           generalize dependent (2 ^ (- e))%Z.
           generalize dependent (2 ^ (e + 1074))%Z. intros. nia.
Qed.

(** A comparison that holds is between two numbers. *)
Lemma leb_not_nan x y :
  (x <=? y)%float = true ->
  PrimFloat.is_nan x = false /\ PrimFloat.is_nan y = false.
Proof.
  rewrite FloatAxioms.leb_spec. intros H.
  apply SFleb_true in H as (Nx & Ny & _); try apply Prim2SF_valid.
  split; apply not_nan_is_nan; assumption.
Qed.

Lemma leb_trans x y z :
  (x <=? y)%float = true -> (y <=? z)%float = true -> (x <=? z)%float = true.
Proof.
  intros Hxy Hyz.
  destruct (leb_not_nan x y Hxy) as [Nx Ny].
  destruct (leb_not_nan y z Hyz) as [_ Nz].
  apply fle_leb; [|assumption|assumption].
  apply (fle_trans x y z Ny); apply leb_fle; assumption.
Qed.

(** The division by 1024 keeps the order of numbers of at least 1024. *)
Lemma div_1024_mono x y :
  (1024 <=? x)%float = true -> (x <=? y)%float = true ->
  (x / 1024 <=? y / 1024)%float = true.
Proof.
  intros Hx Hxy. pose proof (leb_trans 1024 x y Hx Hxy) as Hy.
  apply fle_leb.
  - apply div_mono; [|apply leb_fle, Hxy|reflexivity].
    apply (fle_trans 0 1024 x); [reflexivity|reflexivity|apply leb_fle, Hx].
  - apply (leb_not_nan 1 _ (div_1024_ge_one x Hx)).
  - apply (leb_not_nan 1 _ (div_1024_ge_one y Hy)).
Qed.

(** A comparison of two numbers that fails is the strict order the other
    way. *)
Lemma leb_false_lt x y :
  (x <=? y)%float = false ->
  PrimFloat.is_nan x = false -> PrimFloat.is_nan y = false ->
  (ival (Prim2SF y) < ival (Prim2SF x))%Z.
Proof.
  rewrite FloatAxioms.leb_spec. intros H Nx Ny.
  apply is_nan_false in Nx, Ny. unfold SFleb in H.
  rewrite (compare_ival _ _ (Prim2SF_valid x) (Prim2SF_valid y) Nx Ny) in H.
  destruct (Z.compare_spec (ival (Prim2SF x)) (ival (Prim2SF y)));
    try discriminate; lia.
Qed.

Lemma leb_true_le x y :
  (x <=? y)%float = true -> (ival (Prim2SF x) <= ival (Prim2SF y))%Z.
Proof.
  rewrite FloatAxioms.leb_spec. intros H.
  apply SFleb_true in H as (_ & _ & H); try apply Prim2SF_valid. exact H.
Qed.

End Float.

(** * The claims *)

(** ** Empty portfolio *)

(** C1, as the code behaves: on the empty sequence [processServerCosts]
    does not fail.  The loop body never runs and the call returns the
    summary whose totals, monthly savings and ROI months are all [0] and
    whose per-server mapping is empty. *)
Theorem processServerCosts_empty_returns_zeros :
  call_processServerCosts [] =
  JS.Return {| totalMigrationCost := 0;
               monthlyCloudCost := 0;
               currentCosts := 0;
               monthlySavings := 0;
               roiMonths := 0;
               serverCosts := ∅ |}.
Proof. reflexivity. Qed.

(** C1, as stated, fails: the call on the empty sequence does not end
    with [EmptyPortfolio]. *)
Lemma processServerCosts_empty_does_not_throw :
  call_processServerCosts [] <> JS.Throw JS.EmptyPortfolio.
Proof. discriminate. Qed.

(** The division by the server count in [displayResults] does not fail
    either: for no servers it is [0 / 0], that is [NaN]. *)
Lemma averageComplexity_empty :
  PrimFloat.is_nan (averageComplexity []) = true.
Proof. reflexivity. Qed.

(** ** Cost reduction with zero current costs *)

(** Whatever the portfolio, when [currentCosts] is zero the percentage
    computed in [displayCostAnalysis] is [NaN] or an infinity: the
    division is not guarded. *)
Lemma costReduction_unguarded (costData : PortfolioCostSummary) :
  (currentCosts costData =? 0)%float = true ->
  PrimFloat.is_nan (costReduction (displayCostAnalysis costData)) = true \/
  PrimFloat.is_infinity (costReduction (displayCostAnalysis costData)) = true.
Proof.
  cbn [displayCostAnalysis costReduction].
  generalize (currentCosts costData - monthlyCloudCost costData)%float.
  generalize (currentCosts costData). clear costData. intros c n Hc.
  unfold PrimFloat.is_nan, PrimFloat.is_infinity.
  rewrite !FloatAxioms.eqb_spec, FloatAxioms.abs_spec,
    !FloatAxioms.mul_spec, !FloatAxioms.div_spec.
  rewrite FloatAxioms.eqb_spec in Hc.
  assert (Hz : exists s, Prim2SF c = S754_zero s).
  { destruct (Prim2SF c) as [s|s| |s m e]; try destruct s; try discriminate;
      eexists; reflexivity. }
  destruct Hz as [s ->].
  change (Prim2SF 100) with (S754_finite false 7036874417766400 (-46)).
  change (Prim2SF infinity) with (S754_infinity false).
  destruct (Prim2SF n) as [sn|sn| |sn mn en]; cbn; auto.
Qed.

(** C2, the code at a failing input: for the portfolio of one idle
    server [currentCosts] is [0] and the cost-reduction percentage is
    [NaN], neither a [DivisionByZero] failure nor the sentinel [0]. *)
Theorem costReduction_idle_server_is_NaN :
  currentCosts (processServerCosts [idle_server]) = 0%float /\
  PrimFloat.is_nan
    (costReduction (displayCostAnalysis (processServerCosts [idle_server])))
  = true.
Proof. split; reflexivity. Qed.

(** ** Roadmap with no phases *)

(** C3, as stated, fails: a roadmap whose timeline is present but empty
    is rendered (project summary, then no phase), not replaced by the
    "unavailable" notice. *)
Lemma displayMigrationRoadmap_empty_timeline_is_rendered :
  displayMigrationRoadmap
    (Some {| projectSummary := Some kickoff_summary; timeline := Some [] |})
  <> JS.Return Unavailable.
Proof. discriminate. Qed.

(** C3, as the code behaves: when the roadmap or its timeline is absent
    the "unavailable" notice is returned and nothing is thrown; when the
    timeline is present but empty, the project summary is rendered with an
    empty list of phases. *)
Theorem displayMigrationRoadmap_absent_or_empty (roadmap : option Roadmap) :
  (roadmap ≫= timeline = None ->
   displayMigrationRoadmap roadmap = JS.Return Unavailable) /\
  (forall r summary,
     roadmap = Some r -> timeline r = Some [] ->
     projectSummary r = Some summary ->
     displayMigrationRoadmap roadmap = JS.Return (Rendered summary [])).
Proof.
  split.
  - destruct roadmap as [r|]; [|reflexivity]. cbn. intros ->. reflexivity.
  - intros r summary -> Ht Hs. unfold displayMigrationRoadmap.
    rewrite Ht, Hs. reflexivity.
Qed.

Lemma displayMigrationRoadmap_absent_or_empty_witness :
  (None ≫= timeline = None /\
   displayMigrationRoadmap None = JS.Return Unavailable) /\
  (Some {| projectSummary := None; timeline := None |} ≫= timeline = None /\
   displayMigrationRoadmap
     (Some {| projectSummary := None; timeline := None |})
   = JS.Return Unavailable) /\
  displayMigrationRoadmap
    (Some {| projectSummary := Some kickoff_summary; timeline := Some [] |})
  = JS.Return (Rendered kickoff_summary []).
Proof.
  split; [|split]; [split; [reflexivity|]|split; [reflexivity|]|].
  - apply (displayMigrationRoadmap_absent_or_empty None). reflexivity.
  - apply (displayMigrationRoadmap_absent_or_empty
             (Some {| projectSummary := None; timeline := None |})).
    reflexivity.
  - apply (proj2 (displayMigrationRoadmap_absent_or_empty
                    (Some {| projectSummary := Some kickoff_summary;
                             timeline := Some [] |}))
             {| projectSummary := Some kickoff_summary; timeline := Some [] |}
             kickoff_summary); reflexivity.
Defined.

(** ** Return on investment *)

(** When [monthlySavings] is [NaN] the comparison [monthlySavings > 0] is
    false as well, and [roiMonths] is [0]. *)
Lemma roiMonths_NaN (servers : list Server) :
  PrimFloat.is_nan (monthlySavings (processServerCosts servers)) = true ->
  roiMonths (processServerCosts servers) = 0%float.
Proof.
  unfold processServerCosts. cbn. unfold PrimFloat.is_nan.
  set (ms := (_ - _)%float). intros H.
  assert (Hlt : (0 <? ms)%float = false).
  { rewrite FloatAxioms.ltb_spec. rewrite FloatAxioms.eqb_spec in H.
    revert H.
    destruct (Prim2SF ms) as [s|s| |s m e]; intros H; try reflexivity; exfalso.
    - destruct s; discriminate.
    - unfold SFeqb, SFcompare in H. destruct s; rewrite Z.compare_refl,
        Pos.compare_cont_refl in H; discriminate. }
  rewrite Hlt. reflexivity.
Qed.

(** C4: for every non-empty portfolio, [roiMonths] is the ceiling of
    [totalMigrationCost / monthlySavings] when the aggregated
    [monthlySavings] is above [0], and is [0] in every other case: when
    [monthlySavings] is at most [0], and also when it is [NaN], which is
    neither above nor at most [0]. *)
Theorem roiMonths_spec (servers : list Server) :
  servers <> [] ->
  let summary := processServerCosts servers in
  ((0 <? monthlySavings summary)%float = true ->
   roiMonths summary =
   Math_ceil (totalMigrationCost summary / monthlySavings summary)%float) /\
  ((0 <? monthlySavings summary)%float = false ->
   roiMonths summary = 0%float) /\
  ((monthlySavings summary <=? 0)%float = true ->
   roiMonths summary = 0%float) /\
  (PrimFloat.is_nan (monthlySavings summary) = true ->
   roiMonths summary = 0%float).
Proof.
  intros _ summary. subst summary.
  split; [|split; [|split]]; try apply roiMonths_NaN;
    unfold processServerCosts; cbn; intros H.
  - rewrite H. reflexivity.
  - rewrite H. reflexivity.
  - apply Float.leb_fle in H. unfold Float.fle in H. rewrite H. reflexivity.
Qed.

Lemma roiMonths_spec_witness :
  [web_server] <> [] /\
  (0 <? monthlySavings (processServerCosts [web_server]))%float = true /\
  roiMonths (processServerCosts [web_server]) = 349%float /\
  (monthlySavings (processServerCosts [idle_server]) <=? 0)%float = true /\
  roiMonths (processServerCosts [idle_server]) = 0%float /\
  PrimFloat.is_nan (monthlySavings (processServerCosts [overflowing_server]))
    = true /\
  roiMonths (processServerCosts [overflowing_server]) = 0%float.
Proof.
  split; [discriminate|]. split; [reflexivity|].
  split; [|split; [reflexivity|split; [|split; [reflexivity|]]]].
  - rewrite (proj1 (roiMonths_spec [web_server] ltac:(discriminate)));
      reflexivity.
  - apply (proj1 (proj2 (proj2
             (roiMonths_spec [idle_server] ltac:(discriminate))))).
    reflexivity.
  - apply (proj2 (proj2 (proj2
             (roiMonths_spec [overflowing_server] ltac:(discriminate))))).
    reflexivity.
Defined.

(** For the portfolio of [overflowing_server] alone, [monthlySavings] is
    [NaN]: it is not at most [0], yet [roiMonths] is [0] while the ceiling
    of [totalMigrationCost / monthlySavings] is [NaN]. *)
Lemma roiMonths_not_ceiling_for_NaN_savings :
  let summary := processServerCosts [overflowing_server] in
  [overflowing_server] <> [] /\
  (monthlySavings summary <=? 0)%float = false /\
  roiMonths summary = 0%float /\
  PrimFloat.is_nan
    (Math_ceil (totalMigrationCost summary / monthlySavings summary)%float)
    = true /\
  roiMonths summary <>
  Math_ceil (totalMigrationCost summary / monthlySavings summary)%float.
Proof.
  cbv zeta. split; [discriminate|]. split; [reflexivity|].
  split; [reflexivity|]. split; [reflexivity|].
  intros H. apply (f_equal PrimFloat.is_nan) in H. vm_compute in H.
  discriminate.
Qed.

(** ** Per-server breakdown *)

(** C5: the four figures of a server's breakdown are related as the
    formulas say, with the markup [1.4]; the arithmetic is that of
    doubles. *)
Theorem calculateServerCosts_formulas (server : Server) :
  let costs := calculateServerCosts server in
  projectedMonthlyCost costs =
    (calculateComputeCost (metrics (serverData server))
     + calculateStorageCost (metrics (serverData server))
     + calculateNetworkCost (networkUtilization (serverData server)))%float /\
  currentMonthlyCost costs = (projectedMonthlyCost costs * 1.4)%float /\
  migrationCost costs =
    JS.mul (getBaselineMigrationCost (strategy (migrationStrategy server)))
           (getComplexityMultiplier (level (complexity server))) /\
  savings costs =
    (currentMonthlyCost costs - projectedMonthlyCost costs)%float.
Proof. repeat split. Qed.

Section WorkedExample.

(** The fields the worked example leaves open. *)
Variables (id name : string) (apps services : list string) (descr : string).
Variables (mem : Space) (storage_used pct : float).

Definition replatform_medium_server : Server :=
  {| serverData :=
       {| serverId := id;
          serverName := name;
          applications := apps;
          metrics :=
            {| cpu := {| cores := 4; utilization := 50 |};
               memory := mem;
               storage := {| total := 1048576; used := storage_used |} |};
          networkUtilization := {| bandwidth := 100; averageUsage := 50 |} |};
     migrationStrategy :=
       {| strategy := "Replatform";
          description := descr;
          aws_services := services |};
     complexity := {| level := "Medium"; percentage := pct |} |}.

(** C6: for the server with 4 cores at 50% utilization, 1,048,576 KB of
    storage, bandwidth 100 at 50% average usage, strategy Replatform and
    complexity Medium, the compute cost is 6000, the storage cost 100, the
    network cost 2500, the projected monthly cost 8600, the current
    monthly cost 12040, the migration cost 1,200,000 and the savings
    3440. *)
Theorem worked_example :
  let server := replatform_medium_server in
  let costs := calculateServerCosts server in
  calculateComputeCost (metrics (serverData server)) = 6000%float /\
  calculateStorageCost (metrics (serverData server)) = 100%float /\
  calculateNetworkCost (networkUtilization (serverData server)) = 2500%float /\
  projectedMonthlyCost costs = 8600%float /\
  currentMonthlyCost costs = 12040%float /\
  migrationCost costs = 1200000%float /\
  savings costs = 3440%float.
Proof. repeat split. Qed.

End WorkedExample.

(** ** Lookup tables *)

Lemma baseline_costs_lookup_other (strategy : string) :
  strategy <> "Rehost" -> strategy <> "Replatform" -> strategy <> "Refactor" ->
  baseline_costs !! strategy = None.
Proof.
  intros H1 H2 H3. unfold baseline_costs.
  rewrite !lookup_insert_ne by congruence.
  apply lookup_singleton_ne. congruence.
Qed.

Lemma multipliers_lookup_other (level : string) :
  level <> "High" -> level <> "Medium" -> level <> "Low" ->
  multipliers !! level = None.
Proof.
  intros H1 H2 H3. unfold multipliers.
  rewrite !lookup_insert_ne by congruence.
  apply lookup_singleton_ne. congruence.
Qed.

(** The documented constants, and the fallback for every key that is
    neither in the table nor the name of a member of
    [Object.prototype]. *)
Lemma lookup_tables_documented :
  getBaselineMigrationCost "Rehost" = JS.Num 500000 /\
  getBaselineMigrationCost "Replatform" = JS.Num 1000000 /\
  getBaselineMigrationCost "Refactor" = JS.Num 2000000 /\
  getComplexityMultiplier "High" = JS.Num 1.5 /\
  getComplexityMultiplier "Medium" = JS.Num 1.2 /\
  getComplexityMultiplier "Low" = JS.Num 1.0 /\
  (forall strategy,
     strategy <> "Rehost" -> strategy <> "Replatform" ->
     strategy <> "Refactor" -> strategy ∉ JS.object_prototype_names ->
     getBaselineMigrationCost strategy = JS.Num 500000) /\
  (forall level,
     level <> "High" -> level <> "Medium" -> level <> "Low" ->
     level ∉ JS.object_prototype_names ->
     getComplexityMultiplier level = JS.Num 1.0).
Proof.
  repeat split; try reflexivity.
  - intros strategy H1 H2 H3 Hp. unfold getBaselineMigrationCost, JS.get.
    rewrite baseline_costs_lookup_other by assumption.
    rewrite bool_decide_eq_false_2 by assumption. reflexivity.
  - intros level H1 H2 H3 Hp. unfold getComplexityMultiplier, JS.get.
    rewrite multipliers_lookup_other by assumption.
    rewrite bool_decide_eq_false_2 by assumption. reflexivity.
Qed.

(** C7, the code at a failing input: for the unrecognised strategy
    ["constructor"] the table lookup finds the inherited
    [Object.prototype.constructor], which is truthy, so the fallback to the
    Rehost value is not taken; the same happens for the level.  The
    migration cost computed from such a value is [NaN]. *)
Theorem lookup_inherited_key :
  getBaselineMigrationCost "constructor" = JS.Inherited "constructor" /\
  getBaselineMigrationCost "constructor" <> JS.Num 500000 /\
  getComplexityMultiplier "toString" = JS.Inherited "toString" /\
  getComplexityMultiplier "toString" <> JS.Num 1.0 /\
  PrimFloat.is_nan
    (JS.mul (getBaselineMigrationCost "constructor")
            (getComplexityMultiplier "Low")) = true.
Proof. repeat split; discriminate. Qed.

(** ** Aggregation with a repeated server id *)

Lemma fold_add_server_totals (servers : list Server) : forall acc,
  acc_totalMigrationCost (fold_left add_server servers acc) =
    fold_left (fun sum server =>
                 (sum + migrationCost (calculateServerCosts server))%float)
              servers (acc_totalMigrationCost acc) /\
  acc_monthlyCloudCost (fold_left add_server servers acc) =
    fold_left (fun sum server =>
                 (sum
                  + projectedMonthlyCost (calculateServerCosts server))%float)
              servers (acc_monthlyCloudCost acc) /\
  acc_currentCosts (fold_left add_server servers acc) =
    fold_left (fun sum server =>
                 (sum + currentMonthlyCost (calculateServerCosts server))%float)
              servers (acc_currentCosts acc).
Proof.
  induction servers as [|server servers IH]; intros acc; [repeat split|].
  cbn [fold_left]. apply (IH (add_server acc server)).
Qed.

Lemma fold_add_server_lookup_later (servers : list Server) (id : string) :
  forall acc,
    Forall (fun server => serverId (serverData server) <> id) servers ->
    acc_serverCosts (fold_left add_server servers acc) !! id =
    acc_serverCosts acc !! id.
Proof.
  induction servers as [|server servers IH]; intros acc Hall; [reflexivity|].
  inversion Hall as [|? ? Hne Hrest]; subst. cbn [fold_left].
  rewrite (IH _ Hrest). cbn [add_server acc_serverCosts].
  apply lookup_insert_ne. assumption.
Qed.

(** C9: when a server id occurs more than once, the mapping holds for it
    the breakdown of its last occurrence, and the three totals are the
    sums over every server of the sequence, repeated ids included. *)
Theorem processServerCosts_duplicate_ids
  (before between after : list Server) (earlier last : Server) :
  serverId (serverData earlier) = serverId (serverData last) ->
  Forall (fun server =>
            serverId (serverData server) <> serverId (serverData last))
         after ->
  let servers := (before ++ earlier :: between ++ last :: after)%list in
  let summary := processServerCosts servers in
  serverCosts summary !! serverId (serverData last)
    = Some (calculateServerCosts last) /\
  totalMigrationCost summary = sum_of migrationCost servers /\
  monthlyCloudCost summary = sum_of projectedMonthlyCost servers /\
  currentCosts summary = sum_of currentMonthlyCost servers.
Proof.
  intros _ Hafter servers summary. split.
  - subst summary servers. unfold processServerCosts. cbn [serverCosts].
    rewrite app_comm_cons, app_assoc, fold_left_app. cbn [fold_left].
    rewrite (fold_add_server_lookup_later after _ _ Hafter).
    cbn [add_server acc_serverCosts]. apply lookup_insert_eq.
  - destruct (fold_add_server_totals servers initial_totals) as (H1 & H2 & H3).
    repeat split; assumption.
Qed.

Lemma processServerCosts_duplicate_ids_witness :
  serverId (serverData web_server)
  = serverId (serverData web_server_resized) /\
  serverCosts
    (processServerCosts [web_server; idle_server; web_server_resized])
    !! "srv-001"
  = Some (calculateServerCosts web_server_resized) /\
  projectedMonthlyCost (calculateServerCosts web_server_resized)
  = 14600%float /\
  totalMigrationCost
    (processServerCosts [web_server; idle_server; web_server_resized])
  = (0 + 1200000 + 500000 + 3000000)%float /\
  monthlyCloudCost
    (processServerCosts [web_server; idle_server; web_server_resized])
  = (0 + 8600 + 0 + 14600)%float.
Proof.
  pose proof (processServerCosts_duplicate_ids
                [] [idle_server] [] web_server web_server_resized
                eq_refl ltac:(constructor)) as (H1 & H2 & H3 & _).
  cbn [app] in H1, H2, H3.
  split; [reflexivity|]. split; [exact H1|]. split; [reflexivity|].
  split; [rewrite H2|rewrite H3]; reflexivity.
Defined.

(** ** Monotonicity in the CPU figures *)

(** C8: for a server with [cores > 0] and [utilization] between 0 and
    100, raising [cpu.cores], or raising [cpu.utilization] within the
    bounds, with every other input unchanged, never decreases
    [projectedMonthlyCost]. *)
Theorem projectedMonthlyCost_monotone (server : Server) (c' u' : float) :
  let c := cores (cpu (metrics (serverData server))) in
  let u := utilization (cpu (metrics (serverData server))) in
  (0 <? c)%float = true ->
  (0 <=? u)%float = true -> (u <=? 100)%float = true ->
  ((c <=? c')%float = true ->
   not_decreased
     (projectedMonthlyCost (calculateServerCosts server))
     (projectedMonthlyCost (calculateServerCosts (with_cores c' server)))) /\
  ((u <=? u')%float = true -> (u' <=? 100)%float = true ->
   not_decreased
     (projectedMonthlyCost (calculateServerCosts server))
     (projectedMonthlyCost
        (calculateServerCosts (with_utilization u' server)))).
Proof.
  intros c u Hc Hu0 Hu1.
  apply Float.ltb_fle in Hc. apply Float.leb_fle in Hu0.
  assert (H3000 : Float.fle 0 3000) by reflexivity.
  assert (H100 : (0 <? 100)%float = true) by reflexivity.
  pose proof (Float.div_nonneg u 100 Hu0 H100) as Huf.
  pose proof (Float.mul_nonneg c 3000 Hc H3000) as Hc3.
  unfold not_decreased.
  cbn [calculateServerCosts projectedMonthlyCost with_cores with_utilization
       serverData metrics networkUtilization].
  unfold calculateComputeCost.
  cbn [cpu cores utilization]. fold c u.
  split.
  - intros Hcc. apply Float.leb_fle in Hcc.
    apply Float.add_mono; [|apply Float.fle_refl].
    apply Float.add_mono; [|apply Float.fle_refl].
    apply Float.mul_mono_l; [assumption| |assumption].
    apply Float.mul_mono_l; assumption.
  - intros Huu _. apply Float.leb_fle in Huu.
    apply Float.add_mono; [|apply Float.fle_refl].
    apply Float.add_mono; [|apply Float.fle_refl].
    apply Float.mul_mono_r; [assumption|assumption|].
    apply Float.div_mono; assumption.
Qed.

(** Between two costs that are numbers, [not_decreased] is [<=]. *)
Lemma not_decreased_leb (old new : float) :
  not_decreased old new ->
  PrimFloat.is_nan old = false -> PrimFloat.is_nan new = false ->
  (old <=? new)%float = true.
Proof. apply Float.fle_leb. Qed.

Lemma projectedMonthlyCost_monotone_witness :
  ((0 <? 4)%float = true /\
   (0 <=? 50)%float = true /\ (50 <=? 100)%float = true) /\
  ((4 <=? 8)%float = true /\
   not_decreased
     (projectedMonthlyCost (calculateServerCosts web_server))
     (projectedMonthlyCost (calculateServerCosts (with_cores 8 web_server)))) /\
  ((50 <=? 75)%float = true /\ (75 <=? 100)%float = true /\
   not_decreased
     (projectedMonthlyCost (calculateServerCosts web_server))
     (projectedMonthlyCost
        (calculateServerCosts (with_utilization 75 web_server)))).
Proof.
  pose proof (projectedMonthlyCost_monotone web_server 8 75
                eq_refl eq_refl eq_refl) as [Hc Hu].
  split; [repeat split|]. split.
  - split; [reflexivity|]. apply Hc. reflexivity.
  - split; [reflexivity|]. split; [reflexivity|]. apply Hu; reflexivity.
Defined.

(** ** Savings under the fixed markup *)

(** C10, as stated, fails: for [small_server] the projected cost is
    [5600], the current cost is [5600 * 1.4] rounded to a double, and the
    savings are [2239.9999999999991], which is not [0.4 * 5600] — neither
    as the double product nor as the exact value (ten times the savings is
    not four times the projected cost).  The same holds of the portfolio
    made of that server. *)
Lemma savings_not_two_fifths_of_projected :
  let costs := calculateServerCosts small_server in
  let summary := processServerCosts [small_server] in
  (0 <=? projectedMonthlyCost costs)%float = true /\
  projectedMonthlyCost costs = 5600%float /\
  savings costs = 2239.9999999999991%float /\
  (0.4 * projectedMonthlyCost costs)%float = 2240%float /\
  savings costs <> (0.4 * projectedMonthlyCost costs)%float /\
  (10 * Binary64.ival (Prim2SF (savings costs)) <>
   4 * Binary64.ival (Prim2SF (projectedMonthlyCost costs)))%Z /\
  monthlySavings summary <> (0.4 * monthlyCloudCost summary)%float.
Proof.
  cbv zeta. repeat split; try reflexivity; vm_compute; discriminate.
Qed.

Lemma savings_of_server_not_negative (server : Server) :
  Float.fle 0 (projectedMonthlyCost (calculateServerCosts server)) ->
  Float.fle (projectedMonthlyCost (calculateServerCosts server))
            (currentMonthlyCost (calculateServerCosts server)) /\
  Float.fle 0 (savings (calculateServerCosts server)).
Proof.
  intros Hp.
  assert (Hcur : Float.fle (projectedMonthlyCost (calculateServerCosts server))
                   (currentMonthlyCost (calculateServerCosts server))).
  { cbn [calculateServerCosts currentMonthlyCost projectedMonthlyCost] in *.
    apply Float.mul_ge_self; [assumption|reflexivity]. }
  split; [assumption|].
  change (savings (calculateServerCosts server))
    with (currentMonthlyCost (calculateServerCosts server)
          - projectedMonthlyCost (calculateServerCosts server))%float.
  apply Float.sub_nonneg. assumption.
Qed.

Lemma fold_sums_ordered (servers : list Server) : forall cloud current,
  Forall (fun server =>
            (0 <=? projectedMonthlyCost (calculateServerCosts server))%float
            = true) servers ->
  Float.fle cloud current ->
  Float.fle
    (fold_left
       (fun sum server =>
          (sum + projectedMonthlyCost (calculateServerCosts server))%float)
       servers cloud)
    (fold_left
       (fun sum server =>
          (sum + currentMonthlyCost (calculateServerCosts server))%float)
       servers current).
Proof.
  induction servers as [|server servers IH]; intros cloud current Hall Hle;
    [assumption|].
  inversion Hall as [|? ? Hp Hrest]; subst. cbn [fold_left].
  apply IH; [assumption|].
  apply Float.add_mono; [assumption|].
  apply savings_of_server_not_negative, Float.leb_fle, Hp.
Qed.

(** C10, as the code behaves: for a server whose projected monthly cost
    is non-negative, the savings are
    [projectedMonthlyCost * 1.4 - projectedMonthlyCost] in double
    arithmetic (equal to [0.4 * projectedMonthlyCost] only up to rounding)
    and are never negative; and for a portfolio of such servers the
    monthly savings, [currentCosts - monthlyCloudCost], are never
    negative. *)
Theorem savings_never_negative (servers : list Server) :
  Forall (fun server =>
            (0 <=? projectedMonthlyCost (calculateServerCosts server))%float
            = true) servers ->
  Forall (fun server =>
            let costs := calculateServerCosts server in
            savings costs =
              (projectedMonthlyCost costs * 1.4
               - projectedMonthlyCost costs)%float /\
            (savings costs <? 0)%float = false) servers /\
  monthlySavings (processServerCosts servers) =
    (currentCosts (processServerCosts servers)
     - monthlyCloudCost (processServerCosts servers))%float /\
  (monthlySavings (processServerCosts servers) <? 0)%float = false.
Proof.
  intros Hall. split; [|split; [reflexivity|]].
  - eapply Forall_impl; [exact Hall|]. intros server Hp. cbv zeta.
    split; [reflexivity|].
    apply (savings_of_server_not_negative server), Float.leb_fle, Hp.
  - unfold processServerCosts. cbn [monthlySavings].
    apply Float.sub_nonneg.
    destruct (fold_add_server_totals servers initial_totals) as (_ & -> & ->).
    apply fold_sums_ordered; [assumption|reflexivity].
Qed.

Lemma savings_never_negative_witness :
  Forall (fun server =>
            (0 <=? projectedMonthlyCost (calculateServerCosts server))%float
            = true) [web_server; idle_server; small_server] /\
  (savings (calculateServerCosts small_server) <? 0)%float = false /\
  (monthlySavings (processServerCosts [web_server; idle_server; small_server])
   <? 0)%float = false.
Proof.
  assert (Hall : Forall (fun server =>
            (0 <=? projectedMonthlyCost (calculateServerCosts server))%float
            = true) [web_server; idle_server; small_server])
    by (repeat constructor).
  pose proof (savings_never_negative _ Hall) as (Hs & _ & Hm).
  split; [exact Hall|]. split; [|exact Hm].
  inversion Hs as [|? ? _ Hs1]; subst.
  inversion Hs1 as [|? ? _ Hs2]; subst.
  inversion Hs2 as [|? ? [_ H] _]; subst. exact H.
Defined.

(** * Further properties of the code

    Properties of the cost engine beyond the claims, and of the
    functions around it. *)

(** ** Migration cost *)

Lemma getBaselineMigrationCost_cases (strategy : string) :
  getBaselineMigrationCost strategy = JS.Num 500000 \/
  getBaselineMigrationCost strategy = JS.Num 1000000 \/
  getBaselineMigrationCost strategy = JS.Num 2000000 \/
  (strategy ∈ JS.object_prototype_names /\
   getBaselineMigrationCost strategy = JS.Inherited strategy).
Proof.
  destruct (decide (strategy = "Rehost")) as [->|H1]; [auto|].
  destruct (decide (strategy = "Replatform")) as [->|H2]; [auto|].
  destruct (decide (strategy = "Refactor")) as [->|H3]; [auto|].
  unfold getBaselineMigrationCost, JS.get.
  rewrite baseline_costs_lookup_other by assumption.
  case_bool_decide; auto.
Qed.

Lemma getComplexityMultiplier_cases (level : string) :
  getComplexityMultiplier level = JS.Num 1.5 \/
  getComplexityMultiplier level = JS.Num 1.2 \/
  getComplexityMultiplier level = JS.Num 1.0 \/
  (level ∈ JS.object_prototype_names /\
   getComplexityMultiplier level = JS.Inherited level).
Proof.
  destruct (decide (level = "High")) as [->|H1]; [auto|].
  destruct (decide (level = "Medium")) as [->|H2]; [auto|].
  destruct (decide (level = "Low")) as [->|H3]; [auto|].
  unfold getComplexityMultiplier, JS.get.
  rewrite multipliers_lookup_other by assumption.
  case_bool_decide; auto.
Qed.

Lemma migrationCost_values (server : Server) :
  migrationCost (calculateServerCosts server) ∈ migration_cost_values \/
  (PrimFloat.is_nan (migrationCost (calculateServerCosts server)) = true /\
   (strategy (migrationStrategy server) ∈ JS.object_prototype_names \/
    level (complexity server) ∈ JS.object_prototype_names)).
Proof.
  cbn [calculateServerCosts migrationCost].
  destruct (getBaselineMigrationCost_cases
              (strategy (migrationStrategy server)))
    as [-> | [-> | [-> | [Hs ->] ]]];
    destruct (getComplexityMultiplier_cases
                (level (complexity server)))
      as [-> | [-> | [-> | [Hl ->] ]]];
    try (right; split; [reflexivity|auto]);
    left; unfold migration_cost_values;
    rewrite !elem_of_cons; vm_compute; auto 12.
Qed.

(** X1: whatever the strategy and the level are, the migration cost of a
    server is one of nine amounts, from 500,000 to 3,000,000, or [NaN];
    it is [NaN] only when the strategy or the level is the name of a
    member of [Object.prototype]. *)
Theorem migrationCost_is_one_of_nine (server : Server) :
  (migrationCost (calculateServerCosts server) ∈ migration_cost_values \/
   PrimFloat.is_nan (migrationCost (calculateServerCosts server)) = true) /\
  (PrimFloat.is_nan (migrationCost (calculateServerCosts server)) = true ->
   strategy (migrationStrategy server) ∈ JS.object_prototype_names \/
   level (complexity server) ∈ JS.object_prototype_names).
Proof.
  destruct (migrationCost_values server) as [Hin|[Hnan Hnames]].
  - split; [left; exact Hin|]. intros Hnan. exfalso.
    unfold migration_cost_values in Hin. rewrite !elem_of_cons in Hin.
    destruct Hin as [H|[H|[H|[H|[H|[H|[H|[H|[H|H]]]]]]]]];
      try (rewrite H in Hnan; discriminate).
    apply elem_of_nil in H. exact H.
  - split; [right; exact Hnan|]. intros _. exact Hnames.
Qed.

(** ** Costs of non-negative inputs *)

Lemma calculateComputeCost_nonneg (m : Metrics) :
  Float.fle 0 (cores (cpu m)) -> Float.fle 0 (utilization (cpu m)) ->
  Float.fle 0 (calculateComputeCost m).
Proof.
  intros Hc Hu. unfold calculateComputeCost.
  apply Float.mul_nonneg.
  - apply Float.mul_nonneg; [assumption|reflexivity].
  - apply Float.div_nonneg; [assumption|reflexivity].
Qed.

Lemma calculateStorageCost_nonneg (m : Metrics) :
  Float.fle 0 (total (storage m)) -> Float.fle 0 (calculateStorageCost m).
Proof.
  intros Ht. unfold calculateStorageCost.
  apply Float.mul_nonneg; [|reflexivity].
  apply Float.div_nonneg; [assumption|reflexivity].
Qed.

Lemma calculateNetworkCost_nonneg (n : NetworkUtilization) :
  Float.fle 0 (bandwidth n) -> Float.fle 0 (averageUsage n) ->
  Float.fle 0 (calculateNetworkCost n).
Proof.
  intros Hb Ha. unfold calculateNetworkCost.
  apply Float.mul_nonneg; [|reflexivity].
  apply Float.div_nonneg; [|reflexivity].
  apply Float.mul_nonneg; assumption.
Qed.

(** X2: for a server whose cores, utilization, storage size, bandwidth and
    average usage are all non-negative numbers, none of the three
    monthly cost components is negative, and neither is the projected
    monthly cost. *)
Theorem projectedMonthlyCost_not_negative (server : Server) :
  let m := metrics (serverData server) in
  let n := networkUtilization (serverData server) in
  (0 <=? cores (cpu m))%float = true ->
  (0 <=? utilization (cpu m))%float = true ->
  (0 <=? total (storage m))%float = true ->
  (0 <=? bandwidth n)%float = true ->
  (0 <=? averageUsage n)%float = true ->
  (calculateComputeCost m <? 0)%float = false /\
  (calculateStorageCost m <? 0)%float = false /\
  (calculateNetworkCost n <? 0)%float = false /\
  (projectedMonthlyCost (calculateServerCosts server) <? 0)%float = false.
Proof.
  intros m n Hc Hu Ht Hb Ha.
  apply Float.leb_fle in Hc, Hu, Ht, Hb, Ha.
  pose proof (calculateComputeCost_nonneg m Hc Hu) as H1.
  pose proof (calculateStorageCost_nonneg m Ht) as H2.
  pose proof (calculateNetworkCost_nonneg n Hb Ha) as H3.
  repeat split; try assumption.
  cbn [calculateServerCosts projectedMonthlyCost]. fold m n.
  apply Float.add_nonneg; [apply Float.add_nonneg|]; assumption.
Qed.

Lemma projectedMonthlyCost_not_negative_witness :
  ((0 <=? 4)%float = true /\ (0 <=? 50)%float = true /\
   (0 <=? 1048576)%float = true /\ (0 <=? 100)%float = true /\
   (0 <=? 50)%float = true) /\
  (projectedMonthlyCost (calculateServerCosts web_server) <? 0)%float = false.
Proof.
  split; [repeat split|].
  apply (projectedMonthlyCost_not_negative web_server); reflexivity.
Defined.

(** X3: for a server with a non-negative storage size, a larger storage
    size, with every other input unchanged, never decreases the storage
    cost or the projected monthly cost. *)
Theorem projectedMonthlyCost_monotone_in_storage
  (server : Server) (t' : float) :
  let t := total (storage (metrics (serverData server))) in
  (0 <=? t)%float = true -> (t <=? t')%float = true ->
  not_decreased
    (calculateStorageCost (metrics (serverData server)))
    (calculateStorageCost
       (metrics (serverData (with_storage_total t' server)))) /\
  not_decreased
    (projectedMonthlyCost (calculateServerCosts server))
    (projectedMonthlyCost
       (calculateServerCosts (with_storage_total t' server))).
Proof.
  intros t H0 Htt. apply Float.leb_fle in H0, Htt.
  assert (Hs : Float.fle (t / (1024 * 1024) * 100) (t' / (1024 * 1024) * 100)).
  { apply Float.mul_mono_l; [|apply Float.div_mono; auto; reflexivity|];
      [apply Float.div_nonneg; auto; reflexivity|reflexivity]. }
  split; [exact Hs|].
  unfold not_decreased.
  cbn [calculateServerCosts projectedMonthlyCost with_storage_total
       serverData metrics networkUtilization].
  unfold calculateStorageCost, calculateComputeCost.
  cbn [storage total cpu]. fold t.
  apply Float.add_mono; [|apply Float.fle_refl].
  apply Float.add_mono; [apply Float.fle_refl|exact Hs].
Qed.

Lemma projectedMonthlyCost_monotone_in_storage_witness :
  ((0 <=? 1048576)%float = true /\ (1048576 <=? 2097152)%float = true) /\
  not_decreased
    (projectedMonthlyCost (calculateServerCosts web_server))
    (projectedMonthlyCost
       (calculateServerCosts (with_storage_total 2097152 web_server))).
Proof.
  split; [split; reflexivity|].
  apply (projectedMonthlyCost_monotone_in_storage web_server 2097152);
    reflexivity.
Defined.

(** X4: for a server with non-negative bandwidth and average usage, a
    larger bandwidth, or a larger average usage, with every other input
    unchanged, never decreases the projected monthly cost. *)
Theorem projectedMonthlyCost_monotone_in_network
  (server : Server) (b' a' : float) :
  let b := bandwidth (networkUtilization (serverData server)) in
  let a := averageUsage (networkUtilization (serverData server)) in
  (0 <=? b)%float = true -> (0 <=? a)%float = true ->
  ((b <=? b')%float = true ->
   not_decreased
     (projectedMonthlyCost (calculateServerCosts server))
     (projectedMonthlyCost
        (calculateServerCosts
           (with_network {| bandwidth := b'; averageUsage := a |} server)))) /\
  ((a <=? a')%float = true ->
   not_decreased
     (projectedMonthlyCost (calculateServerCosts server))
     (projectedMonthlyCost
        (calculateServerCosts
           (with_network {| bandwidth := b; averageUsage := a' |} server)))).
Proof.
  intros b a Hb Ha. apply Float.leb_fle in Hb, Ha.
  unfold not_decreased.
  cbn [calculateServerCosts projectedMonthlyCost with_network
       serverData metrics networkUtilization].
  unfold calculateNetworkCost. cbn [bandwidth averageUsage]. fold b a.
  pose proof (Float.mul_nonneg b a Hb Ha) as Hba.
  split; intros Hle; apply Float.leb_fle in Hle;
    (apply Float.add_mono; [apply Float.fle_refl|]);
    (apply Float.mul_mono_l; [|apply Float.div_mono|];
     [apply Float.div_nonneg; auto; reflexivity
     |assumption| |reflexivity|reflexivity]).
  - apply Float.mul_mono_l; assumption.
  - apply Float.mul_mono_r; assumption.
Qed.

Lemma projectedMonthlyCost_monotone_in_network_witness :
  ((0 <=? 100)%float = true /\ (0 <=? 50)%float = true) /\
  ((100 <=? 1000)%float = true /\
   not_decreased
     (projectedMonthlyCost (calculateServerCosts web_server))
     (projectedMonthlyCost
        (calculateServerCosts
           (with_network {| bandwidth := 1000; averageUsage := 50 |}
              web_server)))) /\
  ((50 <=? 80)%float = true /\
   not_decreased
     (projectedMonthlyCost (calculateServerCosts web_server))
     (projectedMonthlyCost
        (calculateServerCosts
           (with_network {| bandwidth := 100; averageUsage := 80 |}
              web_server)))).
Proof.
  pose proof (projectedMonthlyCost_monotone_in_network web_server 1000 80
                ltac:(reflexivity) ltac:(reflexivity)) as [Hb Ha].
  split; [split; reflexivity|].
  split; (split; [reflexivity|]).
  - apply Hb. reflexivity.
  - apply Ha. reflexivity.
Defined.

(** ** The per-server mapping *)

Lemma last_with_id_snoc
  (id : string) (servers : list Server) (server : Server) :
  last_with_id id (servers ++ [server]) =
  if decide (serverId (serverData server) = id) then Some server
  else last_with_id id servers.
Proof.
  unfold last_with_id. rewrite filter_app, filter_cons, filter_nil.
  case_decide; [apply last_snoc|rewrite app_nil_r; reflexivity].
Qed.

(** The entry the loop leaves at an id: that of the last server carrying
    the id, or the one that was there when no server carries it. *)
Lemma fold_add_server_lookup (servers : list Server) (id : string) :
  forall acc,
    acc_serverCosts (fold_left add_server servers acc) !! id =
    match last_with_id id servers with
    | Some server => Some (calculateServerCosts server)
    | None => acc_serverCosts acc !! id
    end.
Proof.
  induction servers as [|server servers IH] using rev_ind; intros acc;
    [reflexivity|].
  rewrite fold_left_app, last_with_id_snoc. cbn [fold_left add_server
    acc_serverCosts].
  case_decide as E.
  - rewrite E. apply lookup_insert_eq.
  - rewrite lookup_insert_ne by assumption. apply IH.
Qed.

Lemma last_with_id_elem_of
  (id : string) (servers : list Server) (server : Server) :
  server ∈ servers -> serverId (serverData server) = id ->
  exists final, last_with_id id servers = Some final.
Proof.
  intros Hin Hid. unfold last_with_id.
  destruct (last (filter (fun s => serverId (serverData s) = id) servers))
    as [final|] eqn:E; [eauto|].
  apply last_None in E.
  assert (server ∈ filter (fun s => serverId (serverData s) = id) servers)
    as Hf by (apply list_elem_of_filter; auto).
  rewrite E in Hf. apply elem_of_nil in Hf. destruct Hf.
Qed.

Lemma last_with_id_Some
  (id : string) (servers : list Server) (final : Server) :
  last_with_id id servers = Some final ->
  final ∈ servers /\ serverId (serverData final) = id.
Proof.
  unfold last_with_id. intros E. apply last_Some_elem_of in E.
  apply list_elem_of_filter in E as [? ?]. auto.
Qed.

(** With pairwise distinct ids, the last server with the id of a server
    of the list is that server. *)
Lemma last_with_id_NoDup (servers : list Server) (server : Server) :
  NoDup (map (fun s => serverId (serverData s)) servers) ->
  server ∈ servers ->
  last_with_id (serverId (serverData server)) servers = Some server.
Proof.
  intros Hnd Hin.
  destruct (last_with_id_elem_of _ servers server Hin eq_refl) as [final E].
  rewrite E. f_equal.
  apply last_with_id_Some in E as [Hf Hid].
  apply list_elem_of_lookup in Hin as [i Hi].
  apply list_elem_of_lookup in Hf as [j Hj].
  assert (i = j) as ->.
  { apply (NoDup_lookup _ i j (serverId (serverData server)) Hnd);
      rewrite list_lookup_fmap.
    - rewrite Hi. reflexivity.
    - rewrite Hj. cbn. rewrite Hid. reflexivity. }
  congruence.
Qed.

(** X5: for every server of the list, the entry of the mapping read at
    its id is the breakdown of the last server of the list that carries
    this id; the read never misses.  When the ids are pairwise distinct it
    is the server's own breakdown. *)
Theorem serverCosts_read (servers : list Server) (server : Server) :
  server ∈ servers ->
  (exists final,
     last_with_id (serverId (serverData server)) servers = Some final /\
     serverCosts (processServerCosts servers)
       !! serverId (serverData server)
     = Some (calculateServerCosts final)) /\
  (NoDup (map (fun s => serverId (serverData s)) servers) ->
   serverCosts (processServerCosts servers) !! serverId (serverData server)
   = Some (calculateServerCosts server)).
Proof.
  intros Hin. unfold processServerCosts. cbn [serverCosts]. split.
  - destruct (last_with_id_elem_of _ servers server Hin eq_refl) as [final E].
    exists final. split; [assumption|].
    rewrite fold_add_server_lookup, E. reflexivity.
  - intros Hnd.
    rewrite fold_add_server_lookup, (last_with_id_NoDup _ _ Hnd Hin).
    reflexivity.
Qed.

Lemma serverCosts_read_witness :
  web_server ∈ [web_server; idle_server; web_server_resized] /\
  serverCosts (processServerCosts [web_server; idle_server; web_server_resized])
    !! "srv-001"
  = Some (calculateServerCosts web_server_resized).
Proof.
  assert (Hin : web_server ∈ [web_server; idle_server; web_server_resized])
    by (apply list_elem_of_here).
  split; [exact Hin|].
  destruct (proj1 (serverCosts_read _ _ Hin)) as (final & Hlast & Hread).
  injection Hlast as <-. exact Hread.
Defined.

(** ** Signs of the portfolio figures *)

(** A running sum of figures none of which is negative is not
    negative. *)
Lemma fold_sum_nonneg (figure : Server -> float) (servers : list Server) :
  forall sum,
    Forall (fun server => Float.fle 0 (figure server)) servers ->
    Float.fle 0 sum ->
    Float.fle 0 (fold_left (fun sum server => (sum + figure server)%float)
                           servers sum).
Proof.
  induction servers as [|server servers IH]; intros sum Hall Hsum;
    [assumption|].
  inversion Hall as [|? ? Hf Hrest]; subst. cbn [fold_left].
  apply IH; [assumption|]. apply Float.add_nonneg; assumption.
Qed.

Lemma migrationCost_nonneg (server : Server) :
  Float.fle 0 (migrationCost (calculateServerCosts server)).
Proof.
  destruct (migrationCost_values server) as [Hin|[Hnan _]];
    [|apply Float.fle_nan_r, Hnan].
  unfold migration_cost_values in Hin. rewrite !elem_of_cons in Hin.
  destruct Hin as [H|[H|[H|[H|[H|[H|[H|[H|[H|H]]]]]]]]];
    try (rewrite H; reflexivity).
  apply elem_of_nil in H. destruct H.
Qed.

Lemma totalMigrationCost_nonneg (servers : list Server) :
  Float.fle 0 (totalMigrationCost (processServerCosts servers)).
Proof.
  unfold processServerCosts. cbn [totalMigrationCost].
  destruct (fold_add_server_totals servers initial_totals) as (-> & _ & _).
  apply (fold_sum_nonneg
           (fun server => migrationCost (calculateServerCosts server)));
    [|reflexivity].
  apply Forall_forall. intros server _. apply migrationCost_nonneg.
Qed.

(** X6: whatever the servers are, the number of months to break even is
    never negative; and when the monthly savings are positive it is not
    below the quotient of the migration cost by the monthly savings:
    [Math.ceil] never rounds down. *)
Theorem roiMonths_not_negative (servers : list Server) :
  let summary := processServerCosts servers in
  (roiMonths summary <? 0)%float = false /\
  ((0 <? monthlySavings summary)%float = true ->
   (roiMonths summary
    <? totalMigrationCost summary / monthlySavings summary)%float = false).
Proof.
  intros summary. pose proof (totalMigrationCost_nonneg servers) as Ht.
  fold summary in Ht.
  assert (E : roiMonths summary =
              if (0 <? monthlySavings summary)%float
              then Math_ceil (totalMigrationCost summary
                              / monthlySavings summary)%float
              else 0%float) by reflexivity.
  rewrite E. destruct (0 <? monthlySavings summary)%float eqn:Hs.
  - split.
    + apply Float.Math_ceil_nonneg, Float.div_nonneg; assumption.
    + intros _. apply Float.Math_ceil_ge.
  - split; [reflexivity|discriminate].
Qed.

(** X7: when the monthly savings are positive and the quotient of the
    total migration cost by them is finite, the number of months to break
    even is a whole number, not negative, and the least whole number that
    is not below the quotient.  Values are compared exactly, in units of
    [2^-1074]. *)
Theorem roiMonths_is_least_whole_number (servers : list Server) :
  let summary := processServerCosts servers in
  let quotient :=
    (totalMigrationCost summary / monthlySavings summary)%float in
  (0 <? monthlySavings summary)%float = true ->
  PrimFloat.is_finite quotient = true ->
  exists n : Z,
    (0 <= n)%Z /\
    Binary64.ival (Prim2SF (roiMonths summary)) = (n * 2 ^ 1074)%Z /\
    ((n - 1) * 2 ^ 1074 < Binary64.ival (Prim2SF quotient)
     <= n * 2 ^ 1074)%Z.
Proof.
  intros summary quotient Hs Hfin.
  assert (E : roiMonths summary = Math_ceil quotient).
  { unfold summary, processServerCosts in *.
    cbn [roiMonths monthlySavings] in *. rewrite Hs. reflexivity. }
  rewrite E.
  destruct (Float.Math_ceil_spec quotient (Float.is_finite_is_fin _ Hfin))
    as (n & Hn & Hlo & Hhi).
  exists n. split; [|split; [exact Hn|split; assumption]].
  assert (H0 : Float.fle 0 quotient)
    by (apply Float.div_nonneg; [apply totalMigrationCost_nonneg|exact Hs]).
  apply Float.fle_ord in H0 as [H0|[H0|H0]]; [discriminate| |].
  - apply Float.is_finite_is_fin in Hfin. rewrite H0 in Hfin. discriminate.
  - change (Binary64.ival (Prim2SF 0)) with 0%Z in H0.
    pose proof (Binary64.pow2_pos 1074 ltac:(lia)). nia.
Qed.

Lemma roiMonths_is_least_whole_number_witness :
  (0 <? monthlySavings (processServerCosts [web_server]))%float = true /\
  PrimFloat.is_finite
    (totalMigrationCost (processServerCosts [web_server])
     / monthlySavings (processServerCosts [web_server])) = true /\
  exists n : Z,
    (0 <= n)%Z /\
    Binary64.ival (Prim2SF (roiMonths (processServerCosts [web_server])))
    = (n * 2 ^ 1074)%Z /\
    ((n - 1) * 2 ^ 1074
     < Binary64.ival
         (Prim2SF (totalMigrationCost (processServerCosts [web_server])
                   / monthlySavings (processServerCosts [web_server])))
     <= n * 2 ^ 1074)%Z.
Proof.
  split; [reflexivity|]. split; [reflexivity|].
  apply (roiMonths_is_least_whole_number [web_server]); reflexivity.
Defined.

Lemma projected_total_nonneg (servers : list Server) :
  Forall (fun server =>
            (0 <=? projectedMonthlyCost (calculateServerCosts server))%float
            = true) servers ->
  Float.fle 0 (monthlyCloudCost (processServerCosts servers)) /\
  Float.fle (monthlyCloudCost (processServerCosts servers))
            (currentCosts (processServerCosts servers)).
Proof.
  intros Hall. unfold processServerCosts.
  cbn [monthlyCloudCost currentCosts].
  destruct (fold_add_server_totals servers initial_totals) as (_ & -> & ->).
  split.
  - apply (fold_sum_nonneg
             (fun server =>
                projectedMonthlyCost (calculateServerCosts server)));
      [|reflexivity].
    eapply Forall_impl; [exact Hall|]. intros server. apply Float.leb_fle.
  - apply fold_sums_ordered; [assumption|reflexivity].
Qed.

(** X8: for a portfolio whose servers all have a non-negative projected
    monthly cost, the cost reduction shown is never below 0 nor above
    100 (it is a number in this range, or [NaN]), and the annual savings
    are never negative. *)
Theorem costReduction_is_a_percentage (servers : list Server) :
  Forall (fun server =>
            (0 <=? projectedMonthlyCost (calculateServerCosts server))%float
            = true) servers ->
  let summary := displayCostAnalysis (processServerCosts servers) in
  (costReduction summary <? 0)%float = false /\
  (100 <? costReduction summary)%float = false /\
  (annualSavings summary <? 0)%float = false.
Proof.
  intros Hall summary.
  destruct (projected_total_nonneg servers Hall) as [H0 Hle].
  pose proof (Float.sub_nonneg _ _ Hle) as Hs.
  pose proof (Float.sub_le_self
                (currentCosts (processServerCosts servers)) _ H0) as Hu.
  destruct (Float.div_unit_interval _ _ Hs Hu) as [Hq0 Hq1].
  split; [|split].
  - apply Float.mul_nonneg; [exact Hq0|reflexivity].
  - apply (Float.mul_mono_l _ 1 100 Hq0 Hq1). reflexivity.
  - apply Float.mul_nonneg; [exact Hs|reflexivity].
Qed.

Lemma costReduction_is_a_percentage_witness :
  Forall (fun server =>
            (0 <=? projectedMonthlyCost (calculateServerCosts server))%float
            = true) [web_server; small_server] /\
  (costReduction
     (displayCostAnalysis (processServerCosts [web_server; small_server]))
   <? 0)%float = false /\
  (100 <? costReduction
            (displayCostAnalysis
               (processServerCosts [web_server; small_server])))%float
  = false.
Proof.
  assert (Hall : Forall (fun server =>
            (0 <=? projectedMonthlyCost (calculateServerCosts server))%float
            = true) [web_server; small_server])
    by (repeat constructor).
  pose proof (costReduction_is_a_percentage _ Hall) as (H0 & H100 & _).
  split; [exact Hall|]. split; [exact H0|exact H100].
Defined.

(** ** One more server *)

(** X9: after a server is appended to the list, a read of the mapping at
    its id gives its cost breakdown, and a read at the id of an earlier
    server with another id gives what it gave before.  The total migration
    cost never decreases; when the projected monthly cost of the new
    server is not negative, neither the monthly cloud cost nor the current
    costs decrease. *)
Theorem processServerCosts_one_more
  (servers : list Server) (server : Server) :
  let before := processServerCosts servers in
  let after := processServerCosts (servers ++ [server]) in
  serverCosts after !! serverId (serverData server)
    = Some (calculateServerCosts server) /\
  (forall earlier,
     earlier ∈ servers ->
     serverId (serverData earlier) <> serverId (serverData server) ->
     serverCosts after !! serverId (serverData earlier)
     = serverCosts before !! serverId (serverData earlier)) /\
  not_decreased (totalMigrationCost before) (totalMigrationCost after) /\
  ((0 <=? projectedMonthlyCost (calculateServerCosts server))%float = true ->
   not_decreased (monthlyCloudCost before) (monthlyCloudCost after) /\
   not_decreased (currentCosts before) (currentCosts after)).
Proof.
  intros before after. subst before after. unfold processServerCosts.
  rewrite fold_left_app.
  cbn [fold_left add_server serverCosts totalMigrationCost monthlyCloudCost
       currentCosts acc_serverCosts acc_totalMigrationCost
       acc_monthlyCloudCost acc_currentCosts].
  unfold not_decreased.
  split; [apply lookup_insert_eq|].
  split; [intros earlier _ Hne; apply lookup_insert_ne; congruence|].
  split; [apply Float.add_ge_self, migrationCost_nonneg|].
  intros Hp. apply Float.leb_fle in Hp.
  split; apply Float.add_ge_self; [exact Hp|].
  cbn [calculateServerCosts currentMonthlyCost projectedMonthlyCost] in *.
  apply Float.mul_nonneg; [exact Hp|reflexivity].
Qed.

(** ** Byte counts *)

(** More fuel does not change the result of the loop. *)
Lemma formatBytes_loop_fuel (fuel : nat) : forall bytes k scaled fuel',
  formatBytes_loop fuel bytes k = Some scaled -> fuel <= fuel' ->
  formatBytes_loop fuel' bytes k = Some scaled.
Proof.
  induction fuel as [|fuel IH]; intros bytes k scaled fuel' H Hle.
  - cbn [formatBytes_loop] in H.
    destruct fuel'; cbn [formatBytes_loop];
      destruct ((1024 <=? bytes)%float && (k <? length units - 1)%nat);
      try discriminate; assumption.
  - destruct fuel' as [|fuel']; [lia|]. cbn [formatBytes_loop] in *.
    destruct ((1024 <=? bytes)%float && (k <? length units - 1)%nat);
      [|assumption].
    apply IH; [assumption|lia].
Qed.

(** The loop ends once the index has reached the last unit. *)
Lemma formatBytes_loop_ends (fuel : nat) : forall bytes k,
  k <= 4 -> 4 - k <= fuel ->
  exists scaled, formatBytes_loop fuel bytes k = Some scaled.
Proof.
  induction fuel as [|fuel IH]; intros bytes k Hk Hfuel.
  - assert (k = 4) as -> by lia. cbn [formatBytes_loop].
    rewrite andb_false_r. eexists; reflexivity.
  - cbn [formatBytes_loop].
    destruct ((1024 <=? bytes)%float && (k <? length units - 1)%nat) eqn:G;
      [|eexists; reflexivity].
    apply andb_true_iff in G as [_ G]. apply Nat.ltb_lt in G.
    cbn [length units] in G. apply IH; lia.
Qed.

(** What the loop has done when it ends. *)
Lemma formatBytes_loop_spec (fuel : nat) : forall bytes k scaled,
  formatBytes_loop fuel bytes k = Some scaled -> k <= 4 ->
  k <= unitIndex scaled <= 4 /\
  (unitIndex scaled = k -> size scaled = bytes) /\
  (unitIndex scaled = k -> k < 4 -> (1024 <=? bytes)%float = false) /\
  (k < unitIndex scaled -> (1024 <=? bytes)%float = true) /\
  (unitIndex scaled < 4 -> (1024 <=? size scaled)%float = false) /\
  (k < unitIndex scaled -> (1 <=? size scaled)%float = true).
Proof.
  induction fuel as [|fuel IH]; intros bytes k scaled H Hk;
    cbn [formatBytes_loop] in H;
    destruct (1024 <=? bytes)%float eqn:G1;
    destruct (k <? length units - 1)%nat eqn:G2; cbn [andb] in H;
    try discriminate;
    try (injection H as <-; cbn [unitIndex size];
         apply Nat.ltb_ge in G2 || apply Nat.ltb_lt in G2;
         cbn [length units] in G2;
         repeat split; intros; try lia; try assumption; congruence).
  apply Nat.ltb_lt in G2. cbn [length units] in G2.
  destruct (IH _ _ _ H ltac:(lia)) as (Hi & Hsame & Hlow & Hup & Hlt & Hge).
  split; [lia|]. split; [intros; lia|]. split; [intros; lia|].
  split; [intros _; reflexivity|]. split; [assumption|].
  intros _. destruct (Nat.eq_dec (unitIndex scaled) (S k)) as [E|E].
  - rewrite (Hsame E). apply Float.div_1024_ge_one, G1.
  - apply Hge. lia.
Qed.

(** The divisions of the loop are exact. *)
Lemma formatBytes_loop_exact (fuel : nat) : forall bytes k scaled,
  formatBytes_loop fuel bytes k = Some scaled ->
  PrimFloat.is_infinity bytes = false ->
  (Binary64.ival (Prim2SF bytes) =
   Binary64.ival (Prim2SF (size scaled))
   * 1024 ^ (Z.of_nat (unitIndex scaled) - Z.of_nat k))%Z.
Proof.
  induction fuel as [|fuel IH]; intros bytes k scaled H Hfin;
    cbn [formatBytes_loop] in H;
    destruct (1024 <=? bytes)%float eqn:G1;
    destruct (k <? length units - 1)%nat eqn:G2; cbn [andb] in H;
    try discriminate;
    try (injection H as <-; cbn [unitIndex size];
         rewrite Z.sub_diag; change (1024 ^ 0)%Z with 1%Z; lia).
  pose proof (Float.div_1024_finite bytes G1 Hfin) as Hfin'.
  pose proof (proj1 (formatBytes_loop_spec _ _ _ _ H ltac:(
    apply Nat.ltb_lt in G2; cbn [length units] in G2; lia))) as Hi.
  rewrite <- (Float.div_1024_exact bytes G1 Hfin), (IH _ _ _ H Hfin').
  replace (Z.of_nat (unitIndex scaled) - Z.of_nat k)%Z
    with (Z.succ (Z.of_nat (unitIndex scaled) - Z.of_nat (S k)))%Z by lia.
  rewrite Z.pow_succ_r by lia. ring.
Qed.

(** The tenths [toFixed(1)] prints are the nearest ones to ten times the
    magnitude, the larger ones of two, and the sign is that of the
    number.  Values are in units of [2^-1074]. *)
Lemma toFixed1_tenths (x : float) (negative : bool) (n : Z) :
  toFixed1 x = Tenths negative n ->
  (2 ^ 1075 * n <= 20 * Z.abs (Binary64.ival (Prim2SF x)) + 2 ^ 1074
   < 2 ^ 1075 * (n + 1))%Z /\
  (negative = true <-> (Binary64.ival (Prim2SF x) < 0)%Z).
Proof.
  unfold toFixed1. pose proof (Prim2SF_valid x) as Hv.
  pose proof (Binary64.pow2_pos 1074 ltac:(lia)) as H1.
  assert (H2 : (2 ^ 1075 = 2 * 2 ^ 1074)%Z) by reflexivity.
  destruct (Prim2SF x) as [s|s| |s m e] eqn:E; try discriminate.
  - intros [= <- <-]. cbn [Binary64.ival]. rewrite H2.
    split; [lia|]. split; [discriminate|lia].
  - pose proof (Binary64.ival_finite_pos _ _ _ Hv) as Hpos.
    pose proof (Binary64.valid_finite _ _ _ Hv) as (He & _).
    assert (Habs : Z.abs (Binary64.ival (S754_finite s m e))
                   = (Z.pos m * 2 ^ (e + 1074))%Z)
      by (cbn [Binary64.ival]; destruct s; lia).
    assert (Hsign : s = true <->
                    (Binary64.ival (S754_finite s m e) < 0)%Z)
      by (cbn [Binary64.ival]; destruct s; split; try discriminate;
          try reflexivity; lia).
    rewrite Habs, H2. destruct (Z.leb_spec 0 e) as [He0|He0].
    + destruct (Z.leb_spec (10 ^ 21) (Z.pos m * 2 ^ e)); [discriminate|].
      intros [= <- <-]. split; [|exact Hsign].
      rewrite (Z.pow_add_r 2 e 1074) by lia.
      generalize dependent (2 ^ 1074)%Z. generalize (2 ^ e)%Z. intros. nia.
    + intros [= <- <-]. split; [|exact Hsign].
      pose proof (Binary64.pow2_pos (- e) ltac:(lia)) as HP.
      pose proof (Binary64.pow2_pos (e + 1074) ltac:(lia)) as HQ.
      assert (HPQ : (2 ^ 1074 = 2 ^ (e + 1074) * 2 ^ (- e))%Z).
      { rewrite <- Z.pow_add_r by lia. f_equal. lia. }
      pose proof (Z.div_mod (20 * Z.pos m + 2 ^ (- e)) (2 * 2 ^ (- e))
                    ltac:(lia)) as Hdm.
      pose proof (Z.mod_pos_bound (20 * Z.pos m + 2 ^ (- e))
                    (2 * 2 ^ (- e)) ltac:(lia)) as Hmod.
      rewrite HPQ. clear Hpos Habs Hsign H1 HPQ.
      generalize dependent ((20 * Z.pos m + 2 ^ (- e)) / (2 * 2 ^ (- e)))%Z.
      generalize dependent ((20 * Z.pos m + 2 ^ (- e))
                            mod (2 * 2 ^ (- e)))%Z.
      generalize dependent (2 ^ (- e))%Z.
      generalize dependent (2 ^ (e + 1074))%Z. intros Q HQ P HP r q Hdm Hmod.
      nia.
Qed.

(** When [toFixed(1)] falls back on [String(x)], it is the text of the
    number itself. *)
Lemma toFixed1_AsString (x y : float) : toFixed1 x = AsString y -> y = x.
Proof.
  unfold toFixed1.
  destruct (Prim2SF x) as [s|s| |s m e]; try discriminate;
    try (intros [= <-]; reflexivity).
  destruct (0 <=? e)%Z; [|discriminate].
  destruct (10 ^ 21 <=? Z.pos m * 2 ^ e)%Z; [|discriminate].
  intros [= <-]. reflexivity.
Qed.

(** A number from 1 on is printed without a sign and with at least ten
    tenths, or as [String(x)]. *)
Lemma toFixed1_from_one (x : float) :
  (1 <=? x)%float = true ->
  (exists n, toFixed1 x = Tenths false n /\ (10 <= n)%Z) \/
  toFixed1 x = AsString x.
Proof.
  intros H1. apply Float.leb_true_le in H1.
  change (Binary64.ival (Prim2SF 1)) with (2 ^ 1074)%Z in H1.
  pose proof (Binary64.pow2_pos 1074 ltac:(lia)) as Hp.
  destruct (toFixed1 x) as [negative n|y] eqn:E.
  - left. exists n. destruct (toFixed1_tenths x negative n E) as [Hn Hs].
    assert (negative = false) as ->
      by (destruct negative; [|reflexivity];
          pose proof (proj1 Hs eq_refl); lia).
    split; [reflexivity|].
    rewrite Z.abs_eq in Hn by lia.
    change (2 ^ 1075)%Z with (2 * 2 ^ 1074)%Z in Hn.
    generalize dependent (2 ^ 1074)%Z. intros. nia.
  - right. rewrite (toFixed1_AsString x y E). reflexivity.
Qed.

(** A number from 1 on and below 1024 is printed with ten to 10240
    tenths: as 1.0 up to 1024.0. *)
Lemma toFixed1_below_1024 (x : float) :
  (1 <=? x)%float = true -> (1024 <=? x)%float = false ->
  exists n, toFixed1 x = Tenths false n /\ (10 <= n <= 10240)%Z.
Proof.
  intros H1 H1024.
  destruct (Float.leb_not_nan 1 x H1) as [_ Nx].
  apply Float.leb_false_lt in H1024; [|reflexivity|exact Nx].
  change (Binary64.ival (Prim2SF 1024)) with (1024 * 2 ^ 1074)%Z in H1024.
  pose proof (Float.leb_true_le 1 x H1) as Hge.
  change (Binary64.ival (Prim2SF 1)) with (2 ^ 1074)%Z in Hge.
  pose proof (Binary64.pow2_pos 1074 ltac:(lia)) as Hp.
  assert (Hten : exists negative n, toFixed1 x = Tenths negative n).
  { unfold toFixed1. pose proof (Prim2SF_valid x) as Hv.
    destruct (Prim2SF x) as [s|s| |s m e] eqn:E; cbn [Binary64.ival] in *.
    - eauto.
    - pose proof Binary64.top_pos.
      assert (1024 * 2 ^ 1074 < Binary64.top)%Z by reflexivity.
      destruct s; lia.
    - lia.
    - destruct (Z.leb_spec 0 e) as [He|He]; [|eauto].
      destruct (Z.leb_spec (10 ^ 21) (Z.pos m * 2 ^ e)) as [Hbig|]; [|eauto].
      exfalso. destruct s; [lia|].
      rewrite (Z.pow_add_r 2 e 1074) in H1024 by lia.
      assert (1024 < 10 ^ 21)%Z by reflexivity.
      generalize dependent (2 ^ 1074)%Z. generalize dependent (2 ^ e)%Z.
      generalize dependent (10 ^ 21)%Z. intros. nia. }
  destruct Hten as (negative & n & E).
  destruct (toFixed1_from_one x H1) as [(n' & E' & Hn')|E'];
    [|rewrite E' in E; discriminate].
  rewrite E' in E. injection E as <- <-.
  exists n'. split; [exact E'|]. split; [exact Hn'|].
  destruct (toFixed1_tenths x false n' E') as [Hn _].
  rewrite Z.abs_eq in Hn by lia.
  change (2 ^ 1075)%Z with (2 * 2 ^ 1074)%Z in Hn.
  generalize dependent (2 ^ 1074)%Z. intros. nia.
Qed.

(** X10: for every number, [NaN] and the infinities included, the loop of
    [formatBytes] ends after at most four divisions, and the unit is one
    of the five of the array: [units[unitIndex]] is never [undefined]. *)
Theorem formatBytes_terminates (bytes : float) :
  exists text shown,
    (forall fuel, 4 <= fuel -> formatBytes fuel bytes = Some text) /\
    shown_unit text = Some shown /\ shown ∈ units.
Proof.
  destruct (formatBytes_loop_ends 4 bytes 0 ltac:(lia) ltac:(lia))
    as [scaled H].
  pose proof (proj1 (formatBytes_loop_spec _ _ _ _ H ltac:(lia))) as Hi.
  destruct (lookup_lt_is_Some_2 units (unitIndex scaled)
              ltac:(cbn [length units]; lia)) as [shown Hu].
  exists {| shown_size := toFixed1 (size scaled);
            shown_unit := Some shown |}, shown.
  repeat split.
  - intros fuel Hfuel. unfold formatBytes.
    rewrite (formatBytes_loop_fuel 4 bytes 0 scaled fuel H Hfuel), Hu.
    reflexivity.
  - apply (list_elem_of_lookup_2 _ _ _ Hu).
Qed.

(** X11: the unit is B exactly when the byte count is not at least 1024
    (so also for [NaN] and negative counts), and then the number shown is
    the count itself printed with one decimal.  With KB, MB or GB the
    number shown is from 1.0 to 1024.0, this last one included, since a
    size just below 1024 is rounded up; with TB it is from 1.0 on, or
    the text of [String(size)] for a size from [10^21] on. *)
Theorem formatBytes_range (fuel : nat) (bytes : float) (text : ByteText) :
  formatBytes fuel bytes = Some text ->
  (shown_unit text = Some "B" <-> (1024 <=? bytes)%float = false) /\
  (shown_unit text = Some "B" -> shown_size text = toFixed1 bytes) /\
  (shown_unit text <> Some "B" -> shown_unit text <> Some "TB" ->
   exists n, shown_size text = Tenths false n /\ (10 <= n <= 10240)%Z) /\
  (shown_unit text = Some "TB" ->
   (exists n, shown_size text = Tenths false n /\ (10 <= n)%Z) \/
   (exists x, shown_size text = AsString x /\ (1 <=? x)%float = true)).
Proof.
  unfold formatBytes.
  destruct (formatBytes_loop fuel bytes 0) as [scaled|] eqn:H;
    [|discriminate].
  intros [= <-]. cbn [shown_unit shown_size].
  destruct (formatBytes_loop_spec _ _ _ _ H ltac:(lia))
    as (Hi & Hsame & Hlow & Hup & Hlt & Hge).
  assert (Hmid : 0 < unitIndex scaled < 4 ->
                 exists n, toFixed1 (size scaled) = Tenths false n /\
                           (10 <= n <= 10240)%Z)
    by (intros ?; apply toFixed1_below_1024; [apply Hge|apply Hlt]; lia).
  assert (Hlast : 0 < unitIndex scaled ->
            (exists n, toFixed1 (size scaled) = Tenths false n /\
                       (10 <= n)%Z) \/
            (exists x, toFixed1 (size scaled) = AsString x /\
                       (1 <=? x)%float = true)).
  { intros Hk. pose proof (Hge Hk) as H1.
    destruct (toFixed1_from_one _ H1) as [Hn|E]; [left; exact Hn|].
    right. exists (size scaled). split; assumption. }
  assert (Hread : forall k u, units !! k = Some u ->
            (u = "B" <-> k = 0) /\ (u = "TB" <-> k = 4)).
  { intros [|[|[|[|[|k]]]]] u; cbn; intros [= <-];
      split; split; first [discriminate | reflexivity | lia]. }
  destruct (lookup_lt_is_Some_2 units (unitIndex scaled)
              ltac:(cbn [length units]; lia)) as [u Hu].
  rewrite Hu. destruct (Hread _ _ Hu) as [HB HT].
  assert (HB' : Some u = Some "B" <-> unitIndex scaled = 0)
    by (rewrite <- HB; split; congruence).
  assert (HT' : Some u = Some "TB" <-> unitIndex scaled = 4)
    by (rewrite <- HT; split; congruence).
  repeat split.
  - intros G. apply HB' in G. apply Hlow; lia.
  - intros G. apply HB'.
    destruct (Nat.eq_dec (unitIndex scaled) 0) as [|N]; [assumption|].
    rewrite Hup in G by lia. discriminate.
  - intros G. apply HB' in G. rewrite (Hsame G). reflexivity.
  - intros G1 G2. apply Hmid. rewrite HB' in G1. rewrite HT' in G2. lia.
  - intros G. apply HT' in G. apply Hlast. lia.
Qed.

Lemma formatBytes_range_witness :
  formatBytes 4 1048575
    = Some {| shown_size := Tenths false 10240; shown_unit := Some "KB" |} /\
  exists n, Tenths false 10240 = Tenths false n /\ (10 <= n <= 10240)%Z.
Proof.
  pose proof (formatBytes_range 4 1048575
                {| shown_size := Tenths false 10240;
                   shown_unit := Some "KB" |}
                ltac:(reflexivity)) as (_ & _ & H & _).
  split; [reflexivity|]. cbn [shown_unit shown_size] in H.
  apply H; discriminate.
Defined.

(** X12: the number shown is the scaled byte count rounded to one
    decimal.  For a byte count that is not an infinity and a number shown
    of [n] tenths with the unit of index [k], ten times the magnitude of
    the byte count divided by [1024^k], a division that is exact, lies
    from [n - 1/2] up to, but not at, [n + 1/2]; so the number shown is
    within 0.05 of the exact quotient, and its sign is the sign of the
    byte count.  Values are in units of [2^-1074]. *)
Theorem formatBytes_shown_number
  (fuel : nat) (bytes : float) (text : ByteText) (negative : bool) (n : Z) :
  PrimFloat.is_infinity bytes = false ->
  formatBytes fuel bytes = Some text ->
  shown_size text = Tenths negative n ->
  exists k : nat,
    k < length units /\ shown_unit text = units !! k /\
    (2 ^ 1075 * 1024 ^ Z.of_nat k * n
     <= 20 * Z.abs (Binary64.ival (Prim2SF bytes))
        + 2 ^ 1074 * 1024 ^ Z.of_nat k
     < 2 ^ 1075 * 1024 ^ Z.of_nat k * (n + 1))%Z /\
    (negative = true <-> (Binary64.ival (Prim2SF bytes) < 0)%Z).
Proof.
  intros Hfin. unfold formatBytes.
  destruct (formatBytes_loop fuel bytes 0) as [scaled|] eqn:H;
    [|discriminate].
  intros [= <-]. cbn [shown_unit shown_size]. intros Hshown.
  exists (unitIndex scaled).
  pose proof (proj1 (formatBytes_loop_spec _ _ _ _ H ltac:(lia))) as Hi.
  split; [cbn [length units]; lia|]. split; [reflexivity|].
  destruct (toFixed1_tenths _ _ _ Hshown) as [Hn Hs].
  rewrite (formatBytes_loop_exact _ _ _ _ H Hfin).
  replace (Z.of_nat (unitIndex scaled) - Z.of_nat 0)%Z
    with (Z.of_nat (unitIndex scaled)) by lia.
  assert (HK : (0 < 1024 ^ Z.of_nat (unitIndex scaled))%Z)
    by (apply Z.pow_pos_nonneg; lia).
  rewrite Z.abs_mul, (Z.abs_eq (1024 ^ _)) by lia.
  split.
  - generalize dependent (1024 ^ Z.of_nat (unitIndex scaled))%Z.
    generalize dependent (Z.abs (Binary64.ival (Prim2SF (size scaled)))).
    generalize dependent (2 ^ 1075)%Z. generalize dependent (2 ^ 1074)%Z.
    intros. nia.
  - rewrite Hs. split; intros Hneg; nia.
Qed.

Lemma formatBytes_shown_number_witness :
  PrimFloat.is_infinity 1537 = false /\
  formatBytes 4 1537
    = Some {| shown_size := Tenths false 15; shown_unit := Some "KB" |} /\
  exists k : nat,
    k < length units /\ Some "KB" = units !! k /\
    (2 ^ 1075 * 1024 ^ Z.of_nat k * 15
     <= 20 * Z.abs (Binary64.ival (Prim2SF 1537))
        + 2 ^ 1074 * 1024 ^ Z.of_nat k
     < 2 ^ 1075 * 1024 ^ Z.of_nat k * (15 + 1))%Z /\
    (false = true <-> (Binary64.ival (Prim2SF 1537) < 0)%Z).
Proof.
  split; [reflexivity|]. split; [reflexivity|].
  apply (formatBytes_shown_number 4 1537
           {| shown_size := Tenths false 15; shown_unit := Some "KB" |});
    reflexivity.
Defined.

(** A larger byte count leaves the loop at an index that is not
    smaller. *)
Lemma formatBytes_loop_mono (fuel : nat) :
  forall fuel' bytes bytes' k scaled scaled',
    k <= 4 ->
    formatBytes_loop fuel bytes k = Some scaled ->
    formatBytes_loop fuel' bytes' k = Some scaled' ->
    (bytes <=? bytes')%float = true ->
    unitIndex scaled <= unitIndex scaled'.
Proof.
  induction fuel as [|fuel IH];
    intros fuel' bytes bytes' k scaled scaled' Hk H H' Hle;
    pose proof (proj1 (formatBytes_loop_spec _ _ _ _ H' Hk)) as Hi';
    cbn [formatBytes_loop] in H;
    destruct (1024 <=? bytes)%float eqn:G1;
    destruct (k <? length units - 1)%nat eqn:G2; cbn [andb] in H;
    try discriminate;
    try (injection H as <-; cbn [unitIndex]; lia).
  pose proof (Float.leb_trans _ _ _ G1 Hle) as G1'.
  destruct fuel' as [|fuel']; cbn [formatBytes_loop] in H';
    rewrite G1', G2 in H'; cbn [andb] in H'; [discriminate|].
  apply Nat.ltb_lt in G2. cbn [length units] in G2.
  apply (IH fuel' (bytes / 1024)%float (bytes' / 1024)%float (S k));
    [lia|assumption|assumption|].
  apply Float.div_1024_mono; assumption.
Qed.

(** X13: a larger byte count never gets a smaller unit: for two numbers in
    order, the index of the unit of the first is not above that of the
    second. *)
Theorem formatBytes_unit_monotone
  (fuel fuel' : nat) (bytes bytes' : float) (text text' : ByteText) :
  (bytes <=? bytes')%float = true ->
  formatBytes fuel bytes = Some text ->
  formatBytes fuel' bytes' = Some text' ->
  exists k k' : nat,
    shown_unit text = units !! k /\ shown_unit text' = units !! k' /\
    k <= k' < length units.
Proof.
  intros Hle. unfold formatBytes.
  destruct (formatBytes_loop fuel bytes 0) as [scaled|] eqn:H;
    [|discriminate].
  destruct (formatBytes_loop fuel' bytes' 0) as [scaled'|] eqn:H';
    [|discriminate].
  intros [= <-] [= <-]. cbn [shown_unit].
  exists (unitIndex scaled), (unitIndex scaled').
  split; [reflexivity|]. split; [reflexivity|].
  pose proof (proj1 (formatBytes_loop_spec _ _ _ _ H' ltac:(lia))) as Hi'.
  pose proof (formatBytes_loop_mono fuel fuel' bytes bytes' 0 scaled scaled'
                ltac:(lia) H H' Hle).
  cbn [length units]. lia.
Qed.

Lemma formatBytes_unit_monotone_witness :
  (1536 <=? 1610612736)%float = true /\
  formatBytes 4 1536
    = Some {| shown_size := Tenths false 15; shown_unit := Some "KB" |} /\
  formatBytes 4 1610612736
    = Some {| shown_size := Tenths false 15; shown_unit := Some "GB" |} /\
  exists k k' : nat,
    Some "KB" = units !! k /\ Some "GB" = units !! k' /\
    k <= k' < length units.
Proof.
  split; [reflexivity|]. split; [reflexivity|]. split; [reflexivity|].
  apply (formatBytes_unit_monotone 4 4 1536 1610612736
           {| shown_size := Tenths false 15; shown_unit := Some "KB" |}
           {| shown_size := Tenths false 15; shown_unit := Some "GB" |});
    reflexivity.
Defined.

(** ** Badge classes *)

Lemma complexity_classes_lookup_other (level : string) :
  level <> "High" -> level <> "Medium" -> level <> "Low" ->
  complexity_classes !! level = None.
Proof.
  intros H1 H2 H3. unfold complexity_classes.
  rewrite !lookup_insert_ne by congruence.
  apply lookup_singleton_ne. congruence.
Qed.

Lemma risk_classes_lookup_other (level : string) :
  level <> "High" -> level <> "Medium" -> level <> "Low" ->
  risk_classes !! level = None.
Proof.
  intros H1 H2 H3. unfold risk_classes.
  rewrite !lookup_insert_ne by congruence.
  apply lookup_singleton_ne. congruence.
Qed.

(** X14: [getComplexityClass] gives the red, yellow and green classes for
    High, Medium and Low, and the gray class for every other level
    except the names of the members of [Object.prototype], for which
    [classes[level]] is the inherited member and not a class. *)
Theorem getComplexityClass_cases (level : string) :
  getComplexityClass level =
  if decide (level = "High") then JSText.Text "bg-red-100 text-red-800"
  else if decide (level = "Medium")
       then JSText.Text "bg-yellow-100 text-yellow-800"
  else if decide (level = "Low")
       then JSText.Text "bg-green-100 text-green-800"
  else if decide (level ∈ JS.object_prototype_names)
       then JSText.Inherited level
  else JSText.Text "bg-gray-100 text-gray-800".
Proof.
  repeat case_decide; subst; try reflexivity;
    unfold getComplexityClass, JSText.get;
    rewrite complexity_classes_lookup_other by assumption.
  - rewrite bool_decide_eq_true_2 by assumption. reflexivity.
  - rewrite bool_decide_eq_false_2 by assumption. reflexivity.
Qed.

(** X15: [getRiskClass] gives the three risk classes for High, Medium and
    Low, and the gray class for every other level except the names of
    the members of [Object.prototype]. *)
Theorem getRiskClass_cases (level : string) :
  getRiskClass level =
  if decide (level = "High") then JSText.Text "text-red-600 font-medium"
  else if decide (level = "Medium")
       then JSText.Text "text-yellow-600 font-medium"
  else if decide (level = "Low")
       then JSText.Text "text-green-600 font-medium"
  else if decide (level ∈ JS.object_prototype_names)
       then JSText.Inherited level
  else JSText.Text "text-gray-600".
Proof.
  repeat case_decide; subst; try reflexivity;
    unfold getRiskClass, JSText.get;
    rewrite risk_classes_lookup_other by assumption.
  - rewrite bool_decide_eq_true_2 by assumption. reflexivity.
  - rewrite bool_decide_eq_false_2 by assumption. reflexivity.
Qed.

(** ** Cards and chart of a processed portfolio *)

Lemma mapM_Some_map {A B : Type} (f : A -> option B) (g : A -> B)
  (l : list A) :
  Forall (fun x => f x = Some (g x)) l -> mapM f l = Some (map g l).
Proof.
  intros H. apply mapM_Some. induction H; constructor; assumption.
Qed.

Lemma serverCosts_lookup_written (servers : list Server) (server : Server) :
  server ∈ servers ->
  serverCosts (processServerCosts servers) !! serverId (serverData server)
  = Some (calculateServerCosts (shown_for servers server)) /\
  last_with_id (serverId (serverData server)) servers
  = Some (shown_for servers server).
Proof.
  intros Hin. unfold processServerCosts, shown_for. cbn [serverCosts].
  destruct (last_with_id_elem_of _ servers server Hin eq_refl) as [final E].
  rewrite fold_add_server_lookup, E. split; reflexivity.
Qed.

Lemma shown_for_NoDup (servers : list Server) (server : Server) :
  NoDup (map (fun s => serverId (serverData s)) servers) ->
  server ∈ servers -> shown_for servers server = server.
Proof.
  intros Hnd Hin. unfold shown_for.
  rewrite (last_with_id_NoDup _ _ Hnd Hin). reflexivity.
Qed.

Lemma map_ext_elem_of {A B : Type} (f g : A -> B) (l : list A) :
  (forall x, x ∈ l -> f x = g x) -> map f l = map g l.
Proof.
  intros H. apply map_ext_in. intros x Hx. apply H, list_elem_of_In, Hx.
Qed.

Lemma displayServerAnalysis_eq (servers : list Server) :
  displayServerAnalysis servers (processServerCosts servers)
  = Some (map (card_for servers) servers).
Proof.
  apply mapM_Some_map, Forall_forall. intros server Hin.
  rewrite (proj1 (serverCosts_lookup_written servers server Hin)).
  reflexivity.
Qed.

Lemma createCostChart_rows (servers : list Server) :
  mapM (fun server =>
          match serverCosts (processServerCosts servers)
                  !! serverId (serverData server) with
          | Some costs =>
              Some {| row_name := serverName (serverData server);
                      row_current := currentMonthlyCost costs;
                      row_projected := projectedMonthlyCost costs;
                      row_migration := migrationCost costs |}
          | None => None
          end) servers
  = Some (map (row_for servers) servers).
Proof.
  apply mapM_Some_map, Forall_forall. intros server Hin.
  rewrite (proj1 (serverCosts_lookup_written servers server Hin)).
  reflexivity.
Qed.

Lemma createCostChart_eq (servers : list Server) :
  createCostChart servers (processServerCosts servers)
  = Some (chart_for servers).
Proof. unfold createCostChart. rewrite createCostChart_rows. reflexivity. Qed.

Lemma fold_left_add_map {A : Type} (figure : A -> float) (l : list A) :
  forall sum,
    fold_left PrimFloat.add (map figure l) sum
    = fold_left (fun sum x => (sum + figure x)%float) l sum.
Proof.
  induction l as [|x l IH]; intros sum; [reflexivity|]. cbn. apply IH.
Qed.

(** X16: on the summary of the same servers, [displayServerAnalysis]
    renders one card per server, in order, and no read of the mapping
    misses.  A card shows the breakdown of the last server carrying its
    server's id, so the server's own breakdown when the ids are pairwise
    distinct, and its monthly savings are the [savings] of that
    breakdown. *)
Theorem displayServerAnalysis_cards (servers : list Server) :
  exists cards,
    displayServerAnalysis servers (processServerCosts servers) = Some cards /\
    map card_server cards = servers /\
    Forall (fun card =>
              (exists final,
                 last_with_id (serverId (serverData (card_server card)))
                              servers = Some final /\
                 card_costs card = calculateServerCosts final) /\
              card_monthlySavings card = savings (card_costs card)) cards /\
    (NoDup (map (fun s => serverId (serverData s)) servers) ->
     Forall (fun card =>
               card_costs card = calculateServerCosts (card_server card))
            cards).
Proof.
  exists (map (card_for servers) servers). split; [|split; [|split]].
  - apply displayServerAnalysis_eq.
  - rewrite map_map. apply map_id.
  - apply Forall_forall. intros c Hc.
    apply list_elem_of_fmap in Hc as (server & -> & Hin).
    split; [|reflexivity].
    exists (shown_for servers server). split; [|reflexivity].
    apply serverCosts_lookup_written, Hin.
  - intros Hnd. apply Forall_forall. intros c Hc.
    apply list_elem_of_fmap in Hc as (server & -> & Hin).
    cbn [card_for card_costs card_server].
    rewrite (shown_for_NoDup _ _ Hnd Hin). reflexivity.
Qed.

(** X17: on the summary of the same servers, [createCostChart] draws three
    traces over the same axis, the server names in order, with one bar
    per server.  When the ids are pairwise distinct the bars are the
    servers' own figures, and the bars of each trace add up to the
    corresponding total of the summary. *)
Theorem createCostChart_traces (servers : list Server) :
  let summary := processServerCosts servers in
  exists current projected migration,
    createCostChart servers summary = Some [current; projected; migration] /\
    trace_x current = map (fun s => serverName (serverData s)) servers /\
    trace_x projected = trace_x current /\
    trace_x migration = trace_x current /\
    length (trace_y current) = length servers /\
    length (trace_y projected) = length servers /\
    length (trace_y migration) = length servers /\
    (NoDup (map (fun s => serverId (serverData s)) servers) ->
     trace_y current
       = map (fun s => currentMonthlyCost (calculateServerCosts s)) servers /\
     trace_y projected
       = map (fun s => projectedMonthlyCost (calculateServerCosts s)) servers /\
     trace_y migration
       = map (fun s => migrationCost (calculateServerCosts s)) servers /\
     fold_left PrimFloat.add (trace_y current) 0%float
       = currentCosts summary /\
     fold_left PrimFloat.add (trace_y projected) 0%float
       = monthlyCloudCost summary /\
     fold_left PrimFloat.add (trace_y migration) 0%float
       = totalMigrationCost summary).
Proof.
  intros summary. unfold createCostChart, summary.
  rewrite createCostChart_rows.
  eexists _, _, _. split; [reflexivity|]. cbn [trace_x trace_y].
  rewrite !map_map, !length_map.
  cbn beta zeta iota delta
    [row_for row_name row_current row_projected row_migration].
  repeat (split; [reflexivity|]).
  intros Hnd.
  assert (Hown : forall (figure : CostBreakdown -> float),
            map (fun s => figure (calculateServerCosts (shown_for servers s)))
                servers
            = map (fun s => figure (calculateServerCosts s)) servers).
  { intros figure. apply map_ext_elem_of. intros s Hin.
    rewrite (shown_for_NoDup _ _ Hnd Hin). reflexivity. }
  rewrite !Hown.
  destruct (fold_add_server_totals servers initial_totals) as (H1 & H2 & H3).
  unfold processServerCosts.
  cbn [totalMigrationCost monthlyCloudCost currentCosts].
  rewrite H1, H2, H3. cbn [initial_totals acc_totalMigrationCost
    acc_monthlyCloudCost acc_currentCosts].
  rewrite !fold_left_add_map. repeat split; reflexivity.
Qed.

(** ** Roadmap rendering *)

(** X18: when the roadmap has a project summary and a timeline, one element
    is rendered per phase, in the order of the timeline, and the last
    element, and only it, is drawn without the connector to a next
    phase. *)
Theorem displayMigrationRoadmap_phases
  (summary : ProjectSummary) (phases : list Phase) :
  exists elements,
    displayMigrationRoadmap
      (Some {| projectSummary := Some summary; timeline := Some phases |})
    = JS.Return (Rendered summary elements) /\
    map element_phase elements = phases /\
    forall i element,
      elements !! i = Some element ->
      (isLast element = true <-> S i = length phases).
Proof.
  eexists. split; [reflexivity|]. split.
  - apply list_eq. intros i.
    rewrite list_lookup_fmap, list_lookup_imap.
    destruct (phases !! i); reflexivity.
  - intros i element. rewrite list_lookup_imap.
    destruct (phases !! i) as [phase|] eqn:E; [|discriminate].
    intros [= <-]. cbn [createPhaseElement isLast].
    apply lookup_lt_Some in E. rewrite Nat.eqb_eq. lia.
Qed.

(** X19: [displayMigrationRoadmap] throws exactly when the roadmap has a
    timeline, empty or not, but no project summary; what it throws is
    the [TypeError] of reading a property of [undefined]. *)
Theorem displayMigrationRoadmap_throws (roadmap : option Roadmap) :
  (displayMigrationRoadmap roadmap = JS.Throw JS.TypeError <->
   exists r phases,
     roadmap = Some r /\ timeline r = Some phases /\
     projectSummary r = None) /\
  (forall e, displayMigrationRoadmap roadmap = JS.Throw e ->
             e = JS.TypeError).
Proof.
  destruct roadmap as [[[summary|] [phases|]]|]; cbn; split;
    try (split; [discriminate|]);
    try (intros e; discriminate);
    try (intros (r & p & [= <-] & H1 & H2); discriminate).
  - split; [intros _|reflexivity]. eexists _, phases. auto.
  - intros e [= <-]. reflexivity.
Qed.

(** ** The page after a submission *)

(** [displayResults] in one piece: the reads of the mapping never miss,
    so the call is followed to its end. *)
Lemma displayResults_eq (data : Dom.Payload) (page : Dom.Page) :
  Dom.displayResults data page =
  Some match displayMigrationRoadmap (Dom.roadmap data) with
       | JS.Return view =>
           (Dom.write "totalCost"
              (Dom.Rupees
                 (totalMigrationCost (processServerCosts (Dom.servers data))))
              (Dom.write "roadmap" (Dom.RoadmapHtml view)
                 (before_roadmap data page)),
            JS.Return tt)
       | JS.Throw e => (before_roadmap data page, JS.Throw e)
       end.
Proof.
  unfold Dom.displayResults, Dom.displayServerAnalysis,
    Dom.displayCostAnalysis, Dom.displayMigrationRoadmap.
  rewrite displayServerAnalysis_eq, createCostChart_eq.
  destruct (displayMigrationRoadmap (Dom.roadmap data)); reflexivity.
Qed.

(** Membership in the set of hidden elements, after the unions and
    differences the panel functions make. *)
Ltac hidden_solver :=
  unfold not;
  repeat first [ rewrite elem_of_union
               | rewrite elem_of_difference
               | rewrite elem_of_singleton ];
  intuition (try discriminate; try congruence).

(** The content of an element after writes at literal ids. *)
Ltac read_page :=
  unfold before_roadmap;
  unfold Dom.before_request;
  cbn [Dom.hideLoading Dom.showError Dom.hideResults Dom.hideError
       Dom.showLoading Dom.showResults Dom.add_hidden Dom.remove_hidden
       Dom.write Dom.hidden Dom.content];
  repeat first [ rewrite lookup_insert_eq
               | rewrite lookup_insert_ne by discriminate ].

Lemma before_roadmap_hidden data page :
  Dom.hidden (before_roadmap data page)
  = Dom.hidden page ∖ {[ "results" ]}.
Proof. reflexivity. Qed.

Lemma before_roadmap_other data page (id : string) :
  id ∉ [ "costSummary"; "costChart"; "roiTimeline"; "totalMigrationCost";
         "monthlyCloudCost"; "serverAnalysis"; "avgComplexity";
         "totalServers" ] ->
  Dom.content (before_roadmap data page) !! id
  = Dom.content page !! id.
Proof.
  intros Hid. unfold before_roadmap. cbn [Dom.write Dom.content].
  rewrite !lookup_insert_ne; [reflexivity|..];
    intros <-; apply Hid; repeat constructor.
Qed.

(** X20: on a payload, [displayResults] shows the results panel and fills
    the overview, the cards and the cost analysis; it throws exactly when
    [displayMigrationRoadmap] does.  When it returns, the roadmap is
    written and the total cost of the overview is the total migration
    cost shown in the cost analysis; when it throws, the roadmap and the
    total cost of the overview keep what they held before the call, next
    to the figures of the new payload. *)
Theorem displayResults_outcome (data : Dom.Payload) (page : Dom.Page) :
  exists page' completion,
    Dom.displayResults data page = Some (page', completion) /\
    ("results" ∉ Dom.hidden page') /\
    Dom.content page' !! "totalServers"
      = Some (Dom.Count (length (Dom.servers data))) /\
    Dom.content page' !! "totalMigrationCost"
      = Some (Dom.Rupees
                (totalMigrationCost (processServerCosts (Dom.servers data)))) /\
    match displayMigrationRoadmap (Dom.roadmap data) with
    | JS.Return view =>
        completion = JS.Return tt /\
        Dom.content page' !! "roadmap" = Some (Dom.RoadmapHtml view) /\
        Dom.content page' !! "totalCost"
          = Dom.content page' !! "totalMigrationCost"
    | JS.Throw e =>
        completion = JS.Throw e /\
        Dom.content page' !! "roadmap" = Dom.content page !! "roadmap" /\
        Dom.content page' !! "totalCost" = Dom.content page !! "totalCost"
    end.
Proof.
  rewrite displayResults_eq.
  destruct (displayMigrationRoadmap (Dom.roadmap data)) as [view|e];
    eexists _, _; (split; [reflexivity|]).
  - split; [cbn [Dom.write Dom.hidden]; rewrite before_roadmap_hidden;
            hidden_solver|].
    repeat split; read_page; reflexivity.
  - split; [rewrite before_roadmap_hidden; hidden_solver|].
    split; [read_page; reflexivity|]. split; [read_page; reflexivity|].
    split; [reflexivity|].
    split; apply before_roadmap_other; intros Hin;
      repeat (apply elem_of_cons in Hin as [Hin|Hin]; [discriminate|]);
      apply elem_of_nil in Hin; exact Hin.
Qed.

(** X21: the panels under the submit handler.  Without a file the handler
    ends at once and only the error panel changes: it is shown with the
    request to select a file.  With a file, as long as the request has not
    settled, and for good when it never does, since nothing times it out,
    the handler stays suspended with the loading panel shown, the error
    and results panels hidden and the error message empty.  Once the
    request has settled the handler ends with the loading panel hidden
    whatever happened; after a rejection or a response that is not [ok]
    the error panel shows the message and the results stay hidden; after
    a payload the results are shown, with the error panel hidden and its
    message empty when [displayResults] returned, and with the error panel
    shown over the results when it threw. *)
Theorem submit_panels
  (file_selected : bool) (request : Dom.Request) (page : Dom.Page) :
  exists run,
    Dom.on_submit file_selected request page = Some run /\
    if file_selected then
      match request with
      | Dom.NeverSettles =>
          run = Dom.Suspended (Dom.before_request page) /\
          ("loading" ∉ Dom.hidden (Dom.before_request page)) /\
          ("error" ∈ Dom.hidden (Dom.before_request page)) /\
          ("results" ∈ Dom.hidden (Dom.before_request page)) /\
          Dom.content (Dom.before_request page) !! "errorMessage"
            = Some (Dom.Message (Dom.Literal EmptyString))
      | Dom.Settles fetched =>
          exists page',
            run = Dom.Ended page' /\
            Dom.submit {| Dom.file_selected := true;
                          Dom.fetched := fetched |} page = Some page' /\
            ("loading" ∈ Dom.hidden page') /\
            match fetched with
            | Dom.Rejected message =>
                ("error" ∉ Dom.hidden page') /\
                ("results" ∈ Dom.hidden page') /\
                Dom.content page' !! "errorMessage"
                  = Some (Dom.Message (Dom.Literal message))
            | Dom.NotOk =>
                ("error" ∉ Dom.hidden page') /\
                ("results" ∈ Dom.hidden page') /\
                Dom.content page' !! "errorMessage"
                  = Some (Dom.Message (Dom.Literal "Analysis failed"))
            | Dom.Json data =>
                ("results" ∉ Dom.hidden page') /\
                match displayMigrationRoadmap (Dom.roadmap data) with
                | JS.Return _ =>
                    ("error" ∈ Dom.hidden page') /\
                    Dom.content page' !! "errorMessage"
                      = Some (Dom.Message (Dom.Literal EmptyString))
                | JS.Throw e =>
                    ("error" ∉ Dom.hidden page') /\
                    Dom.content page' !! "errorMessage"
                      = Some (Dom.Message (Dom.MessageOf e))
                end
            end
      end
    else
      exists page',
        run = Dom.Ended page' /\
        Dom.hidden page' = Dom.hidden page ∖ {[ "error" ]} /\
        Dom.content page'
          = <[ "errorMessage" :=
                 Dom.Message
                   (Dom.Literal "Please select a file to upload") ]>
              (Dom.content page).
Proof.
  unfold Dom.on_submit, Dom.submit.
  destruct file_selected; cbn [negb Dom.file_selected Dom.fetched];
    [|eexists; split; [reflexivity|];
      eexists; split; [reflexivity|split; reflexivity]].
  destruct request as [|fetched].
  { eexists. split; [reflexivity|]. split; [reflexivity|]. read_page.
    repeat split; try hidden_solver. }
  unfold Dom.try_block.
  destruct fetched as [message| |data].
  - eexists. split; [reflexivity|]. eexists. split; [reflexivity|].
    split; [reflexivity|]. read_page.
    repeat split; try hidden_solver.
  - eexists. split; [reflexivity|]. eexists. split; [reflexivity|].
    split; [reflexivity|]. read_page.
    repeat split; try hidden_solver.
  - rewrite displayResults_eq.
    destruct (displayMigrationRoadmap (Dom.roadmap data)) as [view|e];
      eexists; (split; [reflexivity|]);
      eexists; (split; [reflexivity|]); (split; [reflexivity|]).
    + cbn [Dom.hideLoading Dom.add_hidden Dom.write Dom.hidden Dom.content].
      rewrite before_roadmap_hidden.
      rewrite !lookup_insert_ne by discriminate.
      rewrite before_roadmap_other
        by (intros Hin;
            repeat (apply elem_of_cons in Hin as [Hin|Hin]; [discriminate|]);
            apply elem_of_nil in Hin; exact Hin).
      read_page.
      repeat split; try hidden_solver.
    + cbn [Dom.hideLoading Dom.showError Dom.add_hidden Dom.remove_hidden
           Dom.write Dom.hidden Dom.content].
      rewrite before_roadmap_hidden. read_page.
      repeat split; try hidden_solver.
Qed.

Lemma page_eq (p q : Dom.Page) :
  Dom.hidden p = Dom.hidden q -> Dom.content p = Dom.content q -> p = q.
Proof. destruct p, q. cbn. intros -> ->. reflexivity. Qed.

(** Equality of two pages made by the panel functions and by writes at
    literal ids: the same elements are hidden, and every element holds
    the same content. *)
Ltac same_page :=
  apply page_eq;
  [ apply set_eq; intros x;
    unfold before_roadmap;
    cbn [Dom.hideLoading Dom.showError Dom.hideResults Dom.hideError
         Dom.showLoading Dom.showResults Dom.add_hidden Dom.remove_hidden
         Dom.write Dom.hidden Dom.content];
    hidden_solver
  | apply map_eq; intros i;
    unfold before_roadmap;
    cbn [Dom.hideLoading Dom.showError Dom.hideResults Dom.hideError
         Dom.showLoading Dom.showResults Dom.add_hidden Dom.remove_hidden
         Dom.write Dom.hidden Dom.content];
    repeat match goal with
           | |- context [ <[ ?k := _ ]> _ !! i ] =>
               first
                 [ rewrite (lookup_insert_ne _ k i) by assumption
                 | destruct (decide (k = i)) as [<-|?];
                   [ repeat first
                       [ rewrite lookup_insert_eq
                       | rewrite lookup_insert_ne by discriminate ];
                     reflexivity
                   | ] ]
           end;
    reflexivity ].

(** X22: submitting again what was just submitted changes nothing: the
    page after the second run is the page after the first. *)
Theorem submit_twice (s : Dom.Submission) (page : Dom.Page) :
  Dom.submit s page ≫= Dom.submit s = Dom.submit s page.
Proof.
  unfold Dom.submit.
  destruct (Dom.file_selected s); cbn [negb mbind option_bind];
    [|f_equal; same_page].
  unfold Dom.try_block, Dom.before_request.
  destruct (Dom.fetched s) as [message| |data]; cbn [mbind option_bind].
  - f_equal. same_page.
  - f_equal. same_page.
  - rewrite displayResults_eq.
    destruct (displayMigrationRoadmap (Dom.roadmap data)) as [view|e] eqn:E;
      cbn [mbind option_bind]; rewrite displayResults_eq, E; f_equal;
      same_page.
Qed.
